(** * sharky-checker: a shallow embedding of [main.go] and its verification

    The program audits a bee localstore: eight shed indexes, two counters and
    the sharky blob store.  Everything the program itself defines (the
    [dirFS] handle, the eight index codecs, [checkIndexes], the counter
    comparison, the content scan and the report) is embedded here; the
    imported packages (shed, sharky, postage, swarm, cac, soc, fmt, os,
    encoding/binary) are represented by small executable models of their
    interfaces, each marked as such. *)

From Stdlib Require Import ZArith List String Ascii Lia Bool.
From Stdlib.Strings Require Import Byte.
From Stdlib Require Import DecimalString.
From stdpp Require Import gmap strings.
Import ListNotations.

Local Open Scope string_scope.
Local Open Scope list_scope.
Local Open Scope Z_scope.

(* ===================================================================== *)
(** ** Go run-time values *)
(* ===================================================================== *)

Module Go.

Definition bytes := list byte.

(** A Go [error] value: [None] is [nil], [Some msg] an error whose
    [Error()] text is [msg]. *)
Definition error := option string.

(** The result of running Go code that may panic. *)
Inductive outcome (A : Type) : Type :=
| Returns (a : A)
| Panics (msg : string).
Arguments Returns {A} a.
Arguments Panics {A} msg.

Definition obind {A B} (c : outcome A) (k : A -> outcome B) : outcome B :=
  match c with
  | Returns a => k a
  | Panics m => Panics m
  end.

(** A byte slice: the [len] visible elements followed by the part of the
    backing array between [len] and [cap]. *)
Record slice : Type := Slice { elems : bytes; spare : bytes }.

Definition len (s : slice) : nat := length (elems s).
Definition cap (s : slice) : nat := (length (elems s) + length (spare s))%nat.
Definition backing (s : slice) : bytes := elems s ++ spare s.

(** A slice whose capacity equals its length, as [make([]byte, n)] and
    literals give. *)
Definition exact (b : bytes) : slice := Slice b [].

(** [s[lo:hi]]: Go requires [0 <= lo <= hi <= cap(s)]. *)
Definition reslice (s : slice) (lo hi : nat) : outcome slice :=
  if (lo <=? hi)%nat && (hi <=? cap s)%nat
  then Returns (Slice (firstn (hi - lo) (skipn lo (backing s)))
                      (skipn hi (backing s)))
  else Panics "slice bounds out of range".

(** [s[lo:]] is [s[lo:len(s)]] and [s[:hi]] is [s[0:hi]]. *)
Definition slice_from (s : slice) (lo : nat) : outcome slice :=
  reslice s lo (len s).
Definition slice_to (s : slice) (hi : nat) : outcome slice :=
  reslice s 0 hi.

(** [make([]byte, n)]. *)
Definition make (n : nat) : bytes := repeat x00 n.

(** [copy(dst[off:], src)] on a buffer of fixed length: copies
    [min(len(dst)-off, len(src))] bytes and leaves the rest of [dst]. *)
Definition copy_at (dst : bytes) (off : nat) (src : bytes) : bytes :=
  let n := Nat.min (length dst - off) (length src) in
  firstn off dst ++ firstn n src ++ skipn (off + n) dst.

(** [copy(dst[lo:hi], src)]. *)
Definition copy_range (dst : bytes) (lo hi : nat) (src : bytes) : bytes :=
  copy_at dst lo (firstn (hi - lo) src).

Definition byte_of_Z (z : Z) : byte :=
  match Byte.of_N (Z.to_N (z mod 256)) with
  | Some b => b
  | None => x00
  end.

Definition Z_of_byte (b : byte) : Z := Z.of_N (Byte.to_N b).

(** Fixed-width integer conversions, with the wrap-around written out. *)
Definition uint64 (z : Z) : Z := z mod 2 ^ 64.
Definition uint32 (z : Z) : Z := z mod 2 ^ 32.
Definition int64 (z : Z) : Z :=
  let u := z mod 2 ^ 64 in if u <? 2 ^ 63 then u else u - 2 ^ 64.
(** [int] on the 64-bit platforms the tool is built for. *)
Definition int (z : Z) : Z := int64 z.

(** encoding/binary, big endian: the [n] low bytes of [v], most significant
    first, and the value of a byte string. *)
Fixpoint be_bytes (n : nat) (v : Z) : bytes :=
  match n with
  | O => []
  | S m => byte_of_Z (Z.shiftr v (8 * Z.of_nat m)) :: be_bytes m v
  end.

Fixpoint be_value (bs : bytes) : Z :=
  match bs with
  | [] => 0
  | b :: rest =>
      Z.lor (Z.shiftl (Z_of_byte b) (8 * Z.of_nat (length rest))) (be_value rest)
  end.

(** [binary.BigEndian.Uint64(b)] starts with the bounds check [_ = b[7]]. *)
Definition Uint64 (b : slice) : outcome Z :=
  if (8 <=? len b)%nat then Returns (be_value (firstn 8 (elems b)))
  else Panics "index out of range [7]".

Definition Uint32 (b : slice) : outcome Z :=
  if (4 <=? len b)%nat then Returns (be_value (firstn 4 (elems b)))
  else Panics "index out of range [3]".

(** [binary.BigEndian.PutUint64(dst[off:off+8], v)] on a buffer that is long
    enough (every call site writes into a fresh [make]). *)
Definition PutUint64_at (dst : bytes) (off : nat) (v : Z) : bytes :=
  copy_range dst off (off + 8) (be_bytes 8 v).
Definition PutUint32_at (dst : bytes) (off : nat) (v : Z) : bytes :=
  copy_range dst off (off + 4) (be_bytes 4 v).

Fixpoint bytes_eqb (a b : bytes) : bool :=
  match a, b with
  | [], [] => true
  | x :: a', y :: b' => Byte.eqb x y && bytes_eqb a' b'
  | _, _ => false
  end.

(** [fmt]'s [%d]. *)
Definition fmt_d (z : Z) : string := NilZero.string_of_int (Z.to_int z).

(** [hex.EncodeToString]. *)
Definition hex_digit (n : Z) : ascii :=
  match n with
  | 0 => "0" | 1 => "1" | 2 => "2" | 3 => "3" | 4 => "4" | 5 => "5"
  | 6 => "6" | 7 => "7" | 8 => "8" | 9 => "9" | 10 => "a" | 11 => "b"
  | 12 => "c" | 13 => "d" | 14 => "e" | _ => "f"
  end%char.

Fixpoint hex (b : bytes) : string :=
  match b with
  | [] => ""
  | x :: rest =>
      String (hex_digit (Z_of_byte x / 16))
        (String (hex_digit (Z_of_byte x mod 16)) (hex rest))
  end.

(** [%v] applied to an error value. *)
Definition fmt_err (e : error) : string :=
  match e with
  | Some m => m
  | None => "<nil>"
  end.

Definition is_nil (b : bytes) : bool :=
  match b with [] => true | _ => false end.

End Go.

Export Go.

Notation "'do' x <- c ; k" := (obind c (fun x => k))
  (at level 10, x name, c at level 100, k at level 200).

(* ===================================================================== *)
(** ** The record passed through every codec (shed.Item) *)
(* ===================================================================== *)

Module Shed.

(** The fields of [shed.Item] that the program reads or writes.  Byte-slice
    fields hold the visible bytes; [nil] and the empty slice are both [[]].
    Integers are mathematical integers inside their Go type's range. *)
Record Item : Type := mkItem {
  Address : bytes;
  Location : bytes;
  AccessTimestamp : Z;   (* int64 *)
  StoreTimestamp : Z;    (* int64 *)
  BinID : Z;             (* uint64 *)
  PinCounter : Z;        (* uint64 *)
  Tag : Z;               (* uint32 *)
  BatchID : bytes;
  Index : bytes;
  Timestamp : bytes;
  Sig : bytes
}.

(** The zero value of [Item], what [e shed.Item] starts as. *)
Definition zeroItem : Item := mkItem [] [] 0 0 0 0 0 [] [] [] [].

Definition set_Address (v : bytes) (e : Item) : Item :=
  mkItem v (Location e) (AccessTimestamp e) (StoreTimestamp e) (BinID e)
         (PinCounter e) (Tag e) (BatchID e) (Index e) (Timestamp e) (Sig e).
Definition set_Location (v : bytes) (e : Item) : Item :=
  mkItem (Address e) v (AccessTimestamp e) (StoreTimestamp e) (BinID e)
         (PinCounter e) (Tag e) (BatchID e) (Index e) (Timestamp e) (Sig e).
Definition set_AccessTimestamp (v : Z) (e : Item) : Item :=
  mkItem (Address e) (Location e) v (StoreTimestamp e) (BinID e)
         (PinCounter e) (Tag e) (BatchID e) (Index e) (Timestamp e) (Sig e).
Definition set_StoreTimestamp (v : Z) (e : Item) : Item :=
  mkItem (Address e) (Location e) (AccessTimestamp e) v (BinID e)
         (PinCounter e) (Tag e) (BatchID e) (Index e) (Timestamp e) (Sig e).
Definition set_BinID (v : Z) (e : Item) : Item :=
  mkItem (Address e) (Location e) (AccessTimestamp e) (StoreTimestamp e) v
         (PinCounter e) (Tag e) (BatchID e) (Index e) (Timestamp e) (Sig e).
Definition set_PinCounter (v : Z) (e : Item) : Item :=
  mkItem (Address e) (Location e) (AccessTimestamp e) (StoreTimestamp e)
         (BinID e) v (Tag e) (BatchID e) (Index e) (Timestamp e) (Sig e).
Definition set_Tag (v : Z) (e : Item) : Item :=
  mkItem (Address e) (Location e) (AccessTimestamp e) (StoreTimestamp e)
         (BinID e) (PinCounter e) v (BatchID e) (Index e) (Timestamp e) (Sig e).
Definition set_BatchID (v : bytes) (e : Item) : Item :=
  mkItem (Address e) (Location e) (AccessTimestamp e) (StoreTimestamp e)
         (BinID e) (PinCounter e) (Tag e) v (Index e) (Timestamp e) (Sig e).
Definition set_Index (v : bytes) (e : Item) : Item :=
  mkItem (Address e) (Location e) (AccessTimestamp e) (StoreTimestamp e)
         (BinID e) (PinCounter e) (Tag e) (BatchID e) v (Timestamp e) (Sig e).
Definition set_Timestamp (v : bytes) (e : Item) : Item :=
  mkItem (Address e) (Location e) (AccessTimestamp e) (StoreTimestamp e)
         (BinID e) (PinCounter e) (Tag e) (BatchID e) (Index e) v (Sig e).
Definition set_Sig (v : bytes) (e : Item) : Item :=
  mkItem (Address e) (Location e) (AccessTimestamp e) (StoreTimestamp e)
         (BinID e) (PinCounter e) (Tag e) (BatchID e) (Index e) (Timestamp e) v.

Definition or_bytes (a b : bytes) : bytes := if is_nil a then b else a.
Definition or_int (a b : Z) : Z := if a =? 0 then b else a.

(** Modelled from the spec: [Item.Merge] of the imported shed package, which
    builds the record an iteration yields from the decoded key and the
    decoded value: every field of the receiver that is unset takes the
    argument's value. *)
Definition Merge (i i2 : Item) : Item :=
  mkItem (or_bytes (Address i) (Address i2))
         (or_bytes (Location i) (Location i2))
         (or_int (AccessTimestamp i) (AccessTimestamp i2))
         (or_int (StoreTimestamp i) (StoreTimestamp i2))
         (or_int (BinID i) (BinID i2))
         (or_int (PinCounter i) (PinCounter i2))
         (or_int (Tag i) (Tag i2))
         (or_bytes (BatchID i) (BatchID i2))
         (or_bytes (Index i) (Index i2))
         (or_bytes (Timestamp i) (Timestamp i2))
         (or_bytes (Sig i) (Sig i2)).

(** [shed.IndexFuncs]: the four closures an index is built from.  Each
    returns its value together with a Go error, and may panic. *)
Record IndexFuncs : Type := mkIndexFuncs {
  EncodeKey : Item -> outcome (bytes * error);
  DecodeKey : slice -> outcome (Item * error);
  EncodeValue : Item -> outcome (bytes * error);
  DecodeValue : Item -> slice -> outcome (Item * error)
}.

End Shed.

Export Shed.

(* ===================================================================== *)
(** ** postage.Stamp, as far as the primary index's codec uses it *)
(* ===================================================================== *)

Module Postage.

(** Modelled from the spec: the stamp of the imported postage package, "batch
    id, batch-relative index, timestamp, signature", in the package's wire
    format batchID[32] | index[8] | timestamp[8] | signature[65]. *)
Definition IndexSize : nat := 8.
Definition StampSize : nat := 113.

Record Stamp : Type := NewStamp {
  stamp_batchID : bytes;
  stamp_index : bytes;
  stamp_timestamp : bytes;
  stamp_sig : bytes
}.

Definition MarshalBinary (s : Stamp) : bytes * error :=
  let buf := make StampSize in
  let buf := copy_at buf 0 (stamp_batchID s) in
  let buf := copy_range buf 32 40 (stamp_index s) in
  let buf := copy_range buf 40 48 (stamp_timestamp s) in
  let buf := copy_at buf 48 (stamp_sig s) in
  (buf, None).

(** [UnmarshalBinary] refuses any buffer whose length is not [StampSize]. *)
Definition UnmarshalBinary (buf : slice) : Stamp * error :=
  if negb (len buf =? StampSize)%nat
  then (NewStamp [] [] [] [], Some "invalid stamp")
  else (NewStamp (firstn 32 (elems buf))
                 (firstn 8 (skipn 32 (elems buf)))
                 (firstn 8 (skipn 40 (elems buf)))
                 (skipn 48 (elems buf)), None).

End Postage.

(* ===================================================================== *)
(** ** The eight index codecs of [main] *)
(* ===================================================================== *)

Module Schema.

Import Postage.

Definition headerSize : nat := (16 + StampSize)%nat.

(** "Address->StoreTimestamp|BinID|BatchID|BatchIndex|Sig|Location" *)
Definition retrievalData_EncodeKey (fields : Item) : outcome (bytes * error) :=
  Returns (Address fields, None).

Definition retrievalData_DecodeKey (key : slice) : outcome (Item * error) :=
  Returns (set_Address (elems key) zeroItem, None).

Definition retrievalData_EncodeValue (fields : Item) : outcome (bytes * error) :=
  let b := make headerSize in
  let b := PutUint64_at b 0 (BinID fields) in
  let b := PutUint64_at b 8 (uint64 (StoreTimestamp fields)) in
  let '(stamp, err) :=
    MarshalBinary (NewStamp (BatchID fields) (Index fields)
                            (Timestamp fields) (Sig fields)) in
  match err with
  | Some _ => Returns ([], err)
  | None =>
      let b := copy_at b 16 stamp in
      Returns (b ++ Location fields, None)
  end.

Definition retrievalData_DecodeValue (keyItem : Item) (value : slice)
  : outcome (Item * error) :=
  let e := zeroItem in
  do s <- reslice value 8 16;
  do u <- Uint64 s;
  let e := set_StoreTimestamp (int64 u) e in
  do s <- slice_to value 8;
  do u <- Uint64 s;
  let e := set_BinID u e in
  do s <- reslice value 16 headerSize;
  let '(stamp, err) := UnmarshalBinary s in
  match err with
  | Some _ => Returns (e, err)
  | None =>
      let e := set_BatchID (stamp_batchID stamp) e in
      let e := set_Index (stamp_index stamp) e in
      let e := set_Timestamp (stamp_timestamp stamp) e in
      let e := set_Sig (stamp_sig stamp) e in
      do s <- slice_from value headerSize;
      Returns (set_Location (elems s) e, None)
  end.

Definition retrievalDataFuncs : IndexFuncs :=
  mkIndexFuncs retrievalData_EncodeKey retrievalData_DecodeKey
               retrievalData_EncodeValue retrievalData_DecodeValue.

(** "Address->AccessTimestamp" *)
Definition retrievalAccess_EncodeKey (fields : Item) : outcome (bytes * error) :=
  Returns (Address fields, None).

Definition retrievalAccess_DecodeKey (key : slice) : outcome (Item * error) :=
  Returns (set_Address (elems key) zeroItem, None).

Definition retrievalAccess_EncodeValue (fields : Item) : outcome (bytes * error) :=
  let b := make 8 in
  let b := PutUint64_at b 0 (uint64 (AccessTimestamp fields)) in
  Returns (b, None).

Definition retrievalAccess_DecodeValue (keyItem : Item) (value : slice)
  : outcome (Item * error) :=
  do u <- Uint64 value;
  Returns (set_AccessTimestamp (int64 u) zeroItem, None).

Definition retrievalAccessFuncs : IndexFuncs :=
  mkIndexFuncs retrievalAccess_EncodeKey retrievalAccess_DecodeKey
               retrievalAccess_EncodeValue retrievalAccess_DecodeValue.

(** "PO|BinID->Hash".  The assignment of [key[0]] is commented out in the
    source, so the first byte stays as [make] left it. *)
Definition pull_EncodeKey (fields : Item) : outcome (bytes * error) :=
  let key := make 9 in
  let key := PutUint64_at key 1 (BinID fields) in
  Returns (key, None).

Definition pull_DecodeKey (key : slice) : outcome (Item * error) :=
  do s <- reslice key 1 9;
  do u <- Uint64 s;
  Returns (set_BinID u zeroItem, None).

Definition pull_EncodeValue (fields : Item) : outcome (bytes * error) :=
  let value := make 64 in
  let value := copy_at value 0 (Address fields) in
  let value := copy_at value 32 (BatchID fields) in
  Returns (value, None).

Definition pull_DecodeValue (keyItem : Item) (value : slice)
  : outcome (Item * error) :=
  do a <- slice_to value 32;
  let e := set_Address (elems a) zeroItem in
  do b <- reslice value 32 64;
  Returns (set_BatchID (elems b) e, None).

Definition pullFuncs : IndexFuncs :=
  mkIndexFuncs pull_EncodeKey pull_DecodeKey pull_EncodeValue pull_DecodeValue.

(** "StoreTimestamp|Hash->Tags" *)
Definition push_EncodeKey (fields : Item) : outcome (bytes * error) :=
  let key := make 40 in
  let key := PutUint64_at key 0 (uint64 (StoreTimestamp fields)) in
  let key := copy_at key 8 (Address fields) in
  Returns (key, None).

Definition push_DecodeKey (key : slice) : outcome (Item * error) :=
  do a <- slice_from key 8;
  let e := set_Address (elems a) zeroItem in
  do s <- slice_to key 8;
  do u <- Uint64 s;
  Returns (set_StoreTimestamp (int64 u) e, None).

Definition push_EncodeValue (fields : Item) : outcome (bytes * error) :=
  let tag := make 4 in
  let tag := PutUint32_at tag 0 (Tag fields) in
  Returns (tag, None).

Definition push_DecodeValue (keyItem : Item) (value : slice)
  : outcome (Item * error) :=
  if (len value =? 4)%nat
  then do u <- Uint32 value; Returns (set_Tag u zeroItem, None)
  else Returns (zeroItem, None).

Definition pushFuncs : IndexFuncs :=
  mkIndexFuncs push_EncodeKey push_DecodeKey push_EncodeValue push_DecodeValue.

(** "AccessTimestamp|BinID|Hash->BatchID|BatchIndex" *)
Definition gc_EncodeKey (fields : Item) : outcome (bytes * error) :=
  let b := make 16 in
  let b := PutUint64_at b 0 (uint64 (AccessTimestamp fields)) in
  let b := PutUint64_at b 8 (BinID fields) in
  Returns (b ++ Address fields, None).

Definition gc_DecodeKey (key : slice) : outcome (Item * error) :=
  do s <- slice_to key 8;
  do u <- Uint64 s;
  let e := set_AccessTimestamp (int64 u) zeroItem in
  do s <- reslice key 8 16;
  do u <- Uint64 s;
  let e := set_BinID u e in
  do a <- slice_from key 16;
  Returns (set_Address (elems a) e, None).

Definition gc_EncodeValue (fields : Item) : outcome (bytes * error) :=
  let value := make 40 in
  let value := copy_at value 0 (BatchID fields) in
  let value := copy_at value 32 (Index fields) in
  Returns (value, None).

Definition gc_DecodeValue (keyItem : Item) (value : slice)
  : outcome (Item * error) :=
  do b <- slice_to value 32;
  let e := set_BatchID (copy_at (make 32) 0 (elems b)) zeroItem in
  do i <- slice_from value 32;
  Returns (set_Index (copy_at (make IndexSize) 0 (elems i)) e, None).

Definition gcFuncs : IndexFuncs :=
  mkIndexFuncs gc_EncodeKey gc_DecodeKey gc_EncodeValue gc_DecodeValue.

(** "Hash->PinCounter" *)
Definition pin_EncodeKey (fields : Item) : outcome (bytes * error) :=
  Returns (Address fields, None).

Definition pin_DecodeKey (key : slice) : outcome (Item * error) :=
  Returns (set_Address (elems key) zeroItem, None).

Definition pin_EncodeValue (fields : Item) : outcome (bytes * error) :=
  let b := make 8 in
  let b := PutUint64_at b 0 (PinCounter fields) in
  Returns (b, None).

Definition pin_DecodeValue (keyItem : Item) (value : slice)
  : outcome (Item * error) :=
  do s <- slice_to value 8;
  do u <- Uint64 s;
  Returns (set_PinCounter u zeroItem, None).

Definition pinFuncs : IndexFuncs :=
  mkIndexFuncs pin_EncodeKey pin_DecodeKey pin_EncodeValue pin_DecodeValue.

(** "BatchID|PO|Hash->nil".  As in the pull index, [key[32]] is never
    assigned. *)
Definition postageChunks_EncodeKey (fields : Item) : outcome (bytes * error) :=
  let key := make 65 in
  let key := copy_range key 0 32 (BatchID fields) in
  let key := copy_at key 33 (Address fields) in
  Returns (key, None).

Definition postageChunks_DecodeKey (key : slice) : outcome (Item * error) :=
  do b <- slice_to key 32;
  let e := set_BatchID (elems b) zeroItem in
  do a <- reslice key 33 65;
  Returns (set_Address (elems a) e, None).

Definition postageChunks_EncodeValue (fields : Item) : outcome (bytes * error) :=
  Returns ([], None).

Definition postageChunks_DecodeValue (keyItem : Item) (value : slice)
  : outcome (Item * error) :=
  Returns (zeroItem, None).

Definition postageChunksFuncs : IndexFuncs :=
  mkIndexFuncs postageChunks_EncodeKey postageChunks_DecodeKey
               postageChunks_EncodeValue postageChunks_DecodeValue.

(** "BatchID|BatchIndex->Hash|Timestamp" *)
Definition postageIndex_EncodeKey (fields : Item) : outcome (bytes * error) :=
  let key := make 40 in
  let key := copy_range key 0 32 (BatchID fields) in
  let key := copy_range key 32 40 (Index fields) in
  Returns (key, None).

Definition postageIndex_DecodeKey (key : slice) : outcome (Item * error) :=
  do b <- slice_to key 32;
  let e := set_BatchID (elems b) zeroItem in
  do i <- reslice key 32 40;
  Returns (set_Index (elems i) e, None).

Definition postageIndex_EncodeValue (fields : Item) : outcome (bytes * error) :=
  let value := make 40 in
  let value := copy_at value 0 (Address fields) in
  let value := copy_at value 32 (Timestamp fields) in
  Returns (value, None).

Definition postageIndex_DecodeValue (keyItem : Item) (value : slice)
  : outcome (Item * error) :=
  do a <- slice_to value 32;
  let e := set_Address (elems a) zeroItem in
  do t <- slice_from value 32;
  Returns (set_Timestamp (elems t) e, None).

Definition postageIndexFuncs : IndexFuncs :=
  mkIndexFuncs postageIndex_EncodeKey postageIndex_DecodeKey
               postageIndex_EncodeValue postageIndex_DecodeValue.

End Schema.

(* ===================================================================== *)
(** ** The world the program runs in *)
(* ===================================================================== *)

Module World.

(** sharky.Location and swarm.Chunk, as plain data. *)
Record SharkyLocation : Type := mkLocation { Shard : Z; Slot : Z; Length : Z }.
Record Chunk : Type := NewChunk { chunk_Address : bytes; chunk_Data : bytes }.

(** A file-system entry. *)
Inductive node : Type :=
| Dir
| File (content : bytes).

(** Every call the program can make on the store through the imported
    packages.  The last five are the packages' mutating entry points. *)
Inductive StoreOp : Type :=
| OpNewDB (path : string)
| OpNewField (name : string)
| OpNewIndex (name : string)
| OpClose
| OpOpenFile (name : string) (flag : Z)
| OpFieldGet (name : string)
| OpIterate (index : string)
| OpHas (index : string) (key : bytes)
| OpCount (index : string)
| OpBlobRead (loc : SharkyLocation)
| OpFieldPut (name : string) (v : Z)
| OpIndexPut (index : string) (key value : bytes)
| OpIndexDelete (index : string) (key : bytes)
| OpBlobWrite (data : bytes)
| OpBlobRelease (loc : SharkyLocation).

Definition is_read (op : StoreOp) : bool :=
  match op with
  | OpFieldGet _ | OpIterate _ | OpHas _ _ | OpCount _ | OpBlobRead _ => true
  | _ => false
  end.

Definition is_lifecycle (op : StoreOp) : bool :=
  match op with
  | OpNewDB _ | OpNewField _ | OpNewIndex _ | OpClose | OpOpenFile _ _ => true
  | _ => false
  end.

Definition is_write (op : StoreOp) : bool :=
  match op with
  | OpFieldPut _ _ | OpIndexPut _ _ _ | OpIndexDelete _ _ | OpBlobWrite _
  | OpBlobRelease _ => true
  | _ => false
  end.

(** The state outside the program: the file system as the program's own
    calls ([os.Stat], [os.OpenFile]) see and change it, what has been
    printed, and the calls made on the store so far.  The files the engine
    keeps for itself under its directory (it is opened read-write and
    maintains its log, manifest and journal) are behind its calls: they are
    not entries of [fs]. *)
Record world : Type := mkWorld {
  fs : gmap string node;
  stdout : list string;
  trace : list StoreOp
}.

(** Go code with effects on the world; the world survives a panic. *)
Definition M (A : Type) : Type := world -> world * outcome A.

Definition ret {A} (a : A) : M A := fun w => (w, Returns a).

Definition bind {A B} (c : M A) (k : A -> M B) : M B :=
  fun w =>
    match c w with
    | (w', Returns a) => k a w'
    | (w', Panics m) => (w', Panics m)
    end.

Definition lift {A} (o : outcome A) : M A := fun w => (w, o).

Definition Printf (s : string) : M unit :=
  fun w => (mkWorld (fs w) (stdout w ++ [s]) (trace w), Returns tt).

Definition emit (op : StoreOp) : M unit :=
  fun w => (mkWorld (fs w) (stdout w) (trace w ++ [op]), Returns tt).

(** [defer f()]: [f] runs when the body returns and when it panics. *)
Definition defer {A} (body : M A) (f : M unit) : M A :=
  fun w =>
    match body w with
    | (w', r) => (fst (f w'), r)
    end.

End World.

Export World.

Notation "'run' x <- c ; k" := (bind c (fun x => k))
  (at level 10, x name, c at level 100, k at level 200).
Notation "c ;; k" := (bind c (fun _ => k))
  (at level 100, k at level 200, right associativity).

Definition nl : string := String (ascii_of_nat 10) EmptyString.

(* ===================================================================== *)
(** ** The imported packages, at the interface the program uses *)
(* ===================================================================== *)

Module OS.

Definition O_RDWR : Z := 2.
Definition O_CREATE : Z := 64.

(** [filepath.Join] on two clean components. *)
Definition Join (dir name : string) : string := dir +:+ "/" +:+ name.

(** The directory part of a path: everything before its last slash. *)
Fixpoint dirname (p : string) : string :=
  match p with
  | EmptyString => EmptyString
  | String c rest =>
      if existsb (Ascii.eqb "/"%char) (list_ascii_of_string rest)
      then String c (dirname rest)
      else EmptyString
  end.

(** [os.Stat] followed by [os.IsNotExist]. *)
Definition notExist (p : string) : M bool :=
  fun w => (w, Returns (match fs w !! p with None => true | Some _ => false end)).

(** Modelled from the spec: the file system is a collaborator of the
    program.  [os.OpenFile(name, flag, perm)] opens an existing file as it
    is and creates a missing one, empty, when [flag] has [O_CREATE] and its
    directory exists; [perm] is the mode a created file gets. *)
Definition OpenFile (name : string) (flag perm : Z) : M error :=
  fun w =>
    let w1 := mkWorld (fs w) (stdout w) (trace w ++ [OpOpenFile name flag]) in
    match fs w !! name with
    | Some (File _) => (w1, Returns None)
    | Some Dir => (w1, Returns (Some "is a directory"))
    | None =>
        if negb (Z.land flag O_CREATE =? 0) then
          match fs w !! dirname name with
          | Some Dir =>
              (mkWorld (<[name := File []]> (fs w)) (stdout w) (trace w1),
               Returns None)
          | _ => (w1, Returns (Some "no such file or directory"))
          end
        else (w1, Returns (Some "no such file or directory"))
    end.

End OS.

Module Engine.

(** Modelled from the spec: the ordered index engine (the imported shed
    package) "exposes ordered iteration, point lookup by key, and count".
    For one index it holds the entries in ascending key order, each as the
    pair of slices the engine hands to the decoders, and it may report
    failures: the iterator failing after it has yielded [n] entries, a
    failing point lookup, a failing count. *)
Record IndexData : Type := mkIndexData {
  entries : list (slice * slice);
  iterFault : option (nat * string);
  hasFault : bytes -> error;
  countFault : option (nat * string)
}.

(** [shed.Index]: a named index bound to its codec. *)
Record ShedIndex : Type := mkShedIndex {
  name : string;
  funcs : IndexFuncs;
  data : IndexData
}.

(** [Index.itemFromIterator]: decode the key, decode the value, merge; a
    decoder's error comes back wrapped, with the zero item. *)
Definition itemFromIterator (f : IndexFuncs) (kv : slice * slice)
  : outcome (Item * error) :=
  do k <- DecodeKey f (fst kv);
  match k with
  | (_, Some e) => Returns (zeroItem, Some ("decode key: " +:+ e))
  | (keyItem, None) =>
      do v <- DecodeValue f keyItem (snd kv);
      match v with
      | (_, Some e) => Returns (zeroItem, Some ("decode value: " +:+ e))
      | (valueItem, None) => Returns (Merge keyItem valueItem, None)
      end
  end.

(** The loop of [Index.Iterate]: decode, call [fn], stop on its request or
    on an error; [final] is the iterator's own error once it is exhausted.
    [S] is the state the callback closes over. *)
Fixpoint iterLoop {S : Type} (f : IndexFuncs)
    (fn : Item -> S -> M (S * (bool * error)))
    (kvs : list (slice * slice)) (final : error) (s : S) : M (S * error) :=
  match kvs with
  | [] => ret (s, final)
  | kv :: rest =>
      run ie <- lift (itemFromIterator f kv);
      match ie with
      | (_, Some e) => ret (s, Some ("get item from iterator: " +:+ e))
      | (item, None) =>
          run r <- fn item s;
          match r with
          | (s', (_, Some e)) =>
              ret (s', Some ("index iterator function: " +:+ e))
          | (s', (true, None)) => ret (s', None)
          | (s', (false, None)) => iterLoop f fn rest final s'
          end
      end
  end.

(** The entries an iteration reaches, and the error it ends with. *)
Definition reached (d : IndexData) : list (slice * slice) :=
  match iterFault d with
  | None => entries d
  | Some (n, _) => firstn n (entries d)
  end.

Definition iterError (d : IndexData) : error :=
  match iterFault d with
  | None => None
  | Some (_, e) => Some e
  end.

Definition Iterate {S : Type} (idx : ShedIndex)
    (fn : Item -> S -> M (S * (bool * error))) (s : S) : M (S * error) :=
  emit (OpIterate (name idx));;
  iterLoop (funcs idx) fn (reached (data idx)) (iterError (data idx)) s.

(** [Index.Has]: encode the key, then a point lookup. *)
Definition keyPresent (d : IndexData) (key : bytes) : bool :=
  existsb (fun kv => bytes_eqb key (elems (fst kv))) (entries d).

Definition Has (idx : ShedIndex) (keyFields : Item) : M (bool * error) :=
  run k <- lift (EncodeKey (funcs idx) keyFields);
  match k with
  | (_, Some e) => ret (false, Some ("encode key: " +:+ e))
  | (key, None) =>
      emit (OpHas (name idx) key);;
      match hasFault (data idx) key with
      | Some e => ret (false, Some e)
      | None => ret (keyPresent (data idx) key, None)
      end
  end.

(** [Index.Count]: the number of entries counted, and the iterator's error. *)
Definition Count (idx : ShedIndex) : M (Z * error) :=
  emit (OpCount (name idx));;
  match countFault (data idx) with
  | None => ret (Z.of_nat (length (entries (data idx))), None)
  | Some (n, e) =>
      ret (Z.of_nat (Nat.min n (length (entries (data idx)))), Some e)
  end.

End Engine.

Export Engine.

(* ===================================================================== *)
(** ** The program: [dirFS], [checkIndexes] and [main] *)
(* ===================================================================== *)

Module Checker.

Import Schema.

(** [type dirFS struct { basedir string }] and its [Open] method. *)
Record dirFS : Type := mkDirFS { basedir : string }.

Definition dirFS_Open (d : dirFS) (path : string) : M error :=
  OS.OpenFile (OS.Join (basedir d) path) (Z.lor OS.O_RDWR OS.O_CREATE)
              420 (* 0644 *).

(** Modelled from the spec: the blob store's
    [Open(fileSystemHandle, shardCount, maxRecordSize)], sharky.New of the
    imported package.  It asks the handle it is given for the data file and
    the free-slot file of every shard, [shard_%03d] and [free_%03d];
    [after] is the error, if any, of loading them once they are open. *)
Definition pad3 (i : nat) : string :=
  let d := fmt_d (Z.of_nat i) in
  if (i <? 10)%nat then "00" +:+ d else if (i <? 100)%nat then "0" +:+ d else d.

Definition shardNames (shardCnt : nat) : list string :=
  flat_map (fun i => ["shard_" +:+ pad3 i; "free_" +:+ pad3 i]) (seq 0 shardCnt).

Fixpoint openAll (open : string -> M error) (names : list string) : M error :=
  match names with
  | [] => ret None
  | n :: rest =>
      run e <- open n;
      match e with
      | Some _ => ret e
      | None => openAll open rest
      end
  end.

Definition sharky_New (base : dirFS) (shardCnt : nat) (after : error) : M error :=
  run e <- openAll (dirFS_Open base) (shardNames shardCnt);
  match e with
  | Some _ => ret e
  | None => ret after
  end.

(** What the imported packages answer on one run of the program.  The two
    calls on the blob store index into the slice and the shard table they
    are handed, so they answer like any Go call: with their results, or by
    stopping the program. *)
Record Env : Type := mkEnv {
  path : string;                         (* the -path flag *)
  DBSchemaCurrent : string;              (* localstore.DBSchemaCurrent *)
  NewDB_err : error;                     (* shed.NewDB *)
  sharky_New_err : error;                (* sharky.New, once its files are open *)
  NewStringField_err : error;            (* sh.NewStringField("schema-name") *)
  schemaName_Get : string * error;
  gcSize_New_err : error;                (* sh.NewUint64Field("gc-size") *)
  reserveSize_New_err : error;           (* sh.NewUint64Field("reserve-size") *)
  gcSize_Get : Z * error;                (* a uint64 and an error *)
  reserveSize_Get : Z * error;
  NewIndex : string -> IndexData * error;
  LocationFromBinary : bytes -> outcome (SharkyLocation * error);
                                         (* sharky.LocationFromBinary *)
  sharky_Read : SharkyLocation -> bytes -> outcome (bytes * error);
                                         (* sharkyStore.Read *)
  cac_Valid : Chunk -> bool;
  soc_Valid : Chunk -> bool
}.

(** The eight indexes [main] has opened when the audit starts. *)
Record Indexes : Type := mkIndexes {
  retrievalDataIndex : ShedIndex;
  retrievalAccessIndex : ShedIndex;
  pullIndex : ShedIndex;
  pushIndex : ShedIndex;
  gcIndex : ShedIndex;
  pinIndex : ShedIndex;
  postageChunksIndex : ShedIndex;
  postageIndexIndex : ShedIndex
}.

Definition is_err (e : error) : bool :=
  match e with Some _ => true | None => false end.

(** [swarm.NewAddress(b).String()] *)
Definition addrString (b : bytes) : string := hex b.

(** The message of [checkIndexes]' callback. *)
Definition missingMsg (srcStr dstStr : string) (item : Item) : string :=
  "item in " +:+ srcStr +:+ " and not in " +:+ dstStr +:+ " "
    +:+ addrString (Address item).

Definition criticalMsg (srcStr : string) : string :=
  "CRITICAL: failed checking " +:+ srcStr +:+ " index".

(** The closure passed to [srcIdx.Iterate]; it closes over [msgs]. *)
Definition checkItem (dstIdx : ShedIndex) (srcStr dstStr : string)
    (item : Item) (msgs : list string) : M (list string * (bool * error)) :=
  run h <- Has dstIdx item;
  let '(exists_, err) := h in
  if is_err err || negb exists_
  then ret (msgs ++ [missingMsg srcStr dstStr item], (false, None))
  else ret (msgs, (false, None)).

Definition checkIndexes (srcIdx dstIdx : ShedIndex) (srcStr dstStr : string)
  : M (list string) :=
  run r <- Iterate srcIdx (checkItem dstIdx srcStr dstStr) [];
  let '(msgs, err) := r in
  if is_err err then ret (msgs ++ [criticalMsg srcStr]) else ret msgs.

(** main.go lines 330-336: the seven calls, appended in order. *)
Definition referentialChecks (ix : Indexes) (inconsistencies : list string)
  : M (list string) :=
  let dst := retrievalDataIndex ix in
  run m <- checkIndexes (retrievalAccessIndex ix) dst "retrievalAccessIdx" "retrievalDataIndex";
  let inconsistencies := inconsistencies ++ m in
  run m <- checkIndexes (pullIndex ix) dst "pullIdx" "retrievalDataIndex";
  let inconsistencies := inconsistencies ++ m in
  run m <- checkIndexes (pushIndex ix) dst "pushIdx" "retrievalDataIndex";
  let inconsistencies := inconsistencies ++ m in
  run m <- checkIndexes (gcIndex ix) dst "gcIdx" "retrievalDataIndex";
  let inconsistencies := inconsistencies ++ m in
  run m <- checkIndexes (pinIndex ix) dst "pinIdx" "retrievalDataIndex";
  let inconsistencies := inconsistencies ++ m in
  run m <- checkIndexes (postageChunksIndex ix) dst "postageChunksIdx" "retrievalDataIndex";
  let inconsistencies := inconsistencies ++ m in
  run m <- checkIndexes (postageIndexIndex ix) dst "postageIndexIdx" "retrievalDataIndex";
  let inconsistencies := inconsistencies ++ m in
  ret inconsistencies.

(** main.go lines 338-345.  The three errors are bound to [_]. *)
Definition counterMsg (sum chunkCnt : Z) : string :=
  "gcSize+reserveSize(" +:+ fmt_d sum +:+ ") > chunkCount(" +:+ fmt_d chunkCnt
    +:+ ")".

Definition counterCompare (gcCnt rsvCnt chunkCnt : Z)
    (inconsistencies : list string) : list string :=
  if int (uint64 (gcCnt + rsvCnt)) >? chunkCnt
  then inconsistencies ++ [counterMsg (uint64 (gcCnt + rsvCnt)) chunkCnt]
  else inconsistencies.

Definition counterBound (env : Env) (ix : Indexes)
    (inconsistencies : list string) : M (list string) :=
  emit (OpFieldGet "gc-size");;
  let '(gcCnt, _) := gcSize_Get env in
  emit (OpFieldGet "reserve-size");;
  let '(rsvCnt, _) := reserveSize_Get env in
  run c <- Count (retrievalDataIndex ix);
  let '(chunkCnt, _) := c in
  ret (counterCompare gcCnt rsvCnt chunkCnt inconsistencies).

(** main.go lines 347-364: the closure passed to
    [retrievalDataIndex.Iterate]; it closes over both lists. *)
Definition invalidLocationMsg (item : Item) (err : error) : string :=
  "invalid sharky location for item " +:+ addrString (Address item)
    +:+ " err: " +:+ fmt_err err.

Definition cannotReadMsg (err : error) : string :=
  "cannot read location from sharky " +:+ fmt_err err.

Definition corruptionMsg (ch : Chunk) : string :=
  "address " +:+ addrString (chunk_Address ch).

Definition scanItem (env : Env) (item : Item)
    (st : list string * list string)
  : M ((list string * list string) * (bool * error)) :=
  let '(inconsistencies, corruptions) := st in
  run r <- lift (LocationFromBinary env (Location item));
  let '(l, err) := r in
  if is_err err
  then ret ((inconsistencies ++ [invalidLocationMsg item err], corruptions),
            (false, None))
  else
    let data := make (Z.to_nat (Length l)) in
    emit (OpBlobRead l);;
    run r <- lift (sharky_Read env l data);
    let '(data, err) := r in
    if is_err err
    then ret ((inconsistencies ++ [cannotReadMsg err], corruptions),
              (false, None))
    else
      let ch := NewChunk (Address item) data in
      if negb (cac_Valid env ch) && negb (soc_Valid env ch)
      then ret ((inconsistencies, corruptions ++ [corruptionMsg ch]),
                (false, None))
      else ret ((inconsistencies, corruptions), (false, None)).

(** The error [Iterate] returns is assigned to [err] and not read again. *)
Definition contentScan (env : Env) (ix : Indexes)
    (inconsistencies corruptions : list string)
  : M (list string * list string) :=
  run r <- Iterate (retrievalDataIndex ix) (scanItem env)
                   (inconsistencies, corruptions);
  let '(st, err) := r in
  ret st.

(** [for _, v := range l { fmt.Printf(prefix + "%s\n", v) }] *)
Fixpoint printEach (prefix : string) (l : list string) : M unit :=
  match l with
  | [] => ret tt
  | v :: rest => Printf (prefix +:+ v +:+ nl);; printEach prefix rest
  end.

(** main.go lines 366-382. *)
Definition report (inconsistencies corruptions : list string) : M unit :=
  Printf "Check complete";;
  (if (0 <? length inconsistencies)%nat
   then Printf ("Found " +:+ fmt_d (Z.of_nat (length inconsistencies))
                  +:+ " inconsistencies in indexes" +:+ nl);;
        printEach "INCONSISTENCY: " inconsistencies
   else ret tt);;
  (if (0 <? length corruptions)%nat
   then Printf ("Found " +:+ fmt_d (Z.of_nat (length corruptions))
                  +:+ " data corruptions" +:+ nl);;
        printEach "DATA CORRUPTION: " corruptions
   else ret tt);;
  if (length corruptions =? 0)%nat && (length inconsistencies =? 0)%nat
  then Printf ("No inconsistencies or corruptions found" +:+ nl)
  else ret tt.

(** main.go lines 326-382: everything after the indexes are open. *)
Definition audit (env : Env) (ix : Indexes) : M unit :=
  Printf ("Starting check for localstore at " +:+ path env +:+ "..." +:+ nl);;
  let inconsistencies := [] in
  let corruptions := [] in
  run inconsistencies <- referentialChecks ix inconsistencies;
  run inconsistencies <- counterBound env ix inconsistencies;
  run st <- contentScan env ix inconsistencies corruptions;
  let '(inconsistencies, corruptions) := st in
  report inconsistencies corruptions.

(** [sh.NewIndex(name, funcs)] followed by the error check after it. *)
Definition withIndex (env : Env) (name : string) (f : IndexFuncs)
    (onErr : error -> string) (k : ShedIndex -> M unit) : M unit :=
  emit (OpNewIndex name);;
  let '(d, err) := NewIndex env name in
  if is_err err then Printf (onErr err) else k (mkShedIndex name f d).

(** [fmt.Printf("... %v\n")] called without an operand. *)
Definition missingOperand (what : string) : string :=
  what +:+ " %!v(MISSING)" +:+ nl.

Definition indexFailed (err : error) : string :=
  missingOperand "failed initializing index".

(** main.go lines 47-382, run after [shed.NewDB] has succeeded. *)
Definition opened (env : Env) : M unit :=
  let sharkyBasePath := OS.Join (path env) "sharky" in
  run missing <- OS.notExist sharkyBasePath;
  if missing then Printf "sharky directory missing" else
  let sharkyBase := mkDirFS sharkyBasePath in
  run err <- sharky_New sharkyBase 32 (sharky_New_err env);
  if is_err err then Printf (missingOperand "failed initializing sharky") else
  emit (OpNewField "schema-name");;
  if is_err (NewStringField_err env)
  then Printf (missingOperand "failed initializing sharky") else
  emit (OpFieldGet "schema-name");;
  let '(schemaNameStr, err) := schemaName_Get env in
  if is_err err then Printf (missingOperand "failed reading schema") else
  if negb (String.eqb schemaNameStr (DBSchemaCurrent env))
  then Printf ("incorrect schema, needs " +:+ DBSchemaCurrent env +:+ nl) else
  emit (OpNewField "gc-size");;
  if is_err (gcSize_New_err env)
  then Printf (missingOperand "failed reading gc-size") else
  emit (OpNewField "reserve-size");;
  if is_err (reserveSize_New_err env)
  then Printf (missingOperand "failed reading reserveSize") else
  withIndex env "Address->StoreTimestamp|BinID|BatchID|BatchIndex|Sig|Location"
    retrievalDataFuncs indexFailed (fun retrievalData =>
  withIndex env "Address->AccessTimestamp"
    retrievalAccessFuncs indexFailed (fun retrievalAccess =>
  withIndex env "PO|BinID->Hash" pullFuncs indexFailed (fun pull =>
  withIndex env "StoreTimestamp|Hash->Tags" pushFuncs indexFailed (fun push =>
  withIndex env "AccessTimestamp|BinID|Hash->BatchID|BatchIndex"
    gcFuncs indexFailed (fun gc =>
  withIndex env "Hash->PinCounter" pinFuncs indexFailed (fun pin =>
  withIndex env "BatchID|PO|Hash->nil"
    postageChunksFuncs indexFailed (fun postageChunks =>
  withIndex env "BatchID|BatchIndex->Hash|Timestamp" postageIndexFuncs
    (fun err => "failed initializing index " +:+ fmt_err err +:+ nl)
    (fun postageIndex =>
  audit env (mkIndexes retrievalData retrievalAccess pull push gc pin
                       postageChunks postageIndex))))))))).

Definition main (env : Env) : M unit :=
  run missing <- OS.notExist (path env);
  if missing
  then Printf ("path should be full path to localstore directory" +:+ nl)
  else
    emit (OpNewDB (path env));;
    if is_err (NewDB_err env)
    then Printf ("failed initializing shed " +:+ fmt_err (NewDB_err env) +:+ nl)
    else defer (opened env) (emit OpClose).

(** Running the program from a file system with nothing printed yet. *)
Definition start (files : gmap string node) : world := mkWorld files [] [].

End Checker.

(* ===================================================================== *)
(** ** Vocabulary for the statements below *)
(* ===================================================================== *)

Module Registry.

Import Schema Checker.

(** The eight indexes [main] declares. *)
Inductive IndexId : Type :=
| RetrievalData | RetrievalAccess | Pull | Push | Gc | Pin
| PostageChunks | PostageIndex.

Definition funcsOf (ix : IndexId) : IndexFuncs :=
  match ix with
  | RetrievalData => retrievalDataFuncs
  | RetrievalAccess => retrievalAccessFuncs
  | Pull => pullFuncs
  | Push => pushFuncs
  | Gc => gcFuncs
  | Pin => pinFuncs
  | PostageChunks => postageChunksFuncs
  | PostageIndex => postageIndexFuncs
  end.

(** The length of the fixed part of each index's value: what its
    [EncodeValue] allocates, before the trailing location in the primary
    index. *)
Definition valueHeader (ix : IndexId) : nat :=
  match ix with
  | RetrievalData => headerSize
  | RetrievalAccess => 8
  | Pull => 64
  | Push => 4
  | Gc => 32 + Postage.IndexSize
  | Pin => 8
  | PostageChunks => 0
  | PostageIndex => 40
  end%nat.

(** The fields each [DecodeKey] assigns, read off a record [r]. *)
Definition keyFields (ix : IndexId) (r : Item) : Item :=
  match ix with
  | RetrievalData | RetrievalAccess | Pin => set_Address (Address r) zeroItem
  | Pull => set_BinID (BinID r) zeroItem
  | Push =>
      set_StoreTimestamp (StoreTimestamp r) (set_Address (Address r) zeroItem)
  | Gc =>
      set_Address (Address r)
        (set_BinID (BinID r)
           (set_AccessTimestamp (AccessTimestamp r) zeroItem))
  | PostageChunks => set_Address (Address r) (set_BatchID (BatchID r) zeroItem)
  | PostageIndex => set_Index (Index r) (set_BatchID (BatchID r) zeroItem)
  end.





(** The world after some more calls on the store have been recorded. *)
Definition logged (w : world) (ops : list StoreOp) : world :=
  mkWorld (fs w) (stdout w) (trace w ++ ops).

Definition printed (w : world) (lines : list string) : world :=
  mkWorld (fs w) (stdout w ++ lines) (trace w).

(** An entry decodes to [item] without error or panic. *)
Definition decodes (f : IndexFuncs) (kv : slice * slice) (item : Item) : Prop :=
  itemFromIterator f kv = Returns (item, None).

(** The test [checkIndexes] makes on the answer of [Has] against the primary
    index, whose key is the address: the lookup failed or found nothing. *)
Definition unreferenced (dst : ShedIndex) (item : Item) : bool :=
  is_err (hasFault (data dst) (Address item))
  || negb (keyPresent (data dst) (Address item)).

(** What the content scan finds out about one record. *)
Inductive Finding : Type :=
| BadLocation (err : error)
| Unreadable (err : error)
| Corrupt
| Sound
| Panicking (msg : string).

Definition examine (env : Env) (item : Item) : Finding :=
  match LocationFromBinary env (Location item) with
  | Panics m => Panicking m
  | Returns (_, Some e) => BadLocation (Some e)
  | Returns (l, None) =>
      match sharky_Read env l (make (Z.to_nat (Length l))) with
      | Panics m => Panicking m
      | Returns (_, Some e) => Unreadable (Some e)
      | Returns (data, None) =>
          let ch := NewChunk (Address item) data in
          if cac_Valid env ch || soc_Valid env ch then Sound else Corrupt
      end
  end.

(** Neither call on the blob store stops the program on this record: the
    location is decoded, with or without an error, and when it is decoded
    without one the read returns, with or without an error. *)
Definition answers (env : Env) (item : Item) : Prop :=
  exists l err,
    LocationFromBinary env (Location item) = Returns (l, err)
    /\ (err = None ->
        exists data err',
          sharky_Read env l (make (Z.to_nat (Length l)))
          = Returns (data, err')).

(** One of the two calls stops the program on this record, with [m]. *)
Definition crashes (env : Env) (item : Item) (m : string) : Prop :=
  LocationFromBinary env (Location item) = Panics m
  \/ exists l,
       LocationFromBinary env (Location item) = Returns (l, None)
       /\ sharky_Read env l (make (Z.to_nat (Length l))) = Panics m.

Definition isCorrupt (env : Env) (item : Item) : bool :=
  match examine env item with Corrupt => true | _ => false end.

(** The seven secondary indexes with the names [main] reports them under. *)
Definition secondaries (ix : Indexes) : list (ShedIndex * string) :=
  [ (retrievalAccessIndex ix, "retrievalAccessIdx");
    (pullIndex ix, "pullIdx");
    (pushIndex ix, "pushIdx");
    (gcIndex ix, "gcIdx");
    (pinIndex ix, "pinIdx");
    (postageChunksIndex ix, "postageChunksIdx");
    (postageIndexIndex ix, "postageIndexIdx") ].

(** What one secondary index contributes to the referential check, given
    the records its iteration reaches: the calls made on the store, and the
    messages. *)
Definition checkOps (ix : Indexes) (c : ShedIndex * string * list Item)
  : list StoreOp :=
  let '(src, _, items) := c in
  OpIterate (name src)
    :: map (fun it => OpHas (name (retrievalDataIndex ix)) (Address it)) items.

Definition checkMsgs (ix : Indexes) (c : ShedIndex * string * list Item)
  : list string :=
  let '(src, srcStr, items) := c in
  map (missingMsg srcStr "retrievalDataIndex")
      (List.filter (unreferenced (retrievalDataIndex ix)) items)
  ++ (if is_err (iterError (data src)) then [criticalMsg srcStr] else []).

(** What the content scan does with one record: the blob read it makes and
    the inconsistency it records. *)
Definition scanOps (env : Env) (item : Item) : list StoreOp :=
  match LocationFromBinary env (Location item) with
  | Returns (l, None) => [OpBlobRead l]
  | _ => []
  end.

Definition inconsistencyOf (env : Env) (item : Item) : list string :=
  match examine env item with
  | BadLocation err => [invalidLocationMsg item err]
  | Unreadable err => [cannotReadMsg err]
  | Corrupt | Sound | Panicking _ => []
  end.

Definition corruptionOf (env : Env) (item : Item) : list string :=
  if isCorrupt env item then ["address " +:+ addrString (Address item)] else [].

(** The number [Index.Count] returns, with or without an error. *)
Definition counted (d : IndexData) : Z :=
  match countFault d with
  | None => Z.of_nat (length (entries d))
  | Some (n, _) => Z.of_nat (Nat.min n (length (entries d)))
  end.

(** The lines the report prints for one category of findings. *)
Definition category (what prefix : string) (findings : list string)
  : list string :=
  match findings with
  | [] => []
  | _ :: _ =>
      ("Found " +:+ fmt_d (Z.of_nat (length findings)) +:+ what +:+ nl)
        :: map (fun v => prefix +:+ v +:+ nl) findings
  end.

(** Everything the report prints. *)
Definition reportLines (inconsistencies corruptions : list string)
  : list string :=
  "Check complete"
    :: category " inconsistencies in indexes" "INCONSISTENCY: " inconsistencies
    ++ category " data corruptions" "DATA CORRUPTION: " corruptions
    ++ match inconsistencies, corruptions with
       | [], [] => ["No inconsistencies or corruptions found" +:+ nl]
       | _, _ => []
       end.

(** [w'] differs from [w] only by files created empty at the paths
    [allowed], and by calls on the store that only read or open. *)
Definition preserves (allowed : string -> Prop) (w w' : world) : Prop :=
  (forall p n, fs w !! p = Some n -> fs w' !! p = Some n)
  /\ (forall p n, fs w !! p = None -> fs w' !! p = Some n ->
                  n = File [] /\ allowed p)
  /\ (exists ops, trace w' = trace w ++ ops
                  /\ Forall (fun op => is_read op || is_lifecycle op = true) ops).

Definition quiet {A} (allowed : string -> Prop) (c : M A) : Prop :=
  forall w, preserves allowed w (fst (c w)).

(** The files sharky.New may ask [main]'s handle for. *)
Definition shardPath (env : Env) (p : string) : Prop :=
  exists name, In name (shardNames 32)
               /\ p = OS.Join (OS.Join (path env) "sharky") name.

(** A call that is no file open, or the open of a shard file with the flags
    of [dirFS.Open]. *)
Definition opensShard (env : Env) (op : StoreOp) : Prop :=
  match op with
  | OpOpenFile name flag =>
      flag = Z.lor OS.O_RDWR OS.O_CREATE /\ shardPath env name
  | _ => True
  end.

(** The indexes [main] holds once all eight have been opened. *)
Definition indexesOf (env : Env) : Indexes :=
  let open n f := mkShedIndex n f (fst (NewIndex env n)) in
  mkIndexes
    (open "Address->StoreTimestamp|BinID|BatchID|BatchIndex|Sig|Location"
          retrievalDataFuncs)
    (open "Address->AccessTimestamp" retrievalAccessFuncs)
    (open "PO|BinID->Hash" pullFuncs)
    (open "StoreTimestamp|Hash->Tags" pushFuncs)
    (open "AccessTimestamp|BinID|Hash->BatchID|BatchIndex" gcFuncs)
    (open "Hash->PinCounter" pinFuncs)
    (open "BatchID|PO|Hash->nil" postageChunksFuncs)
    (open "BatchID|BatchIndex->Hash|Timestamp" postageIndexFuncs).

End Registry.

Import Schema Checker Registry.

(* ===================================================================== *)
(** ** A small store to run the program on *)
(* ===================================================================== *)

Module Demo.

Definition addrA : bytes := repeat x11 32.
Definition addrB : bytes := x40 :: repeat x00 31.

Definition noData : IndexData := mkIndexData [] None (fun _ => None) None.

(** A localstore directory with a sharky directory and no shard files. *)
Definition files : gmap string node :=
  <["/ls" := Dir]> (<["/ls/sharky" := Dir]> ∅).

(** [sharky.LocationFromBinary] on a slice without spare capacity: the
    shard in one byte, the slot in four and the length in two, little
    endian.  It reports no error, and stops the program on fewer than seven
    bytes. *)
Definition sevenBytes (b : bytes) : outcome (SharkyLocation * error) :=
  match b with
  | s :: s0 :: s1 :: s2 :: s3 :: l0 :: l1 :: _ =>
      Returns (mkLocation (Z_of_byte s)
                          (be_value [s3; s2; s1; s0])
                          (be_value [l1; l0]), None)
  | [] => Panics "index out of range [0]"
  | [_] | [_; _] | [_; _; _] | [_; _; _; _] =>
      Panics "slice bounds out of range"
  | _ => Panics "index out of range [1]"
  end.

(** An environment in which every call succeeds, with [ixdata] behind the
    indexes, [read] as the blob store and both validity schemes answering
    [valid]. *)
Definition envWith (ixdata : string -> IndexData) (gc rsv : Z * error)
    (read : SharkyLocation -> bytes -> outcome (bytes * error))
    (valid : bool) : Env :=
  mkEnv "/ls" "v1" None None None ("v1", None) None None gc rsv
        (fun n => (ixdata n, None)) sevenBytes read
        (fun _ => valid) (fun _ => valid).

(** [Store.Read] on a store of 32 shards: it indexes the shard table with
    the shard of the location, and stops the program on a shard there is
    not. *)
Definition readOk (l : SharkyLocation) (buf : bytes)
  : outcome (bytes * error) :=
  if Shard l <? 32 then Returns (buf, None)
  else Panics "index out of range [32]".
Definition readFails (l : SharkyLocation) (buf : bytes)
  : outcome (bytes * error) :=
  if Shard l <? 32 then Returns (buf, Some "EOF")
  else Panics "index out of range [32]".

Definition only (name : string) (d : IndexData) (n : string) : IndexData :=
  if String.eqb n name then d else noData.

Definition primaryName : string :=
  "Address->StoreTimestamp|BinID|BatchID|BatchIndex|Sig|Location".

(** An empty store. *)
Definition emptyEnv : Env :=
  envWith (fun _ => noData) (0, None) (0, None) readOk true.

(** [addrA] is pinned once and missing from the primary index. *)
Definition pinEntry : slice * slice := (exact addrA, exact (be_bytes 8 1)).
Definition pinItem : Item := set_PinCounter 1 (set_Address addrA zeroItem).
Definition pinnedEnv : Env :=
  envWith (only "Hash->PinCounter" (mkIndexData [pinEntry] None (fun _ => None) None))
          (0, None) (0, None) readOk true.

(** A primary index with two records whose values are a zero header
    followed by a seven-byte location. *)
Definition primaryEntry (a : bytes) : slice * slice :=
  (exact a, exact (make (headerSize + 7))).
Definition primaryItem (a : bytes) : Item :=
  mkItem a (make 7) 0 0 0 0 0 (make 32) (make 8) (make 8) (make 65).
Definition twoRecords : IndexData :=
  mkIndexData [primaryEntry addrA; primaryEntry addrB] None (fun _ => None) None.

Definition unreadableEnv : Env :=
  envWith (only primaryName twoRecords) (0, None) (0, None) readFails true.
Definition corruptEnv : Env :=
  envWith (only primaryName twoRecords) (0, None) (0, None) readOk false.

(** The iterator of one index fails before its first entry. *)
Definition broken : IndexData :=
  mkIndexData [] (Some (0%nat, "leveldb: closed")) (fun _ => None) None.
Definition brokenPrimaryEnv : Env :=
  envWith (only primaryName broken) (0, None) (0, None) readOk true.
Definition brokenPinEnv : Env :=
  envWith (only "Hash->PinCounter" broken) (0, None) (0, None) readOk true.

(** Ten primary records and counters that are read with errors or hold a
    value with the top bit set. *)
Definition tenRecords : IndexData :=
  mkIndexData (map (fun i => primaryEntry (be_bytes 32 (Z.of_nat i))) (seq 0 10))
              None (fun _ => None) None.
Definition countersEnv (gc rsv : Z * error) : Env :=
  envWith (only primaryName tenRecords) gc rsv readOk true.

(** The same ten records behind a count that fails after two. *)
Definition miscounted : IndexData :=
  mkIndexData (entries tenRecords) None (fun _ => None)
              (Some (2%nat, "leveldb: closed")).
Definition miscountedEnv : Env :=
  envWith (only primaryName miscounted) (3, Some "leveldb: closed")
          (4, Some "leveldb: closed") readOk true.

(** The first line every audit of this store prints. *)
Definition banner : string := "Starting check for localstore at /ls..." +:+ nl.


End Demo.

(* ===================================================================== *)
(** ** Vocabulary for the codec and start-up statements *)
(* ===================================================================== *)

Module Layout.

Import Schema Checker Registry.

(** The fields each [DecodeValue] assigns, read off a record [r]. *)
Definition valueFields (ix : IndexId) (r : Item) : Item :=
  match ix with
  | RetrievalData =>
      mkItem [] (Location r) 0 (StoreTimestamp r) (BinID r) 0 0
             (BatchID r) (Index r) (Timestamp r) (Sig r)
  | RetrievalAccess => set_AccessTimestamp (AccessTimestamp r) zeroItem
  | Pull => set_BatchID (BatchID r) (set_Address (Address r) zeroItem)
  | Push => set_Tag (Tag r) zeroItem
  | Gc => set_Index (Index r) (set_BatchID (BatchID r) zeroItem)
  | Pin => set_PinCounter (PinCounter r) zeroItem
  | PostageChunks => zeroItem
  | PostageIndex => set_Timestamp (Timestamp r) (set_Address (Address r) zeroItem)
  end.

(** The fields of [r] that an entry of the index holds, key and value
    together. *)
Definition entryFields (ix : IndexId) (r : Item) : Item :=
  match ix with
  | RetrievalData =>
      mkItem (Address r) (Location r) 0 (StoreTimestamp r) (BinID r) 0 0
             (BatchID r) (Index r) (Timestamp r) (Sig r)
  | RetrievalAccess =>
      mkItem (Address r) [] (AccessTimestamp r) 0 0 0 0 [] [] [] []
  | Pull => mkItem (Address r) [] 0 0 (BinID r) 0 0 (BatchID r) [] [] []
  | Push => mkItem (Address r) [] 0 (StoreTimestamp r) 0 0 (Tag r) [] [] [] []
  | Gc =>
      mkItem (Address r) [] (AccessTimestamp r) 0 (BinID r) 0 0
             (BatchID r) (Index r) [] []
  | Pin => mkItem (Address r) [] 0 0 0 (PinCounter r) 0 [] [] [] []
  | PostageChunks => mkItem (Address r) [] 0 0 0 0 0 (BatchID r) [] [] []
  | PostageIndex =>
      mkItem (Address r) [] 0 0 0 0 0 (BatchID r) (Index r) (Timestamp r) []
  end.

(** The number of key bytes each [DecodeKey] slices or reads; [None] for the
    three indexes whose key is the address as it is. *)
Definition keyLength (ix : IndexId) : option nat :=
  match ix with
  | RetrievalData | RetrievalAccess | Pin => None
  | Pull => Some 9%nat
  | Push => Some 8%nat
  | Gc => Some 16%nat
  | PostageChunks => Some 65%nat
  | PostageIndex => Some 40%nat
  end.

(** The byte-wise order of two keys, Go's [bytes.Compare a b < 0].  [main]
    does not call it; it is the order the key encodings are measured
    against, the one in which an ordered key-value engine keeps its keys. *)
Fixpoint bytes_ltb (a b : bytes) : bool :=
  match a, b with
  | _, [] => false
  | [], _ :: _ => true
  | x :: a', y :: b' =>
      (Z_of_byte x <? Z_of_byte y)
      || ((Z_of_byte x =? Z_of_byte y) && bytes_ltb a' b')
  end.

(** Every call a run of [c] adds to the trace satisfies [P]. *)
Definition traces {A} (P : StoreOp -> Prop) (c : M A) : Prop :=
  forall w, exists ops, trace (fst (c w)) = trace w ++ ops /\ Forall P ops.

(** Any call but the engine's [Close]. *)
Definition notClose (op : StoreOp) : Prop := op <> OpClose.

(** The calls [main] makes between opening the engine and the banner, once
    the shard files are open. *)
Definition startupOps : list StoreOp :=
  [ OpNewField "schema-name"; OpFieldGet "schema-name";
    OpNewField "gc-size"; OpNewField "reserve-size";
    OpNewIndex "Address->StoreTimestamp|BinID|BatchID|BatchIndex|Sig|Location";
    OpNewIndex "Address->AccessTimestamp";
    OpNewIndex "PO|BinID->Hash";
    OpNewIndex "StoreTimestamp|Hash->Tags";
    OpNewIndex "AccessTimestamp|BinID|Hash->BatchID|BatchIndex";
    OpNewIndex "Hash->PinCounter";
    OpNewIndex "BatchID|PO|Hash->nil";
    OpNewIndex "BatchID|BatchIndex->Hash|Timestamp" ].

(** The findings of a whole audit, from the records the iterations reach:
    the referential messages, then the counter message, then what the scan
    records. *)
Definition auditInconsistencies (env : Env) (ix : Indexes)
    (itemss : list (list Item)) (items : list Item) : list string :=
  counterCompare (fst (gcSize_Get env)) (fst (reserveSize_Get env))
    (counted (data (retrievalDataIndex ix)))
    (flat_map (checkMsgs ix) (combine (secondaries ix) itemss))
  ++ flat_map (inconsistencyOf env) items.

Definition isSound (env : Env) (item : Item) : bool :=
  match examine env item with Sound => true | _ => false end.

End Layout.

Import Layout.

(* ===================================================================== *)
(** ** More stores to run the program on *)
(* ===================================================================== *)

Module Samples.

Import Demo.

(** A record with every field set, and neighbours of it in key order. *)
Definition fullRecord : Item :=
  mkItem addrA [x01; x02; x03; x04; x05; x06; x07] (-1) 1 7 3 9
         (repeat x22 32) (be_bytes 8 5) (be_bytes 8 6) (repeat x33 65).
Definition nextRecord : Item := set_BinID 8 fullRecord.
Definition early : Item := set_AccessTimestamp 10 fullRecord.
Definition late : Item := set_AccessTimestamp 11 fullRecord.

(** A record whose address has three bytes only. *)
Definition shortAddress : Item := set_Address [x0a; x0b; x0c] fullRecord.

Definition pinOf (addrs : list bytes) : IndexData :=
  mkIndexData (map (fun a => (exact a, exact (be_bytes 8 1))) addrs)
              None (fun _ => None) None.
Definition pinned (a : bytes) : Item := set_PinCounter 1 (set_Address a zeroItem).

Definition onePrimary : IndexData :=
  mkIndexData [primaryEntry addrA] None (fun _ => None) None.

Definition two (n1 : string) (d1 : IndexData) (n2 : string) (d2 : IndexData)
    (n : string) : IndexData :=
  if String.eqb n n1 then d1 else if String.eqb n n2 then d2 else noData.

(** One primary record, pinned once, and counters that fit. *)
Definition consistentEnv : Env :=
  envWith (two primaryName onePrimary "Hash->PinCounter" (pinOf [addrA]))
          (0, None) (1, None) readOk true.

(** The same with a second pin whose address is not in the primary index. *)
Definition oneMissingEnv : Env :=
  envWith (two primaryName onePrimary "Hash->PinCounter" (pinOf [addrA; addrB]))
          (0, None) (1, None) readOk true.

(** A pin index whose only value has five bytes. *)
Definition truncatedPinEnv : Env :=
  envWith (only "Hash->PinCounter"
             (mkIndexData [(exact addrA, exact [x01; x02; x03; x04; x05])]
                          None (fun _ => None) None))
          (0, None) (0, None) readOk true.

(** A store written under another schema. *)
Definition wrongSchemaEnv : Env :=
  mkEnv "/ls" "v1" None None None ("v0", None) None None (0, None) (0, None)
        (fun _ => (noData, None)) sevenBytes readOk
        (fun _ => true) (fun _ => true).

(** The world once the engine and the 64 shard files are open. *)
Definition opening : world * outcome error :=
  sharky_New (mkDirFS "/ls/sharky") 32 None (logged (start files) [OpNewDB "/ls"]).
Definition afterOpening : world := fst opening.

End Samples.

(* ===================================================================== *)
(** ** Vocabulary for the start-up checks *)
(* ===================================================================== *)

Module Startup.

Import Schema Checker Registry.

(** The names [main] opens its eight indexes under, in order. *)
Definition indexNames : list string :=
  [ "Address->StoreTimestamp|BinID|BatchID|BatchIndex|Sig|Location";
    "Address->AccessTimestamp";
    "PO|BinID->Hash";
    "StoreTimestamp|Hash->Tags";
    "AccessTimestamp|BinID|Hash->BatchID|BatchIndex";
    "Hash->PinCounter";
    "BatchID|PO|Hash->nil";
    "BatchID|BatchIndex->Hash|Timestamp" ].

(** Every condition [main] tests before the banner holds: the two
    directories exist, the engine, the blob store, the three fields and the
    eight indexes open, and the schema name is read and is the current
    one. *)
Definition startupOk (env : Env) (files : gmap string node) : bool :=
  match files !! path env, files !! OS.Join (path env) "sharky" with
  | Some _, Some _ =>
      negb (is_err (NewDB_err env))
      && match snd (sharky_New (mkDirFS (OS.Join (path env) "sharky")) 32
                      (sharky_New_err env)
                      (logged (start files) [OpNewDB (path env)])) with
         | Returns None => true
         | _ => false
         end
      && negb (is_err (NewStringField_err env))
      && negb (is_err (snd (schemaName_Get env)))
      && String.eqb (fst (schemaName_Get env)) (DBSchemaCurrent env)
      && negb (is_err (gcSize_New_err env))
      && negb (is_err (reserveSize_New_err env))
      && forallb (fun n => negb (is_err (snd (NewIndex env n)))) indexNames
  | _, _ => false
  end.

(** The calls that open something, read the schema name or close the
    engine: those of a run that checks nothing. *)
Definition isSetup (op : StoreOp) : bool :=
  match op with
  | OpNewDB _ | OpNewField _ | OpNewIndex _ | OpOpenFile _ _
  | OpFieldGet _ | OpClose => true
  | _ => false
  end.

End Startup.

Import Startup.

Module FailingStores.

Import Demo.

(** A store whose pin index does not open. *)
Definition pinFailsEnv : Env :=
  mkEnv "/ls" "v1" None None None ("v1", None) None None (0, None) (0, None)
        (fun n => (noData,
                   if String.eqb n "Hash->PinCounter"
                   then Some "leveldb: corrupted" else None))
        sevenBytes readOk (fun _ => true) (fun _ => true).

(** A primary index whose one record has a location of six bytes. *)
Definition shortLocation : slice * slice :=
  (exact addrA, exact (make (headerSize + 6))).
Definition shortLocationItem : Item :=
  mkItem addrA (make 6) 0 0 0 0 0 (make 32) (make 8) (make 8) (make 65).
Definition shortLocationEnv : Env :=
  envWith (only primaryName
             (mkIndexData [shortLocation] None (fun _ => None) None))
          (0, None) (0, None) readOk true.

End FailingStores.

(* ===================================================================== *)
(** ** Facts about bytes, slices and fixed-width integers *)
(* ===================================================================== *)

Section GoFacts.

Lemma Z_of_byte_range (b : byte) : 0 <= Z_of_byte b < 256.
Proof.
  unfold Z_of_byte. pose proof (Byte.to_N_bounded b). lia.
Qed.

Lemma Z_of_byte_of_Z (z : Z) : Z_of_byte (byte_of_Z z) = z mod 256.
Proof.
  unfold Z_of_byte, byte_of_Z.
  assert (Hb : 0 <= z mod 256 < 256) by (apply Z.mod_pos_bound; lia).
  destruct (Byte.of_N (Z.to_N (z mod 256))) as [b|] eqn:E.
  - apply Byte.to_of_N in E. rewrite E. lia.
  - apply Byte.of_N_None_iff in E. lia.
Qed.

Lemma length_be_bytes (n : nat) (v : Z) : length (be_bytes n v) = n.
Proof. induction n as [|n IH]; simpl; congruence. Qed.

Lemma be_value_be_bytes (n : nat) (v : Z) :
  be_value (be_bytes n v) = v mod 2 ^ (8 * Z.of_nat n).
Proof.
  induction n as [|n IH].
  - simpl. now rewrite Z.mod_1_r.
  - cbn [be_bytes be_value]. rewrite length_be_bytes, IH, Z_of_byte_of_Z.
    change 256 with (2 ^ 8).
    apply Z.bits_inj'. intros i Hi.
    rewrite Z.lor_spec, Z.shiftl_spec by lia.
    destruct (Z_lt_le_dec i (8 * Z.of_nat n)) as [Hlo|Hhi].
    + rewrite (Z.testbit_neg_r _ (i - 8 * Z.of_nat n)) by lia.
      rewrite !Z.mod_pow2_bits_low by lia. reflexivity.
    + rewrite (Z.mod_pow2_bits_high v (8 * Z.of_nat n) i) by lia.
      rewrite orb_false_r.
      destruct (Z_lt_le_dec i (8 * Z.of_nat (S n))) as [Hin|Hout].
      * rewrite !Z.mod_pow2_bits_low by lia.
        rewrite Z.shiftr_spec by lia. f_equal. lia.
      * rewrite !Z.mod_pow2_bits_high by lia. reflexivity.
Qed.

Lemma int64_uint64 (x : Z) : - 2 ^ 63 <= x < 2 ^ 63 -> int64 (uint64 x) = x.
Proof.
  intros Hx. unfold int64, uint64. rewrite Z.mod_mod by lia.
  destruct (Z_lt_le_dec x 0) as [Hneg|Hpos].
  - assert (E : x mod 2 ^ 64 = x + 2 ^ 64).
    { symmetry. apply (Z.mod_unique_pos _ _ (-1)); lia. }
    rewrite E. destruct (Z.ltb_spec (x + 2 ^ 64) (2 ^ 63)); lia.
  - rewrite Z.mod_small by lia.
    destruct (Z.ltb_spec x (2 ^ 63)); lia.
Qed.

Lemma length_make (n : nat) : length (make n) = n.
Proof. apply repeat_length. Qed.

Lemma bytes_eqb_eq (a b : bytes) : bytes_eqb a b = true <-> a = b.
Proof.
  revert b. induction a as [|x a IH]; intros [|y b]; simpl;
    try (split; [discriminate | congruence]); try tauto.
  rewrite andb_true_iff, IH. split.
  - intros [Hxy ->]. apply Byte.byte_dec_bl in Hxy. now subst.
  - intros [= -> ->]. split; [now apply Byte.byte_dec_lb | reflexivity].
Qed.

(** Overwriting the middle of a buffer with exactly as many bytes. *)
Lemma copy_at_middle (a b c src : bytes) (off : nat) :
  off = length a -> length src = length b ->
  copy_at (a ++ b ++ c) off src = a ++ src ++ c.
Proof.
  intros -> Hlen. unfold copy_at.
  rewrite !length_app.
  replace (Nat.min (length a + (length b + length c) - length a) (length src))
    with (length src) by lia.
  rewrite firstn_app, firstn_all, Nat.sub_diag, firstn_O, app_nil_r.
  rewrite (firstn_all src).
  rewrite skipn_app, (skipn_all2 a) by lia.
  replace (length a + length src - length a)%nat with (length b) by lia.
  rewrite skipn_app, skipn_all, Nat.sub_diag, skipn_O. reflexivity.
Qed.

Lemma firstn_exact {A} (n : nat) (l : list A) : length l = n -> firstn n l = l.
Proof. intros <-. apply firstn_all. Qed.

(** [s[lo:hi]] on a slice whose visible part is laid out as [a ++ b ++ c]. *)
Lemma reslice_middle (a b c sp : bytes) (lo hi : nat) :
  lo = length a -> (hi = lo + length b)%nat ->
  reslice (Slice (a ++ b ++ c) sp) lo hi = Returns (Slice b (c ++ sp)).
Proof.
  intros -> ->. unfold reslice, cap, backing. simpl elems. simpl spare.
  rewrite !length_app.
  destruct (Nat.leb_spec (length a) (length a + length b)); [|lia].
  destruct (Nat.leb_spec (length a + length b)
              (length a + (length b + length c) + length sp)); [|lia].
  simpl. f_equal. f_equal.
  - rewrite <- !app_assoc.
    rewrite skipn_app, skipn_all, Nat.sub_diag, skipn_O. simpl.
    replace (length a + length b - length a)%nat with (length b) by lia.
    rewrite firstn_app, firstn_all, Nat.sub_diag, firstn_O, app_nil_r.
    reflexivity.
  - rewrite <- !app_assoc.
    rewrite skipn_app, (skipn_all2 a) by lia. simpl.
    replace (length a + length b - length a)%nat with (length b) by lia.
    rewrite skipn_app, skipn_all, Nat.sub_diag, skipn_O. reflexivity.
Qed.

Lemma Uint64_be_bytes (v : Z) (sp : bytes) :
  Uint64 (Slice (be_bytes 8 v) sp) = Returns (v mod 2 ^ 64).
Proof.
  unfold Uint64, len. cbn [elems]. rewrite length_be_bytes.
  change (8 <=? 8)%nat with true. cbv iota.
  rewrite firstn_exact by apply length_be_bytes.
  now rewrite be_value_be_bytes.
Qed.

End GoFacts.

Ltac lens :=
  cbn [elems spare len length]; rewrite ?length_app, ?length_be_bytes, ?length_make;
  cbn [length]; lia.

Section CodecFacts.

Lemma copy_range_middle (a b c src : bytes) (lo hi : nat) :
  lo = length a -> hi = (lo + length b)%nat -> length src = length b ->
  copy_range (a ++ b ++ c) lo hi src = a ++ src ++ c.
Proof.
  intros Hlo -> Hsrc. unfold copy_range.
  replace (lo + length b - lo)%nat with (length src) by lia.
  rewrite firstn_all. now apply copy_at_middle.
Qed.

Lemma PutUint64_at_middle (a b c : bytes) (off : nat) (v : Z) :
  off = length a -> length b = 8%nat ->
  PutUint64_at (a ++ b ++ c) off v = a ++ be_bytes 8 v ++ c.
Proof.
  intros Hoff Hb. unfold PutUint64_at.
  apply copy_range_middle; rewrite ?length_be_bytes; lia.
Qed.

Lemma pull_key_layout (r : Item) :
  pull_EncodeKey r = Returns (x00 :: be_bytes 8 (BinID r), None).
Proof.
  unfold pull_EncodeKey.
  change (make 9) with ([x00] ++ make 8 ++ []).
  rewrite PutUint64_at_middle by (rewrite ?length_make; reflexivity).
  now rewrite app_nil_r.
Qed.

Lemma push_key_layout (r : Item) :
  length (Address r) = 32%nat ->
  push_EncodeKey r =
  Returns (be_bytes 8 (uint64 (StoreTimestamp r)) ++ Address r, None).
Proof.
  intros Ha. unfold push_EncodeKey.
  change (make 40) with ([] ++ make 8 ++ make 32).
  rewrite PutUint64_at_middle by (rewrite ?length_make; reflexivity).
  cbn [app]. rewrite <- (app_nil_r (make 32)).
  rewrite copy_at_middle by lens.
  now rewrite app_nil_r.
Qed.

Lemma gc_key_layout (r : Item) :
  gc_EncodeKey r =
  Returns (be_bytes 8 (uint64 (AccessTimestamp r)) ++ be_bytes 8 (BinID r)
             ++ Address r, None).
Proof.
  unfold gc_EncodeKey.
  change (make 16) with ([] ++ make 8 ++ make 8).
  rewrite PutUint64_at_middle by (rewrite ?length_make; reflexivity).
  cbn [app]. rewrite <- (app_nil_r (make 8)) at 1.
  rewrite PutUint64_at_middle by lens.
  now rewrite app_nil_r, <- app_assoc.
Qed.

Lemma postageChunks_key_layout (r : Item) :
  length (BatchID r) = 32%nat -> length (Address r) = 32%nat ->
  postageChunks_EncodeKey r = Returns (BatchID r ++ x00 :: Address r, None).
Proof.
  intros Hb Ha. unfold postageChunks_EncodeKey.
  change (make 65) with ([] ++ make 32 ++ (x00 :: make 32)).
  rewrite copy_range_middle by lens.
  cbn [app].
  change (BatchID r ++ x00 :: make 32)
    with (BatchID r ++ [x00] ++ make 32).
  rewrite app_assoc. rewrite <- (app_nil_r (make 32)).
  rewrite copy_at_middle by lens.
  now rewrite app_nil_r, <- app_assoc.
Qed.

Lemma postageIndex_key_layout (r : Item) :
  length (BatchID r) = 32%nat -> length (Index r) = 8%nat ->
  postageIndex_EncodeKey r = Returns (BatchID r ++ Index r, None).
Proof.
  intros Hb Hi. unfold postageIndex_EncodeKey.
  change (make 40) with ([] ++ make 32 ++ make 8).
  rewrite copy_range_middle by lens.
  cbn [app]. rewrite <- (app_nil_r (make 8)).
  rewrite copy_range_middle by lens.
  now rewrite app_nil_r.
Qed.

End CodecFacts.

Section KeyRoundTrip.

Variable r : Item.
Variable sp : bytes.
Hypothesis HAddress : length (Address r) = 32%nat.
Hypothesis HBatchID : length (BatchID r) = 32%nat.
Hypothesis HIndex : length (Index r) = 8%nat.
Hypothesis HBinID : 0 <= BinID r < 2 ^ 64.
Hypothesis HStore : - 2 ^ 63 <= StoreTimestamp r < 2 ^ 63.
Hypothesis HAccess : - 2 ^ 63 <= AccessTimestamp r < 2 ^ 63.

Lemma pull_key_decodes :
  pull_DecodeKey (Slice (x00 :: be_bytes 8 (BinID r)) sp)
  = Returns (keyFields Pull r, None).
Proof.
  unfold pull_DecodeKey.
  change (x00 :: be_bytes 8 (BinID r)) with ([x00] ++ be_bytes 8 (BinID r) ++ []).
  rewrite reslice_middle by lens. cbn [obind].
  rewrite Uint64_be_bytes. cbn [obind keyFields].
  now rewrite Z.mod_small by lia.
Qed.

Lemma int64_wrapped (x : Z) :
  - 2 ^ 63 <= x < 2 ^ 63 -> int64 (uint64 x mod 2 ^ 64) = x.
Proof.
  intros Hx. unfold uint64. rewrite Z.mod_mod by lia.
  now apply int64_uint64.
Qed.

Lemma push_key_decodes :
  push_DecodeKey (Slice (be_bytes 8 (uint64 (StoreTimestamp r)) ++ Address r) sp)
  = Returns (keyFields Push r, None).
Proof.
  unfold push_DecodeKey, slice_from, slice_to.
  rewrite <- (app_nil_r (Address r)) at 1.
  rewrite reslice_middle by lens. cbn [obind elems].
  change (be_bytes 8 (uint64 (StoreTimestamp r)) ++ Address r)
    with ([] ++ be_bytes 8 (uint64 (StoreTimestamp r)) ++ Address r).
  rewrite reslice_middle by lens. cbn [obind].
  rewrite Uint64_be_bytes. cbn [obind keyFields].
  now rewrite int64_wrapped.
Qed.

Lemma gc_key_decodes :
  gc_DecodeKey
    (Slice (be_bytes 8 (uint64 (AccessTimestamp r)) ++ be_bytes 8 (BinID r)
              ++ Address r) sp)
  = Returns (keyFields Gc r, None).
Proof.
  unfold gc_DecodeKey, slice_from, slice_to.
  set (ts := be_bytes 8 (uint64 (AccessTimestamp r))).
  set (bin := be_bytes 8 (BinID r)).
  change (ts ++ bin ++ Address r) with ([] ++ ts ++ bin ++ Address r) at 1.
  rewrite reslice_middle by (subst ts; lens). cbn [obind].
  subst ts. rewrite Uint64_be_bytes. cbn [obind].
  set (ts := be_bytes 8 (uint64 (AccessTimestamp r))).
  rewrite reslice_middle by (subst ts bin; lens). cbn [obind].
  subst bin. rewrite Uint64_be_bytes. cbn [obind].
  set (bin := be_bytes 8 (BinID r)).
  rewrite (app_assoc ts bin (Address r)).
  rewrite <- (app_nil_r (Address r)) at 1.
  rewrite reslice_middle by (subst ts bin; lens). cbn [obind elems keyFields].
  now rewrite int64_wrapped, Z.mod_small by lia.
Qed.

Lemma postageChunks_key_decodes :
  postageChunks_DecodeKey (Slice (BatchID r ++ x00 :: Address r) sp)
  = Returns (keyFields PostageChunks r, None).
Proof.
  unfold postageChunks_DecodeKey, slice_to.
  change (BatchID r ++ x00 :: Address r)
    with ([] ++ BatchID r ++ x00 :: Address r) at 1.
  rewrite reslice_middle by lens. cbn [obind elems].
  change (BatchID r ++ x00 :: Address r)
    with (BatchID r ++ [x00] ++ Address r).
  rewrite app_assoc, <- (app_nil_r (Address r)).
  rewrite reslice_middle by lens. reflexivity.
Qed.

Lemma postageIndex_key_decodes :
  postageIndex_DecodeKey (Slice (BatchID r ++ Index r) sp)
  = Returns (keyFields PostageIndex r, None).
Proof.
  unfold postageIndex_DecodeKey, slice_to.
  change (BatchID r ++ Index r) with ([] ++ BatchID r ++ Index r) at 1.
  rewrite reslice_middle by lens. cbn [obind elems].
  rewrite <- (app_nil_r (Index r)).
  rewrite reslice_middle by lens. reflexivity.
Qed.


End KeyRoundTrip.

Ltac open_codec :=
  cbn [funcsOf] in *;
  unfold retrievalDataFuncs, retrievalAccessFuncs, pullFuncs, pushFuncs,
    gcFuncs, pinFuncs, postageChunksFuncs, postageIndexFuncs in *;
  cbn [EncodeKey DecodeKey EncodeValue DecodeValue valueHeader] in *.

Section SliceFacts.

Lemma reslice_inv (s s' : slice) (lo hi : nat) :
  reslice s lo hi = Returns s' ->
  (lo <= hi <= cap s)%nat /\ len s' = (hi - lo)%nat /\
  elems s' = firstn (hi - lo) (skipn lo (backing s)).
Proof.
  unfold reslice.
  destruct (Nat.leb_spec lo hi); destruct (Nat.leb_spec hi (cap s));
    simpl; try discriminate.
  intros [= <-]. unfold len. cbn [elems].
  repeat split; try lia.
  rewrite length_firstn, length_skipn. unfold backing, cap in *.
  rewrite length_app. lia.
Qed.

Lemma reslice_panics (s : slice) (lo hi : nat) :
  (hi < lo \/ cap s < hi)%nat ->
  reslice s lo hi = Panics "slice bounds out of range".
Proof.
  intros H. unfold reslice.
  destruct (Nat.leb_spec lo hi); destruct (Nat.leb_spec hi (cap s));
    simpl; try reflexivity; lia.
Qed.

Lemma reslice_total (s : slice) (lo hi : nat) :
  (exists s', reslice s lo hi = Returns s') \/
  reslice s lo hi = Panics "slice bounds out of range".
Proof.
  unfold reslice. destruct (_ && _); eauto.
Qed.

Lemma Uint64_ok (s : slice) :
  (8 <= len s)%nat -> Uint64 s = Returns (be_value (firstn 8 (elems s))).
Proof.
  intros H. unfold Uint64. now destruct (Nat.leb_spec 8 (len s)); [|lia].
Qed.

Lemma Uint64_short (s : slice) :
  (len s < 8)%nat -> Uint64 s = Panics "index out of range [7]".
Proof.
  intros H. unfold Uint64. now destruct (Nat.leb_spec 8 (len s)); [lia|].
Qed.

Lemma cap_exact (s : slice) : spare s = [] -> cap s = len s.
Proof. unfold cap, len. intros ->. simpl. lia. Qed.

End SliceFacts.

Section ShortValues.

Variable keyItem : Item.
Variable value : slice.

Lemma retrievalData_short :
  (len value < headerSize)%nat ->
  retrievalData_DecodeValue keyItem value = Panics "slice bounds out of range".
Proof.
  intros Hshort. unfold retrievalData_DecodeValue, slice_to, slice_from.
  destruct (reslice_total value 8 16) as [[s1 E1]|E1]; rewrite E1; [|reflexivity].
  apply reslice_inv in E1 as E1'. destruct E1' as (_ & L1 & _).
  cbn [obind]. rewrite (Uint64_ok s1) by lia. cbn [obind].
  destruct (reslice_total value 0 8) as [[s2 E2]|E2]; rewrite E2; [|reflexivity].
  apply reslice_inv in E2 as E2'. destruct E2' as (_ & L2 & _).
  cbn [obind]. rewrite (Uint64_ok s2) by lia. cbn [obind].
  destruct (reslice_total value 16 headerSize) as [[s3 E3]|E3]; rewrite E3;
    [|reflexivity].
  apply reslice_inv in E3 as E3'. destruct E3' as (_ & L3 & _).
  cbn [obind]. unfold Postage.UnmarshalBinary. rewrite L3.
  change (headerSize - 16 =? Postage.StampSize)%nat with true.
  cbn [negb]. cbv iota beta.
  rewrite reslice_panics by (left; exact Hshort). reflexivity.
Qed.


Lemma skipn_make (k n : nat) : skipn k (make n) = make (n - k).
Proof.
  unfold make. revert k. induction n as [|n IH]; intros [|k]; simpl; auto.
Qed.

Lemma copy_at_prefix (n : nat) (src : bytes) :
  (length src <= n)%nat -> copy_at (make n) 0 src = src ++ make (n - length src).
Proof.
  intros H. unfold copy_at. rewrite length_make, Nat.sub_0_r.
  rewrite Nat.min_r by lia. rewrite firstn_all, skipn_make. reflexivity.
Qed.

Lemma retrievalAccess_short :
  (len value < 8)%nat ->
  retrievalAccess_DecodeValue keyItem value = Panics "index out of range [7]".
Proof.
  intros H. unfold retrievalAccess_DecodeValue. now rewrite Uint64_short.
Qed.

Lemma pull_short :
  spare value = [] -> (len value < 64)%nat ->
  pull_DecodeValue keyItem value = Panics "slice bounds out of range".
Proof.
  intros Hsp H. unfold pull_DecodeValue, slice_to.
  destruct (reslice_total value 0 32) as [[a Ea]|Ea]; rewrite Ea; [|reflexivity].
  cbn [obind]. rewrite reslice_panics; [reflexivity|].
  right. rewrite cap_exact by assumption. lia.
Qed.

Lemma push_short :
  (len value < 4)%nat -> push_DecodeValue keyItem value = Returns (zeroItem, None).
Proof.
  intros H. unfold push_DecodeValue.
  now destruct (Nat.eqb_spec (len value) 4); [lia|].
Qed.

Lemma gc_short_panics :
  spare value = [] -> (len value < 32)%nat ->
  gc_DecodeValue keyItem value = Panics "slice bounds out of range".
Proof.
  intros Hsp H. unfold gc_DecodeValue, slice_to.
  rewrite reslice_panics; [reflexivity|].
  right. rewrite cap_exact by assumption. lia.
Qed.

Lemma gc_short_pads :
  spare value = [] -> (32 <= len value < 40)%nat ->
  gc_DecodeValue keyItem value
  = Returns (set_Index (skipn 32 (elems value) ++ make (40 - len value))
               (set_BatchID (firstn 32 (elems value)) zeroItem), None).
Proof.
  intros Hsp H. unfold gc_DecodeValue, slice_to, slice_from, reslice.
  rewrite cap_exact by assumption. unfold backing. rewrite Hsp, app_nil_r.
  destruct (Nat.leb_spec 32 (len value)); [|lia].
  rewrite Nat.leb_refl.
  cbn [andb Nat.leb obind elems]. rewrite Nat.sub_0_r, skipn_O.
  unfold len, Postage.IndexSize in *.
  assert (L1 : length (firstn 32 (elems value)) = 32%nat)
    by (rewrite length_firstn; lia).
  assert (L2 : length (skipn 32 (elems value)) = (length (elems value) - 32)%nat)
    by apply length_skipn.
  rewrite (firstn_all2 (n := length (elems value) - 32)) by lia.
  rewrite (copy_at_prefix 32), (copy_at_prefix 8) by lia.
  rewrite L1, L2, Nat.sub_diag. cbn [make repeat]. rewrite app_nil_r.
  replace (8 - (length (elems value) - 32))%nat
    with (40 - length (elems value))%nat by lia.
  reflexivity.
Qed.

Lemma pin_short :
  spare value = [] -> (len value < 8)%nat ->
  pin_DecodeValue keyItem value = Panics "slice bounds out of range".
Proof.
  intros Hsp H. unfold pin_DecodeValue, slice_to.
  rewrite reslice_panics; [reflexivity|].
  right. rewrite cap_exact by assumption. lia.
Qed.

Lemma postageIndex_short_truncates :
  spare value = [] -> (32 <= len value)%nat ->
  postageIndex_DecodeValue keyItem value
  = Returns (set_Timestamp (skipn 32 (elems value))
               (set_Address (firstn 32 (elems value)) zeroItem), None).
Proof.
  intros Hsp H. unfold postageIndex_DecodeValue, slice_to, slice_from, reslice.
  rewrite cap_exact by assumption. unfold backing. rewrite Hsp, app_nil_r.
  destruct (Nat.leb_spec 32 (len value)); [|lia].
  rewrite Nat.leb_refl.
  cbn [andb Nat.leb obind elems]. rewrite Nat.sub_0_r, skipn_O.
  rewrite (firstn_all2 (n := len value - 32))
    by (rewrite length_skipn; unfold len; lia).
  reflexivity.
Qed.

Lemma postageIndex_short :
  (len value < 32)%nat ->
  postageIndex_DecodeValue keyItem value = Panics "slice bounds out of range".
Proof.
  intros H. unfold postageIndex_DecodeValue, slice_to, slice_from.
  destruct (reslice_total value 0 32) as [[a Ea]|Ea]; rewrite Ea; [|reflexivity].
  cbn [obind]. rewrite reslice_panics; [reflexivity|]. left. lia.
Qed.

(** Only the primary index's codec has an error path at all. *)
Lemma secondary_never_errors (ix : IndexId) (e : Item) (msg : string) :
  ix <> RetrievalData ->
  DecodeValue (funcsOf ix) keyItem value <> Returns (e, Some msg).
Proof.
  intros Hix. destruct ix; try congruence; open_codec.
  - unfold retrievalAccess_DecodeValue, Uint64.
    destruct (8 <=? len value)%nat; cbn [obind]; congruence.
  - unfold pull_DecodeValue, slice_to.
    destruct (reslice_total value 0 32) as [[a Ea]|Ea]; rewrite Ea;
      cbn [obind]; [|congruence].
    destruct (reslice_total value 32 64) as [[b Eb]|Eb]; rewrite Eb;
      cbn [obind]; congruence.
  - unfold push_DecodeValue, Uint32.
    destruct (len value =? 4)%nat; [|congruence].
    destruct (4 <=? len value)%nat; cbn [obind]; congruence.
  - unfold gc_DecodeValue, slice_to, slice_from.
    destruct (reslice_total value 0 32) as [[a Ea]|Ea]; rewrite Ea;
      cbn [obind]; [|congruence].
    destruct (reslice_total value 32 (len value)) as [[b Eb]|Eb]; rewrite Eb;
      cbn [obind]; congruence.
  - unfold pin_DecodeValue, slice_to, Uint64.
    destruct (reslice_total value 0 8) as [[a Ea]|Ea]; rewrite Ea;
      cbn [obind]; [|congruence].
    destruct (8 <=? len a)%nat; cbn [obind]; congruence.
  - unfold postageChunks_DecodeValue. congruence.
  - unfold postageIndex_DecodeValue, slice_to, slice_from.
    destruct (reslice_total value 0 32) as [[a Ea]|Ea]; rewrite Ea;
      cbn [obind]; [|congruence].
    destruct (reslice_total value 32 (len value)) as [[b Eb]|Eb]; rewrite Eb;
      cbn [obind]; congruence.
Qed.

(** C6, as amended.  No index's [DecodeValue] reports a decode error for a
    value shorter than the index's fixed-size header.  The primary index's
    decoder panics with a slice-bounds error on every such value.  When the
    value's capacity equals its length, the push decoder returns the zero
    record without error; the gc and postageIndex decoders panic below 32
    bytes and from 32 bytes on return without error, gc with Index
    zero-padded and postageIndex with a shorter Timestamp; the
    retrievalAccess, pull and pin decoders panic. *)
Theorem short_value_never_reports_error (ix : IndexId) :
  (len value < valueHeader ix)%nat ->
  (forall e msg, DecodeValue (funcsOf ix) keyItem value <> Returns (e, Some msg))
  /\ (ix = RetrievalData ->
      DecodeValue (funcsOf ix) keyItem value = Panics "slice bounds out of range")
  /\ (spare value = [] ->
      match ix with
      | Push => DecodeValue (funcsOf ix) keyItem value = Returns (zeroItem, None)
      | Gc =>
          if (32 <=? len value)%nat
          then DecodeValue (funcsOf ix) keyItem value
               = Returns (set_Index (skipn 32 (elems value)
                                       ++ make (40 - len value))
                            (set_BatchID (firstn 32 (elems value)) zeroItem),
                          None)
          else DecodeValue (funcsOf ix) keyItem value
               = Panics "slice bounds out of range"
      | PostageIndex =>
          if (32 <=? len value)%nat
          then DecodeValue (funcsOf ix) keyItem value
               = Returns (set_Timestamp (skipn 32 (elems value))
                            (set_Address (firstn 32 (elems value)) zeroItem),
                          None)
          else DecodeValue (funcsOf ix) keyItem value
               = Panics "slice bounds out of range"
      | _ => exists m, DecodeValue (funcsOf ix) keyItem value = Panics m
      end).
Proof.
  intros Hshort. split; [|split].
  - intros e msg. destruct ix; try (apply secondary_never_errors; congruence).
    open_codec. rewrite retrievalData_short by exact Hshort.
    congruence.
  - intros ->. open_codec. now apply retrievalData_short.
  - intros Hsp. destruct ix; open_codec.
    + eexists. now apply retrievalData_short.
    + eexists. now apply retrievalAccess_short.
    + eexists. now apply pull_short.
    + now apply push_short.
    + unfold Postage.IndexSize in Hshort.
      destruct (Nat.leb_spec 32 (len value)).
      * apply gc_short_pads; [assumption | lia].
      * now apply gc_short_panics.
    + eexists. now apply pin_short.
    + lia.
    + destruct (Nat.leb_spec 32 (len value)).
      * now apply postageIndex_short_truncates.
      * now apply postageIndex_short.
Qed.

End ShortValues.

Section Worlds.

Lemma logged_nil (w : world) : logged w [] = w.
Proof. destruct w. unfold logged. simpl. now rewrite app_nil_r. Qed.

Lemma logged_app (w : world) (a b : list StoreOp) :
  logged (logged w a) b = logged w (a ++ b).
Proof. unfold logged. simpl. now rewrite app_assoc. Qed.

Lemma printed_app (w : world) (a b : list string) :
  printed (printed w a) b = printed w (a ++ b).
Proof. unfold printed. simpl. now rewrite app_assoc. Qed.

Lemma fold_left_append {A B} (g : A -> list B) (items : list A) (acc : list B) :
  fold_left (fun s it => s ++ g it) items acc = acc ++ flat_map g items.
Proof.
  revert acc. induction items as [|it items IH]; intros acc;
    cbn [fold_left flat_map].
  - now rewrite app_nil_r.
  - now rewrite IH, <- app_assoc.
Qed.

Lemma flat_map_filter {A B} (p : A -> bool) (m : A -> B) (items : list A) :
  flat_map (fun it => if p it then [m it] else []) items
  = map m (List.filter p items).
Proof.
  induction items as [|it items IH]; simpl; [reflexivity|].
  destruct (p it); simpl; now rewrite IH.
Qed.

Lemma flat_map_single {A B} (g : A -> B) (items : list A) :
  flat_map (fun it => [g it]) items = map g items.
Proof. induction items as [|it items IH]; simpl; congruence. Qed.

Lemma emit_logged (op : StoreOp) (w : world) :
  emit op w = (logged w [op], Returns tt).
Proof. reflexivity. Qed.

Lemma Printf_printed (s : string) (w : world) :
  Printf s w = (printed w [s], Returns tt).
Proof. reflexivity. Qed.

End Worlds.

Section Iteration.

Context {S : Type}.
Variable f : IndexFuncs.
Variable fn : Item -> S -> M (S * (bool * error)).
Variable ops : Item -> list StoreOp.
Variable step : Item -> S -> S.

(** A callback that always asks to go on. *)
Hypothesis fn_continues : forall item s w,
  fn item s w = (logged w (ops item), Returns (step item s, (false, None))).

Lemma iterLoop_visits (kvs : list (slice * slice)) (items : list Item)
    (final : error) :
  Forall2 (decodes f) kvs items ->
  forall s w,
  iterLoop f fn kvs final s w
  = (logged w (flat_map ops items),
     Returns (fold_left (fun s it => step it s) items s, final)).
Proof.
  induction 1 as [|kv item kvs items Hd _ IH]; intros s w.
  - simpl. now rewrite logged_nil.
  - cbn [iterLoop]. unfold bind at 1, lift. rewrite Hd.
    unfold bind. rewrite fn_continues, IH. cbn [flat_map fold_left].
    now rewrite logged_app.
Qed.

End Iteration.

Section IterationOn.

Context {S : Type}.
Variable f : IndexFuncs.
Variable fn : Item -> S -> M (S * (bool * error)).
Variable ops : Item -> list StoreOp.
Variable step : Item -> S -> S.
Variable good : Item -> Prop.

(** A callback that asks to go on, on the records that are [good]. *)
Hypothesis fn_continues : forall item s w,
  good item ->
  fn item s w = (logged w (ops item), Returns (step item s, (false, None))).

Lemma iterLoop_visits_good (kvs : list (slice * slice)) (items : list Item)
    (final : error) :
  Forall2 (decodes f) kvs items -> Forall good items ->
  forall s w,
  iterLoop f fn kvs final s w
  = (logged w (flat_map ops items),
     Returns (fold_left (fun s it => step it s) items s, final)).
Proof.
  induction 1 as [|kv item kvs items Hd _ IH]; intros Hg s w.
  - simpl. now rewrite logged_nil.
  - inversion Hg as [|? ? Hitem Hrest]; subst.
    cbn [iterLoop]. unfold bind at 1, lift. rewrite Hd.
    unfold bind. rewrite (fn_continues _ _ _ Hitem), (IH Hrest).
    cbn [flat_map fold_left]. now rewrite logged_app.
Qed.

(** The loop stops with the callback: a panic on one record ends the
    iteration there, and the state the callback has built is gone. *)
Lemma iterLoop_callback_panics (kvs1 kvs2 : list (slice * slice))
    (kv : slice * slice) (items1 : list Item) (item : Item) (m : string)
    (final : error) :
  Forall2 (decodes f) kvs1 items1 -> Forall good items1 ->
  decodes f kv item ->
  (forall s w, fn item s w = (logged w (ops item), Panics m)) ->
  forall s w,
  iterLoop f fn (kvs1 ++ kv :: kvs2) final s w
  = (logged w (flat_map ops (items1 ++ [item])), Panics m).
Proof.
  intros Hd Hg Hkv Hp. induction Hd as [|kv1 it1 kvs1 items1 Hd1 _ IH];
    intros s w.
  - cbn [app iterLoop flat_map]. unfold bind at 1, lift. rewrite Hkv.
    unfold bind. rewrite Hp. now rewrite app_nil_r.
  - inversion Hg as [|? ? Hitem Hrest]; subst.
    cbn [app iterLoop]. unfold bind at 1, lift. rewrite Hd1.
    unfold bind. rewrite (fn_continues _ _ _ Hitem), (IH Hrest).
    cbn [flat_map]. now rewrite logged_app.
Qed.

End IterationOn.

Section Referential.

Variables src dst : ShedIndex.
Variables srcStr dstStr : string.
Hypothesis dst_primary : funcs dst = retrievalDataFuncs.

(** The address is a key of the index. *)
Lemma keyPresent_spec (d : IndexData) (key : bytes) :
  keyPresent d key = true <-> exists kv, In kv (entries d) /\ elems (fst kv) = key.
Proof.
  unfold keyPresent. rewrite existsb_exists. split.
  - intros (kv & Hin & Heq). apply bytes_eqb_eq in Heq. eauto.
  - intros (kv & Hin & <-). exists kv. split; [exact Hin|]. now apply bytes_eqb_eq.
Qed.

(** What [Has] answers on the primary index, and the test made on it. *)
Lemma Has_primary (item : Item) (w : world) :
  exists found err,
    Has dst item w
    = (logged w [OpHas (name dst) (Address item)], Returns (found, err))
    /\ (unreferenced dst item = true <-> err <> None \/ found = false).
Proof.
  unfold Has, bind, lift, emit, ret, unreferenced.
  rewrite dst_primary. cbn.
  destruct (hasFault (data dst) (Address item)) as [e|]; cbn.
  - exists false, (Some e). split; [reflexivity|]. split; [now left | reflexivity].
  - exists (keyPresent (data dst) (Address item)), None.
    split; [reflexivity|].
    destruct (keyPresent (data dst) (Address item)); cbn; split.
    + discriminate.
    + intros [H|H]; congruence.
    + now right.
    + reflexivity.
Qed.

Lemma checkItem_primary (item : Item) (msgs : list string) (w : world) :
  checkItem dst srcStr dstStr item msgs w
  = (logged w [OpHas (name dst) (Address item)],
     Returns (msgs ++ (if unreferenced dst item
                       then [missingMsg srcStr dstStr item] else []),
              (false, None))).
Proof.
  unfold checkItem, Has, bind, lift, emit, ret, unreferenced.
  rewrite dst_primary. cbn.
  destruct (hasFault (data dst) (Address item)) as [e|]; cbn.
  - reflexivity.
  - destruct (keyPresent (data dst) (Address item)); cbn;
      rewrite ?app_nil_r; reflexivity.
Qed.

Lemma checkIndexes_spec (items : list Item) (w : world) :
  Forall2 (decodes (funcs src)) (reached (data src)) items ->
  checkIndexes src dst srcStr dstStr w
  = (logged w (OpIterate (name src)
                 :: map (fun it => OpHas (name dst) (Address it)) items),
     Returns (map (missingMsg srcStr dstStr) (List.filter (unreferenced dst) items)
              ++ (if is_err (iterError (data src))
                  then [criticalMsg srcStr] else []))).
Proof.
  intros Hitems. unfold checkIndexes, Iterate, bind.
  rewrite emit_logged.
  rewrite (iterLoop_visits (funcs src) _
             (fun it => [OpHas (name dst) (Address it)])
             (fun it msgs => msgs ++ (if unreferenced dst it
                                      then [missingMsg srcStr dstStr it]
                                      else []))
             checkItem_primary _ items _ Hitems).
  rewrite fold_left_append, flat_map_filter, flat_map_single, logged_app.
  cbn [app]. destruct (is_err (iterError (data src))); unfold ret;
    rewrite ?app_nil_r; reflexivity.
Qed.

End Referential.

Section SevenChecks.

Variable ix : Indexes.
Hypothesis primary_codec : funcs (retrievalDataIndex ix) = retrievalDataFuncs.

Lemma referentialChecks_spec (itemss : list (list Item))
    (inconsistencies : list string) (w : world) :
  Forall2 (fun s items =>
             Forall2 (decodes (funcs (fst s))) (reached (data (fst s))) items)
          (secondaries ix) itemss ->
  referentialChecks ix inconsistencies w
  = (logged w (flat_map (checkOps ix) (combine (secondaries ix) itemss)),
     Returns (inconsistencies
              ++ flat_map (checkMsgs ix) (combine (secondaries ix) itemss))).
Proof.
  intros H. unfold secondaries in *.
  repeat match goal with
         | H : Forall2 _ (_ :: _) _ |- _ =>
             apply Forall2_cons_inv_l in H; destruct H as (?i & ?l & ? & H & ->)
         | H : Forall2 _ [] _ |- _ => apply Forall2_nil_inv_l in H; subst
         end.
  cbn [fst] in *. unfold referentialChecks, bind.
  rewrite (checkIndexes_spec _ _ _ _ primary_codec i) by assumption.
  rewrite (checkIndexes_spec _ _ _ _ primary_codec i0) by assumption.
  rewrite (checkIndexes_spec _ _ _ _ primary_codec i1) by assumption.
  rewrite (checkIndexes_spec _ _ _ _ primary_codec i2) by assumption.
  rewrite (checkIndexes_spec _ _ _ _ primary_codec i3) by assumption.
  rewrite (checkIndexes_spec _ _ _ _ primary_codec i4) by assumption.
  rewrite (checkIndexes_spec _ _ _ _ primary_codec i5) by assumption.
  unfold ret. rewrite !logged_app.
  cbn [combine flat_map checkOps checkMsgs]. rewrite !app_nil_r.
  rewrite <- !app_assoc. reflexivity.
Qed.

(** C1.  The referential check runs [checkIndexes] on the seven secondary
    indexes in turn, each against the primary index.  When the entries each
    iteration reaches decode to [items], the check performs, per source, one
    iteration and one [Has] on the primary index for every record in order
    (and no other call), and appends to the inconsistencies exactly one
    message, naming the source, "retrievalDataIndex" and the address, for
    every record whose lookup failed or found nothing, in iteration order,
    followed by the critical message when the iterator ended in error.  A
    record is reported exactly when [Has] on the primary index came back
    with an error or with [false]. *)
Theorem referential_integrity (itemss : list (list Item))
    (inconsistencies : list string) (w : world) :
  Forall2 (fun s items =>
             Forall2 (decodes (funcs (fst s))) (reached (data (fst s))) items)
          (secondaries ix) itemss ->
  referentialChecks ix inconsistencies w
  = (logged w (flat_map (checkOps ix) (combine (secondaries ix) itemss)),
     Returns (inconsistencies
              ++ flat_map (checkMsgs ix) (combine (secondaries ix) itemss)))
  /\ (forall item w',
        exists found err,
          snd (Has (retrievalDataIndex ix) item w') = Returns (found, err)
          /\ (unreferenced (retrievalDataIndex ix) item = true
              <-> err <> None \/ found = false)).
Proof.
  intros H. split; [now apply referentialChecks_spec|].
  intros item w'.
  destruct (Has_primary _ primary_codec item w') as (found & err & E & Hiff).
  exists found, err. rewrite E. now split.
Qed.

End SevenChecks.

Section ContentScan.

Variable env : Env.

Lemma answers_examine (item : Item) :
  answers env item <-> forall m, examine env item <> Panicking m.
Proof.
  unfold answers, examine. split.
  - intros (l & err & -> & Hr) m. destruct err as [e|]; [discriminate|].
    destruct (Hr eq_refl) as (d & e' & ->). destruct e' as [e'|];
      [discriminate|]. now destruct (_ || _).
  - intros H. destruct (LocationFromBinary env (Location item))
      as [[l [e|]]|m] eqn:El.
    + exists l, (Some e). split; [reflexivity | discriminate].
    + exists l, None. split; [reflexivity|]. intros _.
      destruct (sharky_Read env l (make (Z.to_nat (Length l))))
        as [[d e]|m] eqn:Er; [eauto|]. now destruct (H m).
    + now destruct (H m).
Qed.

Lemma crashes_examine (item : Item) (m : string) :
  crashes env item m <-> examine env item = Panicking m.
Proof.
  unfold crashes, examine. split.
  - intros [->|(l & -> & ->)]; reflexivity.
  - destruct (LocationFromBinary env (Location item)) as [[l [e|]]|m'];
      [discriminate| |intros [= ->]; now left].
    destruct (sharky_Read env l (make (Z.to_nat (Length l))))
      as [[d [e|]]|m'] eqn:Er; [discriminate| |intros [= ->]; right; eauto].
    now destruct (_ || _).
Qed.

Lemma scanItem_spec (item : Item) (st : list string * list string) (w : world) :
  answers env item ->
  scanItem env item st w
  = (logged w (scanOps env item),
     Returns ((fst st ++ inconsistencyOf env item,
               snd st ++ corruptionOf env item), (false, None))).
Proof.
  intros (l & err & El & Hr). destruct st as [incs corrs].
  unfold scanItem, scanOps, inconsistencyOf, corruptionOf, isCorrupt, examine.
  unfold bind at 1, lift. rewrite El. destruct err as [e|];
    cbn [is_err fst snd].
  - unfold ret. now rewrite logged_nil, app_nil_r.
  - destruct (Hr eq_refl) as (d & e' & Er).
    unfold bind at 1. rewrite emit_logged. unfold bind. rewrite Er.
    destruct e' as [e'|]; cbn [is_err].
    + unfold ret. now rewrite app_nil_r.
    + destruct (cac_Valid env _), (soc_Valid env _);
        cbn [negb andb orb corruptionMsg chunk_Address]; unfold ret;
        rewrite ?app_nil_r; reflexivity.
Qed.

Lemma scanItem_panics (item : Item) (m : string)
    (st : list string * list string) (w : world) :
  crashes env item m ->
  scanItem env item st w = (logged w (scanOps env item), Panics m).
Proof.
  destruct st as [incs corrs]. unfold scanItem, scanOps.
  intros [El|(l & El & Er)]; unfold bind at 1, lift; rewrite El.
  - now rewrite logged_nil.
  - cbn [is_err]. unfold bind at 1. rewrite emit_logged. unfold bind.
    now rewrite Er.
Qed.

(** What the closure does with a record whose location decodes and whose
    blob is read: it records a corruption naming the address exactly when
    the chunk is valid under neither scheme, and no inconsistency. *)
Lemma scanItem_readable (item : Item) (l : SharkyLocation) (data : bytes)
    (inconsistencies corruptions : list string) (w : world) :
  LocationFromBinary env (Location item) = Returns (l, None) ->
  sharky_Read env l (make (Z.to_nat (Length l))) = Returns (data, None) ->
  snd (scanItem env item (inconsistencies, corruptions) w)
  = Returns ((inconsistencies,
              if negb (cac_Valid env (NewChunk (Address item) data))
                 && negb (soc_Valid env (NewChunk (Address item) data))
              then corruptions ++ ["address " +:+ addrString (Address item)]
              else corruptions),
             (false, None)).
Proof.
  intros El Er. unfold scanItem, bind at 1, lift. rewrite El. cbn [is_err].
  unfold bind at 1. rewrite emit_logged. unfold bind. rewrite Er.
  cbn [is_err]. now destruct (negb _ && negb _).
Qed.

Variable ix : Indexes.
Variable items : list Item.
Hypothesis primary_decodes :
  Forall2 (decodes (funcs (retrievalDataIndex ix)))
          (reached (data (retrievalDataIndex ix))) items.

Lemma contentScan_spec (inconsistencies corruptions : list string) (w : world) :
  Forall (answers env) items ->
  contentScan env ix inconsistencies corruptions w
  = (logged w (OpIterate (name (retrievalDataIndex ix))
                 :: flat_map (scanOps env) items),
     Returns (inconsistencies ++ flat_map (inconsistencyOf env) items,
              corruptions ++ flat_map (corruptionOf env) items)).
Proof.
  intros Hanswers. unfold contentScan, Iterate, bind. rewrite emit_logged.
  rewrite (iterLoop_visits_good _ _ (scanOps env)
             (fun it st => (fst st ++ inconsistencyOf env it,
                            snd st ++ corruptionOf env it))
             (answers env)
             (fun item st w H => scanItem_spec item st w H)
             _ items _ primary_decodes Hanswers).
  unfold ret. rewrite logged_app. cbn [app]. f_equal. f_equal.
  generalize inconsistencies corruptions.
  clear primary_decodes Hanswers.
  induction items as [|it its IH]; intros incs corrs.
  - cbn. now rewrite !app_nil_r.
  - cbn [fold_left flat_map fst snd]. rewrite IH. now rewrite <- !app_assoc.
Qed.

(** A call on the blob store that stops the program stops the scan: the
    records before have been examined, and what was found is not returned. *)
Lemma contentScan_panics (kvs1 kvs2 : list (slice * slice))
    (kv : slice * slice) (items1 : list Item) (item : Item) (m : string)
    (inconsistencies corruptions : list string) (w : world) :
  reached (data (retrievalDataIndex ix)) = kvs1 ++ kv :: kvs2 ->
  Forall2 (decodes (funcs (retrievalDataIndex ix))) kvs1 items1 ->
  Forall (answers env) items1 ->
  decodes (funcs (retrievalDataIndex ix)) kv item ->
  crashes env item m ->
  contentScan env ix inconsistencies corruptions w
  = (logged w (OpIterate (name (retrievalDataIndex ix))
                 :: flat_map (scanOps env) (items1 ++ [item])),
     Panics m).
Proof.
  intros Hr Hd Ha Hkv Hc. unfold contentScan, Iterate, bind.
  rewrite emit_logged, Hr.
  rewrite (iterLoop_callback_panics _ _ (scanOps env)
             (fun it st => (fst st ++ inconsistencyOf env it,
                            snd st ++ corruptionOf env it))
             (answers env)
             (fun it st w0 H => scanItem_spec it st w0 H)
             kvs1 kvs2 kv items1 item m _ Hd Ha Hkv
             (fun st w0 => scanItem_panics item m st w0 Hc)).
  now rewrite logged_app.
Qed.

(** C2.  For every record whose location decodes and whose blob read
    succeeds, the closure of the scan records a corruption, "address" and
    the address of the record in hexadecimal, exactly when the chunk built
    from the address and the data read is valid under neither [cac_Valid]
    nor [soc_Valid]; it appends it to the corruptions and leaves the
    inconsistencies as they are.  Over a whole scan on which neither call on
    the blob store stops the program, and whose entries decode to [items],
    the corruptions recorded are therefore, in order, one for every record
    that [isCorrupt], and a record is corrupt exactly when it is readable
    and valid under neither scheme. *)
Theorem corruption_iff_neither_scheme
    (inconsistencies corruptions : list string) (w : world) :
  (forall it l data incs corrs w',
     LocationFromBinary env (Location it) = Returns (l, None) ->
     sharky_Read env l (make (Z.to_nat (Length l))) = Returns (data, None) ->
     snd (scanItem env it (incs, corrs) w')
     = Returns ((incs,
                 if negb (cac_Valid env (NewChunk (Address it) data))
                    && negb (soc_Valid env (NewChunk (Address it) data))
                 then corrs ++ ["address " +:+ addrString (Address it)]
                 else corrs),
                (false, None)))
  /\ (Forall (answers env) items ->
      snd (contentScan env ix inconsistencies corruptions w)
      = Returns (inconsistencies ++ flat_map (inconsistencyOf env) items,
                 corruptions
                 ++ map (fun it => "address " +:+ addrString (Address it))
                        (List.filter (isCorrupt env) items)))
  /\ (forall it,
        isCorrupt env it = true <->
        exists l data,
          LocationFromBinary env (Location it) = Returns (l, None) /\
          sharky_Read env l (make (Z.to_nat (Length l)))
          = Returns (data, None) /\
          cac_Valid env (NewChunk (Address it) data) = false /\
          soc_Valid env (NewChunk (Address it) data) = false)
  /\ (forall it l data,
        LocationFromBinary env (Location it) = Returns (l, None) ->
        sharky_Read env l (make (Z.to_nat (Length l)))
        = Returns (data, None) ->
        inconsistencyOf env it = []).
Proof.
  split; [|split; [|split]].
  - intros it l data incs corrs w' El Er.
    exact (scanItem_readable it l data incs corrs w' El Er).
  - intros Hanswers. rewrite contentScan_spec by assumption. cbn [snd].
    unfold corruptionOf. now rewrite flat_map_filter.
  - intros it. unfold isCorrupt, examine. split.
    + destruct (LocationFromBinary env (Location it)) as [[l [e|]]|m] eqn:El;
        try discriminate.
      destruct (sharky_Read env l (make (Z.to_nat (Length l))))
        as [[d [e|]]|m] eqn:Er; try discriminate.
      destruct (cac_Valid env _) eqn:Ec, (soc_Valid env _) eqn:Es;
        cbn; try discriminate.
      intros _. exists l, d. repeat split; assumption.
    + intros (l & d & -> & -> & -> & ->). reflexivity.
  - intros it l d Hl Hr. unfold inconsistencyOf, examine. rewrite Hl, Hr.
    now destruct (_ || _).
Qed.

(** What is recorded for a record whose location does not decode, and for
    one whose blob cannot be read: one inconsistency and no corruption.  The
    first message is built from the record and the error, the second from
    the error alone. *)
Lemma bad_location_recorded (it : Item) (e : error) :
  examine env it = BadLocation e ->
  inconsistencyOf env it = [invalidLocationMsg it e]
  /\ corruptionOf env it = [].
Proof.
  intros H. unfold inconsistencyOf, corruptionOf, isCorrupt. now rewrite H.
Qed.

Lemma read_failure_recorded (it : Item) (e : error) :
  examine env it = Unreadable e ->
  inconsistencyOf env it = [cannotReadMsg e] /\ corruptionOf env it = [].
Proof.
  intros H. unfold inconsistencyOf, corruptionOf, isCorrupt. now rewrite H.
Qed.

End ContentScan.

Section Report.

Lemma printEach_spec (prefix : string) (l : list string) (w : world) :
  printEach prefix l w
  = (printed w (map (fun v => prefix +:+ v +:+ nl) l), Returns tt).
Proof.
  revert w. induction l as [|v l IH]; intros w.
  - destruct w. unfold printed. cbn. now rewrite app_nil_r.
  - cbn [printEach map]. unfold bind. rewrite Printf_printed, IH.
    now rewrite printed_app.
Qed.

Lemma category_spec (what prefix : string) (l : list string) (w : world) :
  (if (0 <? length l)%nat
   then Printf ("Found " +:+ fmt_d (Z.of_nat (length l)) +:+ what +:+ nl);;
        printEach prefix l
   else ret tt) w
  = (printed w (category what prefix l), Returns tt).
Proof.
  destruct l as [|v l].
  - destruct w. unfold printed. cbn. now rewrite app_nil_r.
  - cbn [length Nat.ltb Nat.leb category]. unfold bind.
    rewrite Printf_printed, printEach_spec. now rewrite printed_app.
Qed.

Lemma report_spec (inconsistencies corruptions : list string) (w : world) :
  report inconsistencies corruptions w
  = (printed w (reportLines inconsistencies corruptions), Returns tt).
Proof.
  unfold report, reportLines. unfold bind at 1. rewrite Printf_printed.
  unfold bind at 1. rewrite category_spec.
  unfold bind at 1. rewrite category_spec.
  rewrite !printed_app. cbn [app].
  destruct inconsistencies as [|i incs], corruptions as [|c corrs];
    cbn [length Nat.eqb andb]; unfold ret; rewrite ?Printf_printed,
    ?printed_app, ?app_nil_r; cbn [category app]; rewrite ?app_nil_r;
    reflexivity.
Qed.

(** C9.  The report prints "Check complete", then for each non-empty list
    its count line followed by one line per finding in list order, and the
    line "No inconsistencies or corruptions found" exactly when both lists
    are empty. *)
Theorem report_prints (inconsistencies corruptions : list string) (w : world) :
  report inconsistencies corruptions w
  = (printed w
       ("Check complete"
          :: category " inconsistencies in indexes" "INCONSISTENCY: "
                      inconsistencies
          ++ category " data corruptions" "DATA CORRUPTION: " corruptions
          ++ match inconsistencies, corruptions with
             | [], [] => ["No inconsistencies or corruptions found" +:+ nl]
             | _, _ => []
             end),
     Returns tt).
Proof. apply report_spec. Qed.

End Report.

Section Counters.

Variable env : Env.
Variable ix : Indexes.

Lemma Count_spec (w : world) :
  Count (retrievalDataIndex ix) w
  = (logged w [OpCount (name (retrievalDataIndex ix))],
     Returns (counted (data (retrievalDataIndex ix)),
              match countFault (data (retrievalDataIndex ix)) with
              | None => None
              | Some (_, e) => Some e
              end)).
Proof.
  unfold Count, counted, bind. rewrite emit_logged.
  destruct (countFault (data (retrievalDataIndex ix))) as [[n e]|]; reflexivity.
Qed.

Lemma counterBound_spec (inconsistencies : list string) (w : world) :
  counterBound env ix inconsistencies w
  = (logged w [OpFieldGet "gc-size"; OpFieldGet "reserve-size";
               OpCount (name (retrievalDataIndex ix))],
     Returns (counterCompare (fst (gcSize_Get env)) (fst (reserveSize_Get env))
                (counted (data (retrievalDataIndex ix))) inconsistencies)).
Proof.
  unfold counterBound.
  destruct (gcSize_Get env) as [g eg], (reserveSize_Get env) as [r er].
  unfold bind. rewrite !emit_logged, Count_spec, !logged_app. reflexivity.
Qed.

(** C10.  Whatever errors come back with the two counters and the count,
    the counter check makes its three reads, prints nothing, does not panic
    and returns the comparison of the three values that came back. *)
Theorem counter_errors_ignored (inconsistencies : list string) (w : world)
    (gcCnt rsvCnt chunkCnt : Z) (e1 e2 e3 : error) :
  gcSize_Get env = (gcCnt, e1) ->
  reserveSize_Get env = (rsvCnt, e2) ->
  snd (Count (retrievalDataIndex ix) w) = Returns (chunkCnt, e3) ->
  counterBound env ix inconsistencies w
  = (logged w [OpFieldGet "gc-size"; OpFieldGet "reserve-size";
               OpCount (name (retrievalDataIndex ix))],
     Returns (counterCompare gcCnt rsvCnt chunkCnt inconsistencies)).
Proof.
  intros Hg Hr Hc. rewrite Count_spec in Hc. cbn [snd] in Hc.
  injection Hc as Hc _.
  rewrite counterBound_spec, Hg, Hr, Hc. reflexivity.
Qed.

End Counters.

Lemma uint64_small (z : Z) : 0 <= z < 2 ^ 64 -> uint64 z = z.
Proof. intros H. unfold uint64. now apply Z.mod_small. Qed.

Lemma int_small (z : Z) : 0 <= z < 2 ^ 63 -> int z = z.
Proof.
  intros H. unfold int, int64. rewrite Z.mod_small by lia.
  destruct (Z.ltb_spec z (2 ^ 63)); lia.
Qed.

(** Inside the range where neither the unsigned sum nor its conversion to
    [int] wraps, the comparison is the mathematical one. *)
Lemma counterCompare_in_range (gcCnt rsvCnt chunkCnt : Z) (l : list string) :
  0 <= gcCnt -> 0 <= rsvCnt -> gcCnt + rsvCnt < 2 ^ 63 ->
  counterCompare gcCnt rsvCnt chunkCnt l
  = if gcCnt + rsvCnt >? chunkCnt
    then l ++ [counterMsg (gcCnt + rsvCnt) chunkCnt]
    else l.
Proof.
  intros Hg Hr Hsum. unfold counterCompare.
  rewrite uint64_small by lia. now rewrite int_small by lia.
Qed.

Section EndToEnd.

Variable env : Env.
Variable ix : Indexes.
Variable itemss : list (list Item).
Variable items : list Item.
Hypothesis primary_codec : funcs (retrievalDataIndex ix) = retrievalDataFuncs.
Hypothesis secondaries_decode :
  Forall2 (fun s its =>
             Forall2 (decodes (funcs (fst s))) (reached (data (fst s))) its)
          (secondaries ix) itemss.
Hypothesis primary_decodes :
  Forall2 (decodes (funcs (retrievalDataIndex ix)))
          (reached (data (retrievalDataIndex ix))) items.
Hypothesis blob_answers : Forall (answers env) items.

(** The whole audit, once the indexes are open, as long as every entry
    reached decodes and the blob store stops the program on no record: the
    findings are the referential messages, then the counter message, then
    the scan's inconsistencies; and the report is what is printed after the
    banner. *)
Lemma audit_spec (w : world) :
  let inconsistencies :=
    counterCompare (fst (gcSize_Get env)) (fst (reserveSize_Get env))
      (counted (data (retrievalDataIndex ix)))
      (flat_map (checkMsgs ix) (combine (secondaries ix) itemss))
    ++ flat_map (inconsistencyOf env) items in
  let corruptions := flat_map (corruptionOf env) items in
  audit env ix w
  = (mkWorld (fs w)
       (stdout w
          ++ ("Starting check for localstore at " +:+ path env +:+ "..." +:+ nl)
          :: reportLines inconsistencies corruptions)
       (trace w
          ++ flat_map (checkOps ix) (combine (secondaries ix) itemss)
          ++ [OpFieldGet "gc-size"; OpFieldGet "reserve-size";
              OpCount (name (retrievalDataIndex ix))]
          ++ OpIterate (name (retrievalDataIndex ix))
             :: flat_map (scanOps env) items),
     Returns tt).
Proof.
  cbv zeta. unfold audit, bind. rewrite Printf_printed.
  rewrite (referentialChecks_spec ix primary_codec itemss) by assumption.
  rewrite counterBound_spec.
  rewrite (contentScan_spec env ix items primary_decodes) by assumption.
  rewrite report_spec. unfold printed, logged. cbn [fs stdout trace app].
  rewrite <- !app_assoc. reflexivity.
Qed.

End EndToEnd.

Section ReadOnly.

Variable allowed : string -> Prop.

Lemma preserves_refl (w : world) : preserves allowed w w.
Proof.
  split; [|split].
  - auto.
  - intros p n Hnone Hsome. congruence.
  - exists []. split; [now rewrite app_nil_r | constructor].
Qed.

Lemma preserves_trans (w1 w2 w3 : world) :
  preserves allowed w1 w2 -> preserves allowed w2 w3 -> preserves allowed w1 w3.
Proof.
  intros (K1 & N1 & ops1 & T1 & F1) (K2 & N2 & ops2 & T2 & F2).
  split; [|split].
  - auto.
  - intros p n Hnone Hsome.
    destruct (fs w2 !! p) as [n2|] eqn:E2.
    + pose proof (K2 _ _ E2) as E3. rewrite Hsome in E3. injection E3 as ->.
      eauto.
    + eauto.
  - exists (ops1 ++ ops2). split.
    + now rewrite T2, T1, app_assoc.
    + now apply Forall_app.
Qed.

Lemma preserves_logged (w : world) (ops : list StoreOp) :
  Forall (fun op => is_read op || is_lifecycle op = true) ops ->
  preserves allowed w (logged w ops).
Proof.
  intros H. split; [|split]; cbn; auto.
  - intros p n Hnone Hsome. congruence.
  - eauto.
Qed.

Lemma preserves_printed (w : world) (lines : list string) :
  preserves allowed w (printed w lines).
Proof.
  split; [|split]; cbn; auto.
  - intros p n Hnone Hsome. congruence.
  - exists []. split; [now rewrite app_nil_r | constructor].
Qed.

Lemma reads_are_not_writes (op : StoreOp) :
  is_read op || is_lifecycle op = true -> is_write op = false.
Proof. now destruct op. Qed.

Lemma quiet_ret {A} (a : A) : quiet allowed (ret a).
Proof. intros w. apply preserves_refl. Qed.

Lemma quiet_lift {A} (o : outcome A) : quiet allowed (lift o).
Proof. intros w. apply preserves_refl. Qed.

Lemma quiet_bind {A B} (c : M A) (k : A -> M B) :
  quiet allowed c -> (forall a, quiet allowed (k a)) -> quiet allowed (bind c k).
Proof.
  intros Hc Hk w. unfold bind. specialize (Hc w).
  destruct (c w) as [w' [a|m]]; cbn [fst] in *.
  - eapply preserves_trans; [exact Hc | apply Hk].
  - exact Hc.
Qed.

Lemma quiet_Printf (s : string) : quiet allowed (Printf s).
Proof. intros w. apply (preserves_printed w [s]). Qed.

Lemma quiet_emit (op : StoreOp) :
  is_read op || is_lifecycle op = true -> quiet allowed (emit op).
Proof.
  intros H w. apply (preserves_logged w [op]). now constructor.
Qed.

Lemma quiet_defer {A} (body : M A) (f : M unit) :
  quiet allowed body -> quiet allowed f -> quiet allowed (defer body f).
Proof.
  intros Hb Hf w. unfold defer. specialize (Hb w).
  destruct (body w) as [w' r]. cbn [fst] in *.
  eapply preserves_trans; [exact Hb | apply Hf].
Qed.

Lemma quiet_notExist (p : string) : quiet allowed (OS.notExist p).
Proof. intros w. apply preserves_refl. Qed.

Lemma quiet_OpenFile (name : string) (flag perm : Z) :
  allowed name -> quiet allowed (OS.OpenFile name flag perm).
Proof.
  intros Hname w. unfold OS.OpenFile.
  assert (Hlog : preserves allowed w
                   (mkWorld (fs w) (stdout w) (trace w ++ [OpOpenFile name flag])))
    by (apply (preserves_logged w [OpOpenFile name flag]); now constructor).
  destruct (fs w !! name) as [[|c]|] eqn:E; cbn [fst]; try exact Hlog.
  destruct (negb _); [|exact Hlog].
  destruct (fs w !! OS.dirname name) as [[|c]|]; cbn [fst]; try exact Hlog.
  split; [|split]; cbn [fs trace].
  - intros p n Hp. rewrite lookup_insert_ne; [exact Hp | congruence].
  - intros p n Hnone Hsome.
    destruct (decide (name = p)) as [->|Hne].
    + rewrite lookup_insert_eq in Hsome. injection Hsome as <-. now split.
    + rewrite lookup_insert_ne in Hsome by exact Hne. congruence.
  - exists [OpOpenFile name flag]. split; [reflexivity | now constructor].
Qed.

End ReadOnly.

Create HintDb quiet.

#[export] Hint Resolve quiet_ret quiet_lift quiet_Printf quiet_notExist : quiet.

Ltac quiet_step :=
  match goal with
  | |- quiet _ (bind _ _) => apply quiet_bind; [|intros ?]
  | |- quiet _ (emit _) => apply quiet_emit; reflexivity
  | |- quiet _ (if ?b then _ else _) => destruct b
  | |- quiet _ (match ?x with _ => _ end) => destruct x
  | |- quiet _ _ => solve [eauto with quiet]
  end.

Ltac quiet_auto := repeat quiet_step.

Section Traces.

Variable P : StoreOp -> Prop.

Lemma traces_ret {A} (a : A) : traces P (ret a).
Proof. intros w. exists []. split; [now rewrite app_nil_r | constructor]. Qed.

Lemma traces_lift {A} (o : outcome A) : traces P (lift o).
Proof. intros w. exists []. split; [now rewrite app_nil_r | constructor]. Qed.

Lemma traces_Printf (s : string) : traces P (Printf s).
Proof. intros w. exists []. split; [cbn; now rewrite app_nil_r | constructor]. Qed.

Lemma traces_notExist (p : string) : traces P (OS.notExist p).
Proof. intros w. exists []. split; [now rewrite app_nil_r | constructor]. Qed.

Lemma traces_emit (op : StoreOp) : P op -> traces P (emit op).
Proof. intros H w. exists [op]. split; [reflexivity | now constructor]. Qed.

Lemma traces_bind {A B} (c : M A) (k : A -> M B) :
  traces P c -> (forall a, traces P (k a)) -> traces P (bind c k).
Proof.
  intros Hc Hk w. unfold bind. destruct (Hc w) as (ops1 & E1 & F1).
  destruct (c w) as [w' [a|m]]; cbn [fst] in *.
  - destruct (Hk a w') as (ops2 & E2 & F2). exists (ops1 ++ ops2). split.
    + now rewrite E2, E1, app_assoc.
    + now apply Forall_app.
  - eauto.
Qed.

Lemma traces_OpenFile (name : string) (flag perm : Z) :
  P (OpOpenFile name flag) -> traces P (OS.OpenFile name flag perm).
Proof.
  intros H w. exists [OpOpenFile name flag].
  split; [|now constructor]. unfold OS.OpenFile.
  destruct (fs w !! name) as [[|c]|]; try reflexivity.
  destruct (negb _); [|reflexivity].
  destruct (fs w !! OS.dirname name) as [[|c]|]; reflexivity.
Qed.

Lemma traces_iterLoop {S} (f : IndexFuncs)
    (fn : Item -> S -> M (S * (bool * error))) (kvs : list (slice * slice))
    (final : error) :
  (forall item s, traces P (fn item s)) ->
  forall s, traces P (iterLoop f fn kvs final s).
Proof.
  intros Hfn. induction kvs as [|kv kvs IH]; intros s; cbn [iterLoop].
  - apply traces_ret.
  - apply traces_bind; [apply traces_lift|]. intros [item [e|]].
    + apply traces_ret.
    + apply traces_bind; [apply Hfn|].
      intros [s' [[|] [e|]]]; auto using traces_ret.
Qed.

End Traces.

Ltac traces_step :=
  match goal with
  | |- traces _ (bind _ _) => apply traces_bind; [|intros ?]
  | |- traces _ (emit _) => apply traces_emit; first [discriminate | exact I]
  | |- traces _ (ret _) => apply traces_ret
  | |- traces _ (lift _) => apply traces_lift
  | |- traces _ (Printf _) => apply traces_Printf
  | |- traces _ (OS.notExist _) => apply traces_notExist
  | |- traces _ (OS.OpenFile _ _ _) => apply traces_OpenFile; discriminate
  | |- traces _ (iterLoop _ _ _ _ _) => apply traces_iterLoop; intros ? ?
  | |- traces _ (if ?b then _ else _) => destruct b
  | |- traces _ (match ?x with _ => _ end) => destruct x
  end.

Section ReadOnlyProgram.

Variable allowed : string -> Prop.

Lemma quiet_iterLoop {S} (f : IndexFuncs)
    (fn : Item -> S -> M (S * (bool * error))) (kvs : list (slice * slice))
    (final : error) :
  (forall item s, quiet allowed (fn item s)) ->
  forall s, quiet allowed (iterLoop f fn kvs final s).
Proof.
  intros Hfn. induction kvs as [|kv kvs IH]; intros s; cbn [iterLoop].
  - apply quiet_ret.
  - apply quiet_bind; [apply quiet_lift|]. intros [item [e|]].
    + apply quiet_ret.
    + apply quiet_bind; [apply Hfn|].
      intros [s' [[|] [e|]]]; auto using quiet_ret.
Qed.

Lemma quiet_Iterate {S} (idx : ShedIndex)
    (fn : Item -> S -> M (S * (bool * error))) (s : S) :
  (forall item s, quiet allowed (fn item s)) ->
  quiet allowed (Iterate idx fn s).
Proof.
  intros Hfn. unfold Iterate. quiet_auto. now apply quiet_iterLoop.
Qed.

Lemma quiet_Has (idx : ShedIndex) (item : Item) : quiet allowed (Has idx item).
Proof. unfold Has. quiet_auto. Qed.

Lemma quiet_Count (idx : ShedIndex) : quiet allowed (Count idx).
Proof. unfold Count. quiet_auto. Qed.

Hint Resolve quiet_Has quiet_Count : quiet.

Lemma quiet_checkIndexes (src dst : ShedIndex) (srcStr dstStr : string) :
  quiet allowed (checkIndexes src dst srcStr dstStr).
Proof.
  unfold checkIndexes. apply quiet_bind.
  - apply quiet_Iterate. intros item msgs. unfold checkItem. quiet_auto.
  - intros ?. quiet_auto.
Qed.

Hint Resolve quiet_checkIndexes : quiet.

Lemma quiet_referentialChecks (ix : Indexes) (l : list string) :
  quiet allowed (referentialChecks ix l).
Proof. unfold referentialChecks. quiet_auto. Qed.

Lemma quiet_counterBound (env : Env) (ix : Indexes) (l : list string) :
  quiet allowed (counterBound env ix l).
Proof. unfold counterBound. quiet_auto. Qed.

Lemma quiet_contentScan (env : Env) (ix : Indexes) (l c : list string) :
  quiet allowed (contentScan env ix l c).
Proof.
  unfold contentScan. apply quiet_bind.
  - apply quiet_Iterate. intros item [incs corrs]. unfold scanItem. quiet_auto.
  - intros ?. quiet_auto.
Qed.

Lemma quiet_printEach (prefix : string) (l : list string) :
  quiet allowed (printEach prefix l).
Proof. induction l as [|v l IH]; cbn [printEach]; quiet_auto. Qed.

Hint Resolve quiet_referentialChecks quiet_counterBound quiet_contentScan
  quiet_printEach : quiet.

Lemma quiet_report (l c : list string) : quiet allowed (report l c).
Proof. unfold report. quiet_auto. Qed.

Hint Resolve quiet_report : quiet.

Lemma quiet_audit (env : Env) (ix : Indexes) : quiet allowed (audit env ix).
Proof. unfold audit. quiet_auto. Qed.

Hint Resolve quiet_audit : quiet.

Lemma quiet_withIndex (env : Env) (name : string) (f : IndexFuncs)
    (onErr : error -> string) (k : ShedIndex -> M unit) :
  (forall idx, quiet allowed (k idx)) ->
  quiet allowed (withIndex env name f onErr k).
Proof. intros Hk. unfold withIndex. quiet_auto. Qed.

Lemma quiet_openAll (open : string -> M error) (names : list string) :
  (forall n, In n names -> quiet allowed (open n)) ->
  quiet allowed (openAll open names).
Proof.
  induction names as [|n names IH]; intros H; cbn [openAll].
  - apply quiet_ret.
  - apply quiet_bind; [apply H; now left|].
    intros [e|]; [apply quiet_ret|]. apply IH. intros m Hm. apply H. now right.
Qed.

Lemma quiet_sharky_New (base : dirFS) (n : nat) (after : error) :
  (forall name, In name (shardNames n) -> allowed (OS.Join (basedir base) name)) ->
  quiet allowed (sharky_New base n after).
Proof.
  intros H. unfold sharky_New. apply quiet_bind.
  - apply quiet_openAll. intros name Hname. unfold dirFS_Open.
    apply quiet_OpenFile. now apply H.
  - intros [e|]; apply quiet_ret.
Qed.

End ReadOnlyProgram.

Lemma quiet_opened (env : Env) : quiet (shardPath env) (opened env).
Proof.
  unfold opened.
  apply quiet_bind; [apply quiet_notExist|]. intros [|]; [apply quiet_Printf|].
  apply quiet_bind.
  { apply quiet_sharky_New. intros name Hname. now exists name. }
  intros err.
  repeat first
    [ apply quiet_withIndex; intros ?
    | quiet_step ].
  apply quiet_audit.
Qed.

Lemma quiet_main (env : Env) : quiet (shardPath env) (main env).
Proof.
  unfold main. quiet_auto.
  apply quiet_defer; [apply quiet_opened | now apply quiet_emit].
Qed.

Lemma opens_printEach (env : Env) (prefix : string) (l : list string) :
  traces (opensShard env) (printEach prefix l).
Proof. induction l as [|v l IH]; cbn [printEach]; repeat traces_step; exact IH. Qed.

Lemma opens_openAll (env : Env) (names : list string) :
  (forall n, In n names -> In n (shardNames 32)) ->
  traces (opensShard env)
         (openAll (dirFS_Open (mkDirFS (OS.Join (path env) "sharky"))) names).
Proof.
  induction names as [|n names IH]; intros Hin; cbn [openAll].
  - apply traces_ret.
  - apply traces_bind.
    + unfold dirFS_Open. apply traces_OpenFile. split; [reflexivity|].
      exists n. split; [apply Hin; now left | reflexivity].
    + intros [e|]; [apply traces_ret|]. apply IH. intros m Hm. apply Hin.
      now right.
Qed.

Lemma opens_audit (env : Env) (ix : Indexes) :
  traces (opensShard env) (audit env ix).
Proof.
  unfold audit, referentialChecks, checkIndexes, counterBound, contentScan,
    report, Iterate, Count.
  repeat first
    [ apply opens_printEach
    | traces_step
    | progress unfold checkItem, scanItem, Has ].
Qed.

Lemma opens_main (env : Env) : traces (opensShard env) (main env).
Proof.
  assert (Ho : traces (opensShard env) (opened env)).
  { unfold opened, sharky_New, withIndex.
    repeat first
      [ apply opens_openAll; intros ? H; exact H
      | apply opens_audit
      | traces_step ]. }
  intros w. unfold main, bind, OS.notExist.
  destruct (fs w !! path env) as [n|].
  2: { exists []. cbn. rewrite app_nil_r. split; [reflexivity | constructor]. }
  rewrite emit_logged. destruct (is_err (NewDB_err env)).
  { exists [OpNewDB (path env)]. cbn. split; [reflexivity|].
    now repeat constructor. }
  unfold defer. destruct (Ho (logged w [OpNewDB (path env)])) as (ops & E & F).
  destruct (opened env _) as [w' r]. cbn [fst] in *.
  exists (OpNewDB (path env) :: ops ++ [OpClose]). cbn [emit fst trace].
  rewrite E. cbn [logged trace]. rewrite <- !app_assoc. split; [reflexivity|].
  constructor; [exact I|]. apply Forall_app. split; [exact F|].
  now repeat constructor.
Qed.

(** C8, as amended.  On every run the program asks the store for no write:
    every call it makes on the engine and the blob store is an open or close
    or a read (field get, iteration, point lookup, count, blob read).  Every
    file it opens is one of the 64 shard files under the sharky directory,
    opened with [O_RDWR|O_CREATE] as [dirFS.Open] does; and each such open,
    on whatever file system it is made, leaves every entry that exists as it
    is and creates at most the file it names, empty.  So in the file system
    as the program's own calls see and leave it (the files the engine keeps
    for itself are not among its entries), every entry that existed before
    the run is unchanged after it, and an entry that did not exist is an
    empty file at the path of one of these shard files. *)
Theorem audit_only_reads_and_creates_shards (env : Env)
    (files : gmap string node) :
  preserves (shardPath env) (start files) (fst (main env (start files)))
  /\ Forall (opensShard env) (trace (fst (main env (start files))))
  /\ (forall (base : dirFS) (name : string) (w : world),
        preserves (fun p => p = OS.Join (basedir base) name) w
                  (fst (dirFS_Open base name w))).
Proof.
  split; [apply quiet_main|split].
  - destruct (opens_main env (start files)) as (ops & E & F).
    rewrite E. exact F.
  - intros base name w. unfold dirFS_Open.
    now apply (quiet_OpenFile (fun p => p = OS.Join (basedir base) name)).
Qed.


Section Startup.

Variable env : Env.
Hypothesis field_opens : NewStringField_err env = None.
Hypothesis schema_read : schemaName_Get env = (DBSchemaCurrent env, None).
Hypothesis gc_opens : gcSize_New_err env = None.
Hypothesis rsv_opens : reserveSize_New_err env = None.
Hypothesis indexes_open : forall n, snd (NewIndex env n) = None.

Lemma withIndex_opens (n : string) (f : IndexFuncs) (onErr : error -> string)
    (k : ShedIndex -> M unit) (w : world) :
  withIndex env n f onErr k w
  = k (mkShedIndex n f (fst (NewIndex env n))) (logged w [OpNewIndex n]).
Proof.
  unfold withIndex, bind. rewrite emit_logged.
  specialize (indexes_open n). destruct (NewIndex env n) as [d e].
  cbn [snd] in indexes_open. now subst e.
Qed.

(** When the store opens without error, [main] runs the audit on the eight
    indexes with the codecs declared above, and closes the engine after. *)
Lemma startup_reaches_audit (w w1 : world) :
  fs w !! OS.Join (path env) "sharky" <> None ->
  sharky_New (mkDirFS (OS.Join (path env) "sharky")) 32 (sharky_New_err env) w
  = (w1, Returns None) ->
  exists w2, opened env w = audit env (indexesOf env) w2.
Proof.
  intros Hdir Hsharky. unfold opened, bind at 1, OS.notExist.
  destruct (fs w !! OS.Join (path env) "sharky") as [n|]; [|congruence].
  unfold bind at 1. rewrite Hsharky. cbn [is_err].
  rewrite field_opens, gc_opens, rsv_opens, schema_read. cbn [is_err].
  rewrite String.eqb_refl. cbn [negb].
  unfold bind. rewrite !emit_logged. rewrite !withIndex_opens.
  eexists. reflexivity.
Qed.

End Startup.

Section ProximityFacts.





End ProximityFacts.

(* ===================================================================== *)
(** ** Runs on the demo store *)
(* ===================================================================== *)

(** The blob store answers on each record of a list given in full. *)
Ltac answering :=
  repeat (apply List.Forall_cons;
          [ do 2 eexists; split;
            [reflexivity | intros _; do 2 eexists; reflexivity] | ]);
  apply List.Forall_nil.

Section Runs.

Import Demo.

Lemma referential_integrity_witness :
  funcs (retrievalDataIndex (indexesOf pinnedEnv)) = retrievalDataFuncs
  /\ referentialChecks (indexesOf pinnedEnv) [] (start files)
     = (logged (start files)
          (flat_map (checkOps (indexesOf pinnedEnv))
             (combine (secondaries (indexesOf pinnedEnv))
                      [[]; []; []; []; [pinItem]; []; []])),
        Returns ["item in pinIdx and not in retrievalDataIndex "
                   +:+ hex addrA]).
Proof.
  split; [reflexivity|].
  apply (referential_integrity (indexesOf pinnedEnv) eq_refl
           [[]; []; []; []; [pinItem]; []; []] [] (start files)).
  repeat constructor.
Defined.

Lemma corruption_iff_neither_scheme_witness :
  snd (contentScan corruptEnv (indexesOf corruptEnv) [] [] (start files))
  = Returns ([], ["address " +:+ hex addrA; "address " +:+ hex addrB]).
Proof.
  destruct (corruption_iff_neither_scheme corruptEnv (indexesOf corruptEnv)
              [primaryItem addrA; primaryItem addrB]
              ltac:(repeat constructor) [] [] (start files))
    as (_ & H & _).
  apply H. answering.
Defined.

(** C3.  With gcSize = 2^63, reserveSize = 0 and ten primary records the sum
    exceeds the count, and the counter check records nothing: the unsigned
    sum is converted to a signed [int] before the comparison.  On the two
    examples of the specification the check answers as stated. *)
Theorem counter_bound_wraps :
  2 ^ 63 + 0 > 10
  /\ snd (counterBound (countersEnv (2 ^ 63, None) (0, None))
            (indexesOf (countersEnv (2 ^ 63, None) (0, None))) []
            (start files))
     = Returns []
  /\ snd (counterBound (countersEnv (6, None) (5, None))
            (indexesOf (countersEnv (6, None) (5, None))) [] (start files))
     = Returns ["gcSize+reserveSize(11) > chunkCount(10)"]
  /\ snd (counterBound (countersEnv (5, None) (3, None))
            (indexesOf (countersEnv (5, None) (3, None))) [] (start files))
     = Returns [].
Proof. repeat split; vm_compute; reflexivity. Qed.

(** C4.  Two primary records with different addresses whose blob read
    fails: each is recorded as one inconsistency and no corruption, and the
    scan goes on, but the message carries the read error only, not the
    address, so the two messages are the same. *)
Theorem read_failure_omits_address :
  addrA <> addrB
  /\ snd (contentScan unreadableEnv (indexesOf unreadableEnv) [] []
            (start files))
     = Returns (["cannot read location from sharky EOF";
                 "cannot read location from sharky EOF"], []).
Proof. split; [discriminate | vm_compute; reflexivity]. Qed.

(** C5.  An iterator failure on the pin index is reported by one critical
    message; the same failure on the scan of the primary index leaves no
    trace, and the run reports that nothing was found. *)
Theorem scan_failure_is_silent :
  stdout (fst (main brokenPinEnv (start files)))
  = [banner; "Check complete";
     "Found 1 inconsistencies in indexes" +:+ nl;
     "INCONSISTENCY: CRITICAL: failed checking pinIdx index" +:+ nl]
  /\ stdout (fst (main brokenPrimaryEnv (start files)))
     = [banner; "Check complete";
        "No inconsistencies or corruptions found" +:+ nl].
Proof. split; vm_compute; reflexivity. Qed.

Lemma short_value_panics :
  DecodeValue retrievalDataFuncs zeroItem (exact (make 128))
  = Panics "slice bounds out of range"
  /\ ~ (exists e msg,
          DecodeValue retrievalDataFuncs zeroItem (exact (make 128))
          = Returns (e, Some msg))
  /\ DecodeValue pushFuncs zeroItem (exact [x01; x02])
     = Returns (zeroItem, None).
Proof.
  split; [vm_compute; reflexivity | split].
  - intros (e & msg & H). vm_compute in H. discriminate.
  - vm_compute. reflexivity.
Qed.

Lemma short_value_never_reports_error_witness :
  (len (exact (make 10)) < valueHeader RetrievalData)%nat
  /\ DecodeValue (funcsOf RetrievalData) zeroItem (exact (make 10))
     = Panics "slice bounds out of range".
Proof.
  assert (H : (len (exact (make 10)) < valueHeader RetrievalData)%nat)
    by (vm_compute; lia).
  split; [exact H|].
  apply (short_value_never_reports_error zeroItem (exact (make 10))
           RetrievalData H).
  reflexivity.
Defined.



Lemma audit_creates_shard_file :
  fs (start files) !! "/ls/sharky/shard_000" = None
  /\ fs (fst (main emptyEnv (start files))) !! "/ls/sharky/shard_000"
     = Some (File []).
Proof. split; vm_compute; reflexivity. Qed.

Lemma counter_errors_ignored_witness :
  counterBound miscountedEnv (indexesOf miscountedEnv) [] (start files)
  = (logged (start files)
       [OpFieldGet "gc-size"; OpFieldGet "reserve-size"; OpCount primaryName],
     Returns ["gcSize+reserveSize(7) > chunkCount(2)"]).
Proof.
  apply (counter_errors_ignored miscountedEnv (indexesOf miscountedEnv) []
           (start files) 3 4 2 (Some "leveldb: closed")
           (Some "leveldb: closed") (Some "leveldb: closed"));
    reflexivity.
Defined.

End Runs.

Section ValueLayout.

Lemma Uint32_be_bytes (v : Z) (sp : bytes) :
  Uint32 (Slice (be_bytes 4 v) sp) = Returns (v mod 2 ^ 32).
Proof.
  unfold Uint32, len. cbn [elems]. rewrite length_be_bytes.
  change (4 <=? 4)%nat with true. cbv iota.
  rewrite firstn_exact by apply length_be_bytes.
  now rewrite be_value_be_bytes.
Qed.

Lemma int64_read_back (x : Z) :
  - 2 ^ 63 <= x < 2 ^ 63 -> int64 (uint64 x mod 2 ^ 64) = x.
Proof.
  intros Hx. unfold uint64. rewrite Z.mod_mod by lia.
  now apply int64_uint64.
Qed.

Lemma PutUint32_at_middle (a b c : bytes) (off : nat) (v : Z) :
  off = length a -> length b = 4%nat ->
  PutUint32_at (a ++ b ++ c) off v = a ++ be_bytes 4 v ++ c.
Proof.
  intros Hoff Hb. unfold PutUint32_at.
  apply copy_range_middle; rewrite ?length_be_bytes; lia.
Qed.

Lemma retrievalAccess_value_layout (r : Item) :
  retrievalAccess_EncodeValue r
  = Returns (be_bytes 8 (uint64 (AccessTimestamp r)), None).
Proof.
  unfold retrievalAccess_EncodeValue.
  change (make 8) with ([] ++ make 8 ++ []).
  rewrite PutUint64_at_middle by (rewrite ?length_make; reflexivity).
  cbn [app]. now rewrite app_nil_r.
Qed.

Lemma pin_value_layout (r : Item) :
  pin_EncodeValue r = Returns (be_bytes 8 (PinCounter r), None).
Proof.
  unfold pin_EncodeValue.
  change (make 8) with ([] ++ make 8 ++ []).
  rewrite PutUint64_at_middle by (rewrite ?length_make; reflexivity).
  cbn [app]. now rewrite app_nil_r.
Qed.

Lemma push_value_layout (r : Item) :
  push_EncodeValue r = Returns (be_bytes 4 (Tag r), None).
Proof.
  unfold push_EncodeValue.
  change (make 4) with ([] ++ make 4 ++ []).
  rewrite PutUint32_at_middle by (rewrite ?length_make; reflexivity).
  cbn [app]. now rewrite app_nil_r.
Qed.

(** Two fields copied one after the other into a buffer made for them. *)
Lemma two_fields_layout (n m : nat) (a b : bytes) :
  length a = n -> length b = m ->
  copy_at (copy_at (make (n + m)) 0 a) n b = a ++ b.
Proof.
  intros Ha Hb.
  replace (make (n + m)) with ([] ++ make n ++ make m)
    by (unfold make; now rewrite repeat_app).
  rewrite copy_at_middle by (rewrite ?length_make; cbn [length]; lia).
  cbn [app]. rewrite <- (app_nil_r (make m)).
  rewrite copy_at_middle by (rewrite ?length_make; lia).
  now rewrite app_nil_r.
Qed.

Lemma pull_value_layout (r : Item) :
  length (Address r) = 32%nat -> length (BatchID r) = 32%nat ->
  pull_EncodeValue r = Returns (Address r ++ BatchID r, None).
Proof.
  intros Ha Hb. unfold pull_EncodeValue.
  change (make 64) with (make (32 + 32)). now rewrite two_fields_layout.
Qed.

Lemma gc_value_layout (r : Item) :
  length (BatchID r) = 32%nat -> length (Index r) = 8%nat ->
  gc_EncodeValue r = Returns (BatchID r ++ Index r, None).
Proof.
  intros Hb Hi. unfold gc_EncodeValue.
  change (make 40) with (make (32 + 8)). now rewrite two_fields_layout.
Qed.

Lemma postageIndex_value_layout (r : Item) :
  length (Address r) = 32%nat -> length (Timestamp r) = 8%nat ->
  postageIndex_EncodeValue r = Returns (Address r ++ Timestamp r, None).
Proof.
  intros Ha Ht. unfold postageIndex_EncodeValue.
  change (make 40) with (make (32 + 8)). now rewrite two_fields_layout.
Qed.

End ValueLayout.

Section ValueRoundTrip.

Variable r : Item.
Variable keyItem : Item.
Variable sp : bytes.
Hypothesis HAddress : length (Address r) = 32%nat.
Hypothesis HBatchID : length (BatchID r) = 32%nat.
Hypothesis HIndex : length (Index r) = 8%nat.
Hypothesis HTimestamp : length (Timestamp r) = 8%nat.
Hypothesis HAccess : - 2 ^ 63 <= AccessTimestamp r < 2 ^ 63.
Hypothesis HPin : 0 <= PinCounter r < 2 ^ 64.
Hypothesis HTag : 0 <= Tag r < 2 ^ 32.

Lemma retrievalAccess_value_decodes :
  retrievalAccess_DecodeValue keyItem
    (Slice (be_bytes 8 (uint64 (AccessTimestamp r))) sp)
  = Returns (valueFields RetrievalAccess r, None).
Proof.
  unfold retrievalAccess_DecodeValue. rewrite Uint64_be_bytes.
  cbn [obind valueFields]. now rewrite int64_read_back.
Qed.

Lemma pin_value_decodes :
  pin_DecodeValue keyItem (Slice (be_bytes 8 (PinCounter r)) sp)
  = Returns (valueFields Pin r, None).
Proof.
  unfold pin_DecodeValue, slice_to.
  change (be_bytes 8 (PinCounter r)) with ([] ++ be_bytes 8 (PinCounter r) ++ [])
    at 1.
  rewrite reslice_middle by lens. cbn [obind].
  rewrite Uint64_be_bytes. cbn [obind valueFields].
  now rewrite Z.mod_small by lia.
Qed.

Lemma push_value_decodes :
  push_DecodeValue keyItem (Slice (be_bytes 4 (Tag r)) sp)
  = Returns (valueFields Push r, None).
Proof.
  unfold push_DecodeValue, len. cbn [elems]. rewrite length_be_bytes.
  change (4 =? 4)%nat with true. cbv iota.
  rewrite Uint32_be_bytes. cbn [obind valueFields].
  now rewrite Z.mod_small by lia.
Qed.

Lemma pull_value_decodes :
  pull_DecodeValue keyItem (Slice (Address r ++ BatchID r) sp)
  = Returns (valueFields Pull r, None).
Proof.
  unfold pull_DecodeValue, slice_to.
  change (Address r ++ BatchID r) with ([] ++ Address r ++ BatchID r) at 1.
  rewrite reslice_middle by lens. cbn [obind elems].
  rewrite <- (app_nil_r (BatchID r)).
  rewrite reslice_middle by lens. reflexivity.
Qed.

Lemma gc_value_decodes :
  gc_DecodeValue keyItem (Slice (BatchID r ++ Index r) sp)
  = Returns (valueFields Gc r, None).
Proof.
  unfold gc_DecodeValue, slice_to, slice_from.
  change (BatchID r ++ Index r) with ([] ++ BatchID r ++ Index r) at 1.
  rewrite reslice_middle by lens. cbn [obind elems].
  rewrite <- (app_nil_r (Index r)) at 1.
  rewrite reslice_middle by lens. cbn [obind elems].
  rewrite (copy_at_prefix 32), (copy_at_prefix Postage.IndexSize)
    by (unfold Postage.IndexSize; lia).
  rewrite HBatchID, HIndex. cbn [make repeat Nat.sub Postage.IndexSize].
  now rewrite !app_nil_r.
Qed.

Lemma postageIndex_value_decodes :
  postageIndex_DecodeValue keyItem (Slice (Address r ++ Timestamp r) sp)
  = Returns (valueFields PostageIndex r, None).
Proof.
  unfold postageIndex_DecodeValue, slice_to, slice_from.
  change (Address r ++ Timestamp r) with ([] ++ Address r ++ Timestamp r) at 1.
  rewrite reslice_middle by lens. cbn [obind elems].
  rewrite <- (app_nil_r (Timestamp r)) at 1.
  rewrite reslice_middle by lens. reflexivity.
Qed.

(** X1.  Value round trip of the seven secondary indexes.  For a record
    whose address and batch id have 32 bytes, whose batch index and stamp
    timestamp have 8, and whose access timestamp, pin counter and tag fit
    their encodings, [EncodeValue] of any index but the primary one returns
    bytes without error, and [DecodeValue] of these bytes, whatever key item
    it is handed and whatever spare capacity the slice has, returns without
    error exactly the fields of the record the value holds, every other field
    at its zero value. *)
Theorem secondary_value_roundtrip (ix : IndexId) :
  ix <> RetrievalData ->
  exists v,
    EncodeValue (funcsOf ix) r = Returns (v, None) /\
    DecodeValue (funcsOf ix) keyItem (Slice v sp)
    = Returns (valueFields ix r, None).
Proof.
  intros Hix. destruct ix; try congruence; open_codec.
  - eexists. split;
      [apply retrievalAccess_value_layout | apply retrievalAccess_value_decodes].
  - eexists. split; [now apply pull_value_layout | apply pull_value_decodes].
  - eexists. split; [apply push_value_layout | apply push_value_decodes].
  - eexists. split; [now apply gc_value_layout | apply gc_value_decodes].
  - eexists. split; [apply pin_value_layout | apply pin_value_decodes].
  - exists []. split; reflexivity.
  - eexists. split;
      [now apply postageIndex_value_layout | apply postageIndex_value_decodes].
Qed.

End ValueRoundTrip.

Section PrimaryValue.

Import Postage.

Lemma stamp_layout (b i t s : bytes) :
  length b = 32%nat -> length i = 8%nat -> length t = 8%nat ->
  length s = 65%nat ->
  MarshalBinary (NewStamp b i t s) = (b ++ i ++ t ++ s, None).
Proof.
  intros Hb Hi Ht Hs. unfold MarshalBinary.
  cbn [stamp_batchID stamp_index stamp_timestamp stamp_sig].
  change (make StampSize) with ([] ++ make 32 ++ (make 8 ++ make 8 ++ make 65)).
  rewrite copy_at_middle by (rewrite ?length_make; cbn [length]; lia).
  cbn [app].
  rewrite copy_range_middle by (rewrite ?length_make; lia).
  rewrite (app_assoc b i).
  rewrite copy_range_middle
    by (rewrite ?length_app, ?length_make; lia).
  rewrite (app_assoc (b ++ i) t). rewrite <- (app_nil_r (make 65)).
  rewrite copy_at_middle by (rewrite ?length_app, ?length_make; lia).
  now rewrite app_nil_r, <- !app_assoc.
Qed.

Lemma stamp_read_back (b i t s sp : bytes) :
  length b = 32%nat -> length i = 8%nat -> length t = 8%nat ->
  length s = 65%nat ->
  UnmarshalBinary (Slice (b ++ i ++ t ++ s) sp) = (NewStamp b i t s, None).
Proof.
  intros Hb Hi Ht Hs. unfold UnmarshalBinary, len. cbn [elems].
  rewrite !length_app, Hb, Hi, Ht, Hs.
  change (32 + (8 + (8 + 65)) =? StampSize)%nat with true. cbn [negb].
  f_equal. f_equal.
  - rewrite firstn_app, Hb, Nat.sub_diag, firstn_O, app_nil_r.
    now apply firstn_exact.
  - rewrite skipn_app, Hb, Nat.sub_diag, skipn_O.
    rewrite (skipn_all2 (n := 32)) by lia. cbn [app].
    rewrite firstn_app, Hi, Nat.sub_diag, firstn_O, app_nil_r.
    now apply firstn_exact.
  - rewrite app_assoc, skipn_app, length_app, Hb, Hi. cbn [Nat.add Nat.sub].
    rewrite (skipn_all2 (n := 40)) by (rewrite length_app; lia).
    rewrite skipn_O. cbn [app].
    rewrite firstn_app, Ht, Nat.sub_diag, firstn_O, app_nil_r.
    now apply firstn_exact.
  - rewrite !app_assoc, skipn_app, !length_app, Hb, Hi, Ht.
    cbn [Nat.add Nat.sub].
    rewrite (skipn_all2 (n := 48)) by (rewrite !length_app; lia).
    now rewrite skipn_O.
Qed.

Variable r : Item.
Variable keyItem : Item.
Variable sp : bytes.
Hypothesis HBatchID : length (BatchID r) = 32%nat.
Hypothesis HIndex : length (Index r) = 8%nat.
Hypothesis HTimestamp : length (Timestamp r) = 8%nat.
Hypothesis HSig : length (Sig r) = 65%nat.
Hypothesis HBinID : 0 <= BinID r < 2 ^ 64.
Hypothesis HStore : - 2 ^ 63 <= StoreTimestamp r < 2 ^ 63.

Lemma retrievalData_value_layout :
  retrievalData_EncodeValue r
  = Returns (be_bytes 8 (BinID r) ++ be_bytes 8 (uint64 (StoreTimestamp r))
               ++ (BatchID r ++ Index r ++ Timestamp r ++ Sig r)
               ++ Location r, None).
Proof.
  unfold retrievalData_EncodeValue.
  rewrite stamp_layout by assumption.
  change (make headerSize) with ([] ++ make 8 ++ (make 8 ++ make 113)).
  rewrite PutUint64_at_middle by (rewrite ?length_make; reflexivity).
  cbn [app].
  rewrite PutUint64_at_middle by lens.
  rewrite app_assoc. rewrite <- (app_nil_r (make 113)).
  rewrite copy_at_middle
    by (rewrite ?length_app, ?length_be_bytes, ?length_make; lia).
  now rewrite app_nil_r, <- !app_assoc.
Qed.

Lemma Uint64_exact (b sp' : bytes) :
  length b = 8%nat -> Uint64 (Slice b sp') = Returns (be_value b).
Proof.
  intros H. unfold Uint64, len. cbn [elems]. rewrite H.
  change (8 <=? 8)%nat with true. cbv iota. now rewrite firstn_exact.
Qed.

Lemma retrievalData_value_decodes :
  retrievalData_DecodeValue keyItem
    (Slice (be_bytes 8 (BinID r) ++ be_bytes 8 (uint64 (StoreTimestamp r))
              ++ (BatchID r ++ Index r ++ Timestamp r ++ Sig r)
              ++ Location r) sp)
  = Returns (valueFields RetrievalData r, None).
Proof.
  unfold retrievalData_DecodeValue, slice_to, slice_from.
  assert (Ebin : be_value (be_bytes 8 (BinID r)) = BinID r)
    by (rewrite be_value_be_bytes; apply Z.mod_small; lia).
  assert (Ets : int64 (be_value (be_bytes 8 (uint64 (StoreTimestamp r))))
                = StoreTimestamp r)
    by (rewrite be_value_be_bytes; now apply int64_read_back).
  assert (Lbin : length (be_bytes 8 (BinID r)) = 8%nat) by apply length_be_bytes.
  assert (Lts : length (be_bytes 8 (uint64 (StoreTimestamp r))) = 8%nat)
    by apply length_be_bytes.
  revert Ebin Ets Lbin Lts.
  generalize (be_bytes 8 (BinID r)) as bin.
  generalize (be_bytes 8 (uint64 (StoreTimestamp r))) as ts.
  intros ts bin Ebin Ets Lbin Lts.
  assert (Lstamp : length (BatchID r ++ Index r ++ Timestamp r ++ Sig r)
                   = 113%nat) by (rewrite !length_app; lia).
  rewrite (reslice_middle bin ts) by lia.
  cbn [obind]. rewrite Uint64_exact by assumption. cbn [obind].
  change (bin ++ ts ++ (BatchID r ++ Index r ++ Timestamp r ++ Sig r)
            ++ Location r)
    with ([] ++ bin ++ ts ++ (BatchID r ++ Index r ++ Timestamp r ++ Sig r)
            ++ Location r) at 1.
  rewrite reslice_middle by (cbn [length]; lia).
  cbn [obind]. rewrite Uint64_exact by assumption. cbn [obind].
  rewrite (app_assoc bin ts).
  rewrite (reslice_middle (bin ++ ts))
    by (rewrite ?length_app; unfold headerSize, StampSize; lia).
  cbn [obind]. rewrite stamp_read_back by assumption.
  cbn [stamp_batchID stamp_index stamp_timestamp stamp_sig].
  rewrite (app_assoc (bin ++ ts)). rewrite <- (app_nil_r (Location r)) at 1.
  rewrite reslice_middle
    by (unfold len; cbn [elems]; rewrite ?length_app; cbn [length];
        unfold headerSize, StampSize; lia).
  cbn [obind elems valueFields]. rewrite Ebin, Ets. reflexivity.
Qed.

(** X2.  Value round trip of the primary index.  For a record whose stamp
    has the widths of a postage stamp (batch id 32, index 8, timestamp 8,
    signature 65 bytes) and whose bin id and store timestamp fit 64 bits,
    [EncodeValue] returns without error a value of [headerSize] (129) bytes
    followed by the location bytes, and [DecodeValue] of that value returns
    without error the store timestamp, bin id, stamp fields and location of
    the record, and no other field. *)
Theorem primary_value_roundtrip :
  exists v,
    EncodeValue retrievalDataFuncs r = Returns (v, None) /\
    length v = (headerSize + length (Location r))%nat /\
    DecodeValue retrievalDataFuncs keyItem (Slice v sp)
    = Returns (valueFields RetrievalData r, None).
Proof.
  eexists. split; [apply retrievalData_value_layout|]. split.
  - rewrite !length_app, !length_be_bytes, HBatchID, HIndex, HTimestamp, HSig.
    unfold headerSize, StampSize. lia.
  - apply retrievalData_value_decodes.
Qed.

End PrimaryValue.

Section EntryRoundTrip.

Lemma or_bytes_nil_r (a : bytes) : or_bytes a [] = a.
Proof. now destruct a. Qed.

Lemma or_int_0_r (a : Z) : or_int a 0 = a.
Proof. unfold or_int. destruct (Z.eqb_spec a 0); congruence. Qed.

Variable r : Item.
Variables kspare vspare : bytes.
Hypothesis HAddress : length (Address r) = 32%nat.
Hypothesis HBatchID : length (BatchID r) = 32%nat.
Hypothesis HIndex : length (Index r) = 8%nat.
Hypothesis HTimestamp : length (Timestamp r) = 8%nat.
Hypothesis HBinID : 0 <= BinID r < 2 ^ 64.
Hypothesis HStore : - 2 ^ 63 <= StoreTimestamp r < 2 ^ 63.
Hypothesis HAccess : - 2 ^ 63 <= AccessTimestamp r < 2 ^ 63.
Hypothesis HPin : 0 <= PinCounter r < 2 ^ 64.
Hypothesis HTag : 0 <= Tag r < 2 ^ 32.

Ltac merged :=
  unfold Merge, keyFields, valueFields, entryFields, zeroItem;
  cbn [Address Location AccessTimestamp StoreTimestamp BinID PinCounter Tag
       BatchID Index Timestamp Sig set_Address set_Location
       set_AccessTimestamp set_StoreTimestamp set_BinID set_PinCounter
       set_Tag set_BatchID set_Index set_Timestamp set_Sig];
  rewrite ?or_bytes_nil_r, ?or_int_0_r; reflexivity.

(** X3.  Entry round trip of the seven secondary indexes.  For a record in
    range, the key and the value the codec encodes are turned back by the
    iterator ([DecodeKey], [DecodeValue], then [Merge]) into the fields of the
    record that the entry holds: nothing is lost between key and value, and
    no field the index does not store is set. *)
Theorem secondary_entry_roundtrip (ix : IndexId) :
  ix <> RetrievalData ->
  exists k v,
    EncodeKey (funcsOf ix) r = Returns (k, None) /\
    EncodeValue (funcsOf ix) r = Returns (v, None) /\
    itemFromIterator (funcsOf ix) (Slice k kspare, Slice v vspare)
    = Returns (entryFields ix r, None).
Proof.
  intros Hix. unfold itemFromIterator. cbn [fst snd].
  destruct ix; try congruence; open_codec.
  - exists (Address r). eexists.
    split; [reflexivity|]. split; [apply retrievalAccess_value_layout|].
    unfold retrievalAccess_DecodeKey. cbn [obind elems].
    rewrite retrievalAccess_value_decodes by assumption. cbn [obind].
    f_equal. f_equal. merged.
  - do 2 eexists.
    split; [apply pull_key_layout|]. split; [now apply pull_value_layout|].
    rewrite pull_key_decodes by assumption. cbn [obind].
    rewrite pull_value_decodes by assumption. cbn [obind].
    f_equal. f_equal. merged.
  - do 2 eexists.
    split; [now apply push_key_layout|]. split; [apply push_value_layout|].
    rewrite push_key_decodes by assumption. cbn [obind].
    rewrite push_value_decodes by assumption. cbn [obind].
    f_equal. f_equal. merged.
  - do 2 eexists.
    split; [apply gc_key_layout|]. split; [now apply gc_value_layout|].
    rewrite gc_key_decodes by assumption. cbn [obind].
    rewrite gc_value_decodes by assumption. cbn [obind].
    f_equal. f_equal. merged.
  - exists (Address r). eexists.
    split; [reflexivity|]. split; [apply pin_value_layout|].
    unfold pin_DecodeKey. cbn [obind elems].
    rewrite pin_value_decodes by assumption. cbn [obind].
    f_equal. f_equal. merged.
  - do 2 eexists.
    split; [now apply postageChunks_key_layout|]. split; [reflexivity|].
    rewrite postageChunks_key_decodes by assumption. cbn [obind].
    unfold postageChunks_DecodeValue. cbn [obind].
    f_equal. f_equal. merged.
  - do 2 eexists.
    split; [now apply postageIndex_key_layout|].
    split; [now apply postageIndex_value_layout|].
    rewrite postageIndex_key_decodes by assumption. cbn [obind].
    rewrite postageIndex_value_decodes by assumption. cbn [obind].
    f_equal. f_equal. merged.
Qed.

End EntryRoundTrip.

Section DecodingDomain.

Lemma reslice_ok (s : slice) (lo hi : nat) :
  (lo <= hi)%nat -> (hi <= cap s)%nat ->
  exists s', reslice s lo hi = Returns s' /\ len s' = (hi - lo)%nat /\
             elems s' = firstn (hi - lo) (skipn lo (backing s)).
Proof.
  intros H1 H2.
  destruct (reslice_total s lo hi) as [[s' E]|E].
  - exists s'. split; [exact E|]. apply reslice_inv in E. tauto.
  - exfalso. unfold reslice in E.
    destruct (Nat.leb_spec lo hi); destruct (Nat.leb_spec hi (cap s));
      try lia; discriminate.
Qed.

Lemma len_le_cap (s : slice) : (len s <= cap s)%nat.
Proof. unfold len, cap. lia. Qed.

Variable keyItem : Item.
Variable value : slice.

Ltac take_slice lo hi s L E :=
  let H := fresh in
  destruct (reslice_ok value lo hi) as (s & H & L & E);
  [ lia | pose proof (len_le_cap value); lia | rewrite H; cbn [obind] ].

Lemma retrievalData_long :
  (headerSize <= len value)%nat ->
  exists e, retrievalData_DecodeValue keyItem value = Returns (e, None)
            /\ Location e = skipn headerSize (elems value).
Proof.
  intros Hlong. unfold headerSize, Postage.StampSize in Hlong.
  unfold retrievalData_DecodeValue, slice_to, slice_from.
  take_slice 8%nat 16%nat s1 L1 E1. rewrite Uint64_ok by lia. cbn [obind].
  take_slice 0%nat 8%nat s2 L2 E2. rewrite Uint64_ok by lia. cbn [obind].
  destruct (reslice_ok value 16 headerSize) as (s3 & H3 & L3 & E3);
    [ unfold headerSize, Postage.StampSize; lia
    | pose proof (len_le_cap value); unfold headerSize, Postage.StampSize; lia
    | rewrite H3; cbn [obind] ].
  unfold Postage.UnmarshalBinary. rewrite L3.
  change (headerSize - 16 =? Postage.StampSize)%nat with true.
  cbn [negb]. cbv iota beta.
  destruct (reslice_ok value headerSize (len value)) as (s4 & H4 & L4 & E4);
    [ unfold headerSize, Postage.StampSize; lia
    | apply len_le_cap
    | rewrite H4; cbn [obind] ].
  eexists. split; [reflexivity|]. cbn [Location set_Location]. rewrite E4.
  unfold backing. rewrite skipn_app.
  replace (headerSize - length (elems value))%nat with 0%nat
    by (unfold len, headerSize, Postage.StampSize in *; lia).
  rewrite skipn_O, firstn_app.
  rewrite firstn_all2 by (rewrite length_skipn; unfold len; lia).
  rewrite length_skipn.
  replace (len value - headerSize - (length (elems value) - headerSize))%nat
    with 0%nat by (unfold len; lia).
  now rewrite firstn_O, app_nil_r.
Qed.

(** X4.  The domain of the value decoders.  A value with at least as many
    bytes as [EncodeValue] of its index allocates (8, 64, 4, 40, 8, 0 and 40
    for the secondary indexes, 129 for the primary one) always decodes: [DecodeValue] returns a
    record and no error.  For the primary index the location is every byte
    after the 129-byte header. *)
Theorem long_value_decodes (ix : IndexId) :
  (valueHeader ix <= len value)%nat ->
  exists e,
    DecodeValue (funcsOf ix) keyItem value = Returns (e, None)
    /\ (ix = RetrievalData -> Location e = skipn headerSize (elems value)).
Proof.
  intros Hlong. destruct ix; open_codec.
  - destruct (retrievalData_long Hlong) as (e & He & Hl). eauto.
  - unfold retrievalAccess_DecodeValue. rewrite Uint64_ok by lia.
    cbn [obind]. eexists. split; [reflexivity | congruence].
  - unfold pull_DecodeValue, slice_to.
    take_slice 0%nat 32%nat a La Ea. take_slice 32%nat 64%nat b Lb Eb.
    eexists. split; [reflexivity | congruence].
  - unfold push_DecodeValue, Uint32.
    destruct (len value =? 4)%nat eqn:E4.
    + apply Nat.eqb_eq in E4. rewrite E4. cbn [Nat.leb obind].
      eexists. split; [reflexivity | congruence].
    + eexists. split; [reflexivity | congruence].
  - unfold Postage.IndexSize in Hlong.
    unfold gc_DecodeValue, slice_to, slice_from.
    take_slice 0%nat 32%nat a La Ea.
    destruct (reslice_ok value 32 (len value)) as (b & Hb & Lb & Eb);
      [ lia | apply len_le_cap | rewrite Hb; cbn [obind] ].
    eexists. split; [reflexivity | congruence].
  - unfold pin_DecodeValue, slice_to.
    take_slice 0%nat 8%nat a La Ea. rewrite Uint64_ok by lia. cbn [obind].
    eexists. split; [reflexivity | congruence].
  - unfold postageChunks_DecodeValue. eexists. split; [reflexivity | congruence].
  - unfold postageIndex_DecodeValue, slice_to, slice_from.
    take_slice 0%nat 32%nat a La Ea.
    destruct (reslice_ok value 32 (len value)) as (b & Hb & Lb & Eb);
      [ lia | apply len_le_cap | rewrite Hb; cbn [obind] ].
    eexists. split; [reflexivity | congruence].
Qed.

End DecodingDomain.

Section KeyDomain.

Variable key : slice.
Hypothesis exact_capacity : spare key = [].

Ltac key_slice lo hi s L E :=
  let H := fresh in
  destruct (reslice_ok key lo hi) as (s & H & L & E);
  [ lia | rewrite cap_exact by assumption; lia | rewrite H; cbn [obind] ].

Ltac panics_at := rewrite reslice_panics
  by (rewrite cap_exact by assumption; lia).

(** X5.  The domain of the key decoders.  On a key without spare capacity,
    [DecodeKey] never returns an error value; it returns a record exactly when
    the key has the bytes the decoder slices (9 for pull, 8 for push, 16 for
    gc, 65 for postage chunks, 40 for postage index; any key for the three
    indexes keyed by the address alone), and stops the program otherwise. *)
Theorem key_decoding_domain (ix : IndexId) :
  (forall e msg, DecodeKey (funcsOf ix) key <> Returns (e, Some msg))
  /\ ((exists e, DecodeKey (funcsOf ix) key = Returns (e, None))
      <-> (forall n, keyLength ix = Some n -> (n <= len key)%nat)).
Proof.
  destruct ix; open_codec; cbn [keyLength].
  - split; [intros; unfold retrievalData_DecodeKey; congruence|].
    split; [congruence | intros _; eexists; reflexivity].
  - split; [intros; unfold retrievalAccess_DecodeKey; congruence|].
    split; [congruence | intros _; eexists; reflexivity].
  - unfold pull_DecodeKey.
    destruct (le_lt_dec 9 (len key)) as [Hl|Hs].
    + key_slice 1%nat 9%nat s L E. rewrite Uint64_ok by lia. cbn [obind].
      split; [congruence|]. split; [intros _ n [= <-]; lia | eauto].
    + panics_at. cbn [obind].
      split; [congruence|]. split; [intros [e He]; discriminate|].
      intros H. specialize (H 9%nat eq_refl). lia.
  - unfold push_DecodeKey, slice_from, slice_to.
    destruct (le_lt_dec 8 (len key)) as [Hl|Hs].
    + key_slice 8%nat (len key) a La Ea.
      key_slice 0%nat 8%nat s L E. rewrite Uint64_ok by lia. cbn [obind].
      split; [congruence|]. split; [intros _ n [= <-]; lia | eauto].
    + panics_at. cbn [obind].
      split; [congruence|]. split; [intros [e He]; discriminate|].
      intros H. specialize (H 8%nat eq_refl). lia.
  - unfold gc_DecodeKey, slice_from, slice_to.
    destruct (le_lt_dec 16 (len key)) as [Hl|Hs].
    + key_slice 0%nat 8%nat s L E. rewrite Uint64_ok by lia. cbn [obind].
      key_slice 8%nat 16%nat s' L' E'. rewrite Uint64_ok by lia. cbn [obind].
      key_slice 16%nat (len key) a La Ea.
      split; [congruence|]. split; [intros _ n [= <-]; lia | eauto].
    + split; [|split].
      * intros e msg.
        destruct (reslice_total key 0 8) as [[s E]|E]; rewrite E;
          cbn [obind]; [|congruence].
        destruct (Uint64 s) as [u|m]; cbn [obind]; [|congruence].
        destruct (reslice_total key 8 16) as [[s' E']|E']; rewrite E';
          cbn [obind]; [|congruence].
        destruct (Uint64 s') as [u'|m']; cbn [obind]; [|congruence].
        destruct (reslice_total key 16 (len key)) as [[a Ea]|Ea]; rewrite Ea;
          cbn [obind]; congruence.
      * intros [e He]. exfalso. revert He.
        destruct (reslice_total key 0 8) as [[s E]|E]; rewrite E;
          cbn [obind]; [|discriminate].
        destruct (Uint64 s) as [u|m]; cbn [obind]; [|discriminate].
        replace (reslice key 8 16) with (@Panics slice "slice bounds out of range")
          by (symmetry; apply reslice_panics; rewrite cap_exact by assumption; lia).
        discriminate.
      * intros H. specialize (H 16%nat eq_refl). lia.
  - split; [intros; unfold pin_DecodeKey; congruence|].
    split; [congruence | intros _; eexists; reflexivity].
  - unfold postageChunks_DecodeKey, slice_to.
    destruct (le_lt_dec 65 (len key)) as [Hl|Hs].
    + key_slice 0%nat 32%nat s L E. key_slice 33%nat 65%nat a La Ea.
      split; [congruence|]. split; [intros _ n [= <-]; lia | eauto].
    + split; [|split].
      * intros e msg.
        destruct (reslice_total key 0 32) as [[s E]|E]; rewrite E;
          cbn [obind]; [|congruence].
        destruct (reslice_total key 33 65) as [[a Ea]|Ea]; rewrite Ea;
          cbn [obind]; congruence.
      * intros [e He]. exfalso. revert He.
        destruct (reslice_total key 0 32) as [[s E]|E]; rewrite E;
          cbn [obind]; [|discriminate].
        panics_at. discriminate.
      * intros H. specialize (H 65%nat eq_refl). lia.
  - unfold postageIndex_DecodeKey, slice_to.
    destruct (le_lt_dec 40 (len key)) as [Hl|Hs].
    + key_slice 0%nat 32%nat s L E. key_slice 32%nat 40%nat a La Ea.
      split; [congruence|]. split; [intros _ n [= <-]; lia | eauto].
    + split; [|split].
      * intros e msg.
        destruct (reslice_total key 0 32) as [[s E]|E]; rewrite E;
          cbn [obind]; [|congruence].
        destruct (reslice_total key 32 40) as [[a Ea]|Ea]; rewrite Ea;
          cbn [obind]; congruence.
      * intros [e He]. exfalso. revert He.
        destruct (reslice_total key 0 32) as [[s E]|E]; rewrite E;
          cbn [obind]; [|discriminate].
        panics_at. discriminate.
      * intros H. specialize (H 40%nat eq_refl). lia.
Qed.

End KeyDomain.

Section KeyLengths.

Lemma length_copy_at (dst src : bytes) (off : nat) :
  (off <= length dst)%nat -> length (copy_at dst off src) = length dst.
Proof.
  intros H. unfold copy_at.
  rewrite !length_app, !length_firstn, length_skipn. lia.
Qed.

Lemma length_copy_range (dst src : bytes) (lo hi : nat) :
  (lo <= length dst)%nat -> length (copy_range dst lo hi src) = length dst.
Proof. intros H. unfold copy_range. now apply length_copy_at. Qed.

Lemma length_PutUint64_at (dst : bytes) (off : nat) (v : Z) :
  (off <= length dst)%nat -> length (PutUint64_at dst off v) = length dst.
Proof. intros H. unfold PutUint64_at. now apply length_copy_range. Qed.

(** X6.  [EncodeKey] never fails and the keys have these lengths, whatever
    the record: 9 bytes for pull; 40 for push and for postage index, whose
    address and batch fields are copied into a buffer of fixed size; 65 for
    postage chunks; 16 bytes and the address for gc; and the address itself
    for the primary, access and pin indexes. *)
Theorem key_lengths (ix : IndexId) (r : Item) :
  exists k,
    EncodeKey (funcsOf ix) r = Returns (k, None)
    /\ length k = match ix with
                  | Pull => 9
                  | Push | PostageIndex => 40
                  | Gc => 16 + length (Address r)
                  | PostageChunks => 65
                  | RetrievalData | RetrievalAccess | Pin => length (Address r)
                  end%nat.
Proof.
  destruct ix; open_codec; eexists; (split; [reflexivity|]);
    rewrite ?length_app, ?length_copy_at, ?length_copy_range,
      ?length_PutUint64_at, ?length_make;
    rewrite ?length_copy_at, ?length_copy_range, ?length_PutUint64_at,
      ?length_make; try reflexivity; try lia.
Qed.

End KeyLengths.

Section KeyOrder.

Lemma byte_of_Z_mod (z : Z) : byte_of_Z (z mod 256) = byte_of_Z z.
Proof. unfold byte_of_Z. now rewrite Z.mod_mod by lia. Qed.

Lemma be_bytes_mod (m k : nat) (v : Z) :
  (m <= k)%nat -> be_bytes m (v mod 2 ^ (8 * Z.of_nat k)) = be_bytes m v.
Proof.
  induction m as [|m IH]; intros Hk; cbn [be_bytes]; [reflexivity|].
  rewrite IH by lia. f_equal.
  rewrite <- (byte_of_Z_mod (Z.shiftr (v mod _) _)).
  rewrite <- (byte_of_Z_mod (Z.shiftr v _)). f_equal.
  change 256 with (2 ^ 8).
  apply Z.bits_inj'. intros i Hi.
  destruct (Z_lt_le_dec i 8) as [Hlo|Hhi].
  - rewrite !Z.mod_pow2_bits_low by lia. rewrite !Z.shiftr_spec by lia.
    rewrite Z.mod_pow2_bits_low by lia. reflexivity.
  - rewrite !Z.mod_pow2_bits_high by lia. reflexivity.
Qed.

Lemma top_byte (m : nat) (v : Z) :
  0 <= v < 2 ^ (8 * Z.of_nat (S m)) ->
  Z_of_byte (byte_of_Z (Z.shiftr v (8 * Z.of_nat m))) = v / 2 ^ (8 * Z.of_nat m).
Proof.
  intros Hv. rewrite Z_of_byte_of_Z, Z.shiftr_div_pow2 by lia.
  apply Z.mod_small. split; [apply Z.div_pos; lia|].
  apply Z.div_lt_upper_bound; [lia|].
  replace (8 * Z.of_nat (S m)) with (8 * Z.of_nat m + 8) in Hv by lia.
  rewrite Z.pow_add_r in Hv by lia. lia.
Qed.

(** Big-endian encoding is monotone for the byte-wise order. *)
Lemma be_bytes_lt (n : nat) (a b : Z) :
  0 <= a -> a < b -> b < 2 ^ (8 * Z.of_nat n) ->
  bytes_ltb (be_bytes n a) (be_bytes n b) = true.
Proof.
  revert a b. induction n as [|n IH]; intros a b Ha Hab Hb.
  - cbn in Hb. lia.
  - cbn [be_bytes bytes_ltb]. rewrite !top_byte by lia.
    set (K := 2 ^ (8 * Z.of_nat n)).
    assert (HK : 0 < K) by (subst K; lia).
    assert (Hq : a / K <= b / K) by (apply Z.div_le_mono; lia).
    destruct (Z.ltb_spec (a / K) (b / K)) as [Hlt|Hge]; [reflexivity|].
    assert (Heq : a / K = b / K) by lia.
    rewrite Heq, Z.eqb_refl. cbn [orb andb].
    rewrite <- (be_bytes_mod n n a), <- (be_bytes_mod n n b) by lia.
    fold K. apply IH.
    + apply Z.mod_pos_bound. lia.
    + pose proof (Z.div_mod a K). pose proof (Z.div_mod b K). nia.
    + apply Z.mod_pos_bound. lia.
Qed.

Lemma bytes_ltb_irrefl (a : bytes) : bytes_ltb a a = false.
Proof.
  induction a as [|x a IH]; cbn [bytes_ltb]; [reflexivity|].
  now rewrite Z.ltb_irrefl, Z.eqb_refl, IH.
Qed.

Lemma bytes_ltb_prefix (p a b : bytes) :
  bytes_ltb (p ++ a) (p ++ b) = bytes_ltb a b.
Proof.
  induction p as [|x p IH]; cbn [app bytes_ltb]; [reflexivity|].
  now rewrite Z.ltb_irrefl, Z.eqb_refl, IH.
Qed.

Lemma bytes_ltb_app (a b x y : bytes) :
  length a = length b -> bytes_ltb a b = true ->
  bytes_ltb (a ++ x) (b ++ y) = true.
Proof.
  revert b. induction a as [|u a IH]; intros [|v b] Hlen Hlt;
    cbn [length] in Hlen; try discriminate.
  cbn [app bytes_ltb] in *.
  destruct (Z.ltb_spec (Z_of_byte u) (Z_of_byte v)); [reflexivity|].
  cbn [orb] in *. destruct (Z.eqb_spec (Z_of_byte u) (Z_of_byte v));
    cbn [andb] in *; [|discriminate].
  apply IH; [lia | exact Hlt].
Qed.

Lemma bytes_ltb_asym (a b : bytes) :
  bytes_ltb a b = true -> bytes_ltb b a = true -> False.
Proof.
  revert b. induction a as [|u a IH]; intros [|v b]; cbn [bytes_ltb];
    try discriminate.
  destruct (Z.ltb_spec (Z_of_byte u) (Z_of_byte v));
    destruct (Z.ltb_spec (Z_of_byte v) (Z_of_byte u)); try lia;
    destruct (Z.eqb_spec (Z_of_byte u) (Z_of_byte v));
    destruct (Z.eqb_spec (Z_of_byte v) (Z_of_byte u)); try lia;
    cbn [orb andb]; try discriminate.
  apply IH.
Qed.

(** X7.  Pull keys follow the bin id alone.  [EncodeKey] leaves the first
    byte of the key, the place of the proximity order, at zero, so of any two
    records, whatever their addresses, the one with the smaller bin id has
    the smaller key in byte-wise order, and not the other way round. *)
Theorem pull_key_order (r1 r2 : Item) :
  0 <= BinID r1 -> BinID r1 < BinID r2 -> BinID r2 < 2 ^ 64 ->
  exists k1 k2,
    EncodeKey pullFuncs r1 = Returns (k1, None) /\
    EncodeKey pullFuncs r2 = Returns (k2, None) /\
    bytes_ltb k1 k2 = true /\ bytes_ltb k2 k1 = false.
Proof.
  intros H1 H12 H2. do 2 eexists.
  split; [apply pull_key_layout|]. split; [apply pull_key_layout|].
  change (x00 :: be_bytes 8 (BinID r1)) with ([x00] ++ be_bytes 8 (BinID r1)).
  change (x00 :: be_bytes 8 (BinID r2)) with ([x00] ++ be_bytes 8 (BinID r2)).
  rewrite !bytes_ltb_prefix.
  assert (Hlt : bytes_ltb (be_bytes 8 (BinID r1)) (be_bytes 8 (BinID r2)) = true)
    by (apply be_bytes_lt; lia).
  split; [exact Hlt|].
  destruct (bytes_ltb (be_bytes 8 (BinID r2)) (be_bytes 8 (BinID r1))) eqn:E;
    [|reflexivity].
  exfalso. revert Hlt E. apply bytes_ltb_asym.
Qed.

Lemma uint64_nonneg (z : Z) : 0 <= z < 2 ^ 63 -> uint64 z = z.
Proof. intros H. unfold uint64. apply Z.mod_small. lia. Qed.

Lemma uint64_negative (z : Z) : - 2 ^ 63 <= z < 0 -> uint64 z = z + 2 ^ 64.
Proof.
  intros H. unfold uint64. symmetry.
  apply (Z.mod_unique_pos _ _ (-1)); lia.
Qed.

(** The gc key compares as the pair (uint64 of the access time, BinID). *)
Lemma gc_key_compare (r1 r2 : Item) :
  0 <= BinID r1 < 2 ^ 64 -> 0 <= BinID r2 < 2 ^ 64 ->
  uint64 (AccessTimestamp r1) < uint64 (AccessTimestamp r2)
  \/ (uint64 (AccessTimestamp r1) = uint64 (AccessTimestamp r2)
      /\ BinID r1 < BinID r2) ->
  exists k1 k2,
    EncodeKey gcFuncs r1 = Returns (k1, None) /\
    EncodeKey gcFuncs r2 = Returns (k2, None) /\
    bytes_ltb k1 k2 = true.
Proof.
  intros H1 H2 Hord. do 2 eexists.
  split; [apply gc_key_layout|]. split; [apply gc_key_layout|].
  assert (U1 : 0 <= uint64 (AccessTimestamp r1) < 2 ^ 64)
    by (apply Z.mod_pos_bound; lia).
  assert (U2 : 0 <= uint64 (AccessTimestamp r2) < 2 ^ 64)
    by (apply Z.mod_pos_bound; lia).
  destruct Hord as [Hts|[Hts Hbin]].
  - apply bytes_ltb_app; [now rewrite !length_be_bytes|].
    apply be_bytes_lt; lia.
  - rewrite Hts, bytes_ltb_prefix.
    apply bytes_ltb_app; [now rewrite !length_be_bytes|].
    apply be_bytes_lt; lia.
Qed.

(** X8.  Gc keys follow the access time, then the bin id.  For access
    timestamps that are not negative, the record accessed earlier, or at the
    same time with the smaller bin id, has the smaller key in byte-wise
    order, whatever the addresses. *)
Theorem gc_key_order (r1 r2 : Item) :
  0 <= BinID r1 < 2 ^ 64 -> 0 <= BinID r2 < 2 ^ 64 ->
  0 <= AccessTimestamp r1 < 2 ^ 63 -> 0 <= AccessTimestamp r2 < 2 ^ 63 ->
  AccessTimestamp r1 < AccessTimestamp r2
  \/ (AccessTimestamp r1 = AccessTimestamp r2 /\ BinID r1 < BinID r2) ->
  exists k1 k2,
    EncodeKey gcFuncs r1 = Returns (k1, None) /\
    EncodeKey gcFuncs r2 = Returns (k2, None) /\
    bytes_ltb k1 k2 = true.
Proof.
  intros H1 H2 T1 T2 Hord. apply gc_key_compare; try assumption.
  rewrite !uint64_nonneg by assumption. exact Hord.
Qed.

(** X9.  A negative access timestamp is written as its 64-bit two's
    complement, so its gc key sorts after the key of every record whose
    access timestamp is not negative. *)
Theorem gc_negative_time_sorts_last (r1 r2 : Item) :
  0 <= BinID r1 < 2 ^ 64 -> 0 <= BinID r2 < 2 ^ 64 ->
  - 2 ^ 63 <= AccessTimestamp r1 < 0 -> 0 <= AccessTimestamp r2 < 2 ^ 63 ->
  exists k1 k2,
    EncodeKey gcFuncs r1 = Returns (k1, None) /\
    EncodeKey gcFuncs r2 = Returns (k2, None) /\
    bytes_ltb k2 k1 = true.
Proof.
  intros H1 H2 T1 T2.
  destruct (gc_key_compare r2 r1 H2 H1) as (k2 & k1 & E2 & E1 & Hlt).
  - left. rewrite uint64_nonneg, uint64_negative by assumption. lia.
  - eauto.
Qed.

End KeyOrder.

Section CloseOnce.

Lemma no_close_printEach (prefix : string) (l : list string) :
  traces notClose (printEach prefix l).
Proof. induction l as [|v l IH]; cbn [printEach]; repeat traces_step; exact IH. Qed.

Lemma no_close_openAll (base : dirFS) (names : list string) :
  traces notClose (openAll (dirFS_Open base) names).
Proof.
  induction names as [|n names IH]; cbn [openAll]; repeat traces_step.
  - unfold dirFS_Open. traces_step.
  - exact IH.
Qed.

Lemma no_close_audit (env : Env) (ix : Indexes) : traces notClose (audit env ix).
Proof.
  unfold audit, referentialChecks, checkIndexes, counterBound, contentScan,
    report, Iterate, Count.
  repeat first
    [ apply no_close_printEach
    | traces_step
    | progress unfold checkItem, scanItem, Has ].
Qed.

Lemma no_close_opened (env : Env) : traces notClose (opened env).
Proof.
  unfold opened, sharky_New, withIndex.
  repeat first
    [ apply no_close_openAll | apply no_close_audit | traces_step ].
Qed.

(** X10.  The engine is closed exactly once.  When the store directory
    exists and the engine opens, every run of [main], whichever check fails
    later and even when the audit stops on a slice out of range, opens the
    engine first and calls [Close] as its last call to the store, and makes
    no other call of [Close]. *)
Theorem engine_closed_once (env : Env) (files : gmap string node) :
  files !! path env <> None -> NewDB_err env = None ->
  exists ops,
    trace (fst (main env (start files)))
    = OpNewDB (path env) :: ops ++ [OpClose]
    /\ Forall (fun op => op <> OpClose) ops.
Proof.
  intros Hpath Hdb. unfold main, bind, OS.notExist. cbn [fs start].
  destruct (files !! path env) as [n|]; [|congruence].
  rewrite emit_logged, Hdb. cbn [is_err]. unfold defer.
  destruct (no_close_opened env (logged (start files) [OpNewDB (path env)]))
    as (ops & E & F).
  destruct (opened env _) as [w' r] eqn:Eo. cbn [fst] in *.
  exists ops. split; [|exact F].
  cbn [emit fst trace]. rewrite E. reflexivity.
Qed.

End CloseOnce.

Section PanicPropagation.

Context {S : Type}.
Variable f : IndexFuncs.
Variable fn : Item -> S -> M (S * (bool * error)).
Variable ops : Item -> list StoreOp.
Variable step : Item -> S -> S.
Hypothesis fn_continues : forall item s w,
  fn item s w = (logged w (ops item), Returns (step item s, (false, None))).

Lemma iterLoop_panics (kvs1 kvs2 : list (slice * slice)) (kv : slice * slice)
    (items1 : list Item) (m : string) (final : error) :
  Forall2 (decodes f) kvs1 items1 ->
  itemFromIterator f kv = Panics m ->
  forall s w,
  iterLoop f fn (kvs1 ++ kv :: kvs2) final s w
  = (logged w (flat_map ops items1), Panics m).
Proof.
  intros H Hp. induction H as [|kv1 item kvs1 items1 Hd _ IH]; intros s w.
  - cbn [app iterLoop flat_map]. unfold bind, lift. rewrite Hp.
    now rewrite logged_nil.
  - cbn [app iterLoop flat_map]. unfold bind at 1, lift. rewrite Hd.
    unfold bind. rewrite fn_continues, IH. now rewrite logged_app.
Qed.

End PanicPropagation.

Lemma filter_none {A} (p : A -> bool) (l : list A) :
  (forall x, In x l -> p x = false) -> List.filter p l = [].
Proof.
  induction l as [|x l IH]; intros H; cbn [List.filter]; [reflexivity|].
  rewrite (H x) by now left. apply IH. intros y Hy. apply H. now right.
Qed.

Section CheckIndexesEdges.

Variables src dst : ShedIndex.
Variables srcStr dstStr : string.
Hypothesis dst_primary : funcs dst = retrievalDataFuncs.

(** X11.  [checkIndexes] does not survive an entry it cannot decode.  When
    the codec of the source index stops the program on an entry the iteration
    reaches, after any number of entries that decode, [checkIndexes] stops
    the program with the same message: no list of findings is returned, the
    one of the entries before is lost. *)
Theorem undecodable_entry_panics (kvs1 kvs2 : list (slice * slice))
    (kv : slice * slice) (items1 : list Item) (m : string) (w : world) :
  reached (data src) = kvs1 ++ kv :: kvs2 ->
  Forall2 (decodes (funcs src)) kvs1 items1 ->
  itemFromIterator (funcs src) kv = Panics m ->
  snd (checkIndexes src dst srcStr dstStr w) = Panics m.
Proof.
  intros Hr Hd Hp. unfold checkIndexes, Iterate, bind.
  rewrite emit_logged, Hr.
  rewrite (iterLoop_panics (funcs src) _
             (fun it => [OpHas (name dst) (Address it)])
             (fun it msgs => msgs ++ (if unreferenced dst it
                                      then [missingMsg srcStr dstStr it]
                                      else []))
             (checkItem_primary dst srcStr dstStr dst_primary)
             kvs1 kvs2 kv items1 m _ Hd Hp).
  reflexivity.
Qed.

Variable items : list Item.
Hypothesis src_decodes : Forall2 (decodes (funcs src)) (reached (data src)) items.
Hypothesis src_iterates : iterFault (data src) = None.
Hypothesis lookups_work : forall key, hasFault (data dst) key = None.

Lemma referenced_spec (it : Item) :
  unreferenced dst it = false
  <-> exists kv, In kv (entries (data dst)) /\ elems (fst kv) = Address it.
Proof.
  unfold unreferenced. rewrite lookups_work. cbn [is_err orb].
  rewrite negb_false_iff. apply keyPresent_spec.
Qed.

Lemma checkIndexes_complete (w : world) :
  snd (checkIndexes src dst srcStr dstStr w)
  = Returns (map (missingMsg srcStr dstStr)
                 (List.filter (unreferenced dst) items)).
Proof.
  rewrite (checkIndexes_spec src dst srcStr dstStr dst_primary items w)
    by assumption.
  cbn [snd]. unfold iterError. rewrite src_iterates. cbn [is_err].
  now rewrite app_nil_r.
Qed.

(** X12.  A consistent secondary index gives no finding.  When the source
    iterates without error, its entries decode, lookups in the primary index
    do not fail, and the address of every record is the key of an entry of
    the primary index, [checkIndexes] returns the empty list. *)
Theorem consistent_index_no_violation (w : world) :
  (forall it, In it items ->
     exists kv, In kv (entries (data dst)) /\ elems (fst kv) = Address it) ->
  snd (checkIndexes src dst srcStr dstStr w) = Returns [].
Proof.
  intros Hall. rewrite checkIndexes_complete. f_equal.
  replace (List.filter (unreferenced dst) items) with (@nil Item); [reflexivity|].
  symmetry. apply filter_none.
  intros it Hin. apply referenced_spec. now apply Hall.
Qed.

(** X13.  One missing address gives one finding.  Under the same
    conditions, when the address of exactly one record of the source is the
    key of no entry of the primary index, [checkIndexes] returns the single
    message that names the two indexes and this address in hexadecimal. *)
Theorem missing_entry_one_violation (before after : list Item) (it : Item)
    (w : world) :
  items = before ++ it :: after ->
  (forall kv, In kv (entries (data dst)) -> elems (fst kv) <> Address it) ->
  (forall other, In other (before ++ after) ->
     exists kv, In kv (entries (data dst)) /\ elems (fst kv) = Address other) ->
  snd (checkIndexes src dst srcStr dstStr w)
  = Returns ["item in " +:+ srcStr +:+ " and not in " +:+ dstStr +:+ " "
               +:+ hex (Address it)].
Proof.
  intros Hitems Hmissing Hothers. rewrite checkIndexes_complete. f_equal.
  assert (Hit : unreferenced dst it = true).
  { destruct (unreferenced dst it) eqn:E; [reflexivity|].
    apply referenced_spec in E as (kv & Hin & Heq). now apply Hmissing in Hin. }
  assert (Hnone : forall l, (forall o, In o l ->
              exists kv, In kv (entries (data dst)) /\ elems (fst kv) = Address o) ->
            List.filter (unreferenced dst) l = []).
  { intros l Hl. apply filter_none.
    intros o Ho. apply referenced_spec. now apply Hl. }
  rewrite Hitems, List.filter_app. cbn [List.filter]. rewrite Hit.
  rewrite !Hnone; [reflexivity | |];
    intros o Ho; apply Hothers; apply in_or_app; tauto.
Qed.

End CheckIndexesEdges.

Section ShardFiles.

Lemma OpenFile_opened (name : string) (flag perm : Z) (w w' : world) :
  OS.OpenFile name flag perm w = (w', Returns None) ->
  exists c, fs w' !! name = Some (File c).
Proof.
  unfold OS.OpenFile.
  destruct (fs w !! name) as [[|c]|] eqn:E.
  - intros [=].
  - intros [= <-]. cbn [fs]. eauto.
  - destruct (negb _); [|intros [=]].
    destruct (fs w !! OS.dirname name) as [[|c]|];
      try (intros [=]; fail).
    intros [= <-]. cbn [fs]. exists []. apply lookup_insert_eq.
Qed.

Lemma OpenFile_stdout (name : string) (flag perm : Z) (w : world) :
  stdout (fst (OS.OpenFile name flag perm w)) = stdout w.
Proof.
  unfold OS.OpenFile.
  destruct (fs w !! name) as [[|c]|]; try reflexivity.
  destruct (negb _); [|reflexivity].
  destruct (fs w !! OS.dirname name) as [[|c]|]; reflexivity.
Qed.

Lemma OpenFile_returns (name : string) (flag perm : Z) (w : world) :
  exists e, snd (OS.OpenFile name flag perm w) = Returns e.
Proof.
  unfold OS.OpenFile.
  destruct (fs w !! name) as [[|c]|]; cbn [snd]; eauto.
  destruct (negb _); cbn [snd]; eauto.
  destruct (fs w !! OS.dirname name) as [[|c]|]; cbn [snd]; eauto.
Qed.

Variable base : dirFS.

Lemma openAll_stdout (names : list string) (w : world) :
  stdout (fst (openAll (dirFS_Open base) names w)) = stdout w.
Proof.
  revert w. induction names as [|n names IH]; intros w; [reflexivity|].
  cbn [openAll]. unfold bind, dirFS_Open.
  pose proof (OpenFile_stdout (OS.Join (basedir base) n)
                (Z.lor OS.O_RDWR OS.O_CREATE) 420 w) as Hs.
  destruct (OS.OpenFile _ _ _ w) as [w1 [[e|]|m]]; cbn [fst] in *;
    try exact Hs.
  now rewrite IH.
Qed.

Lemma openAll_opened (names : list string) (w w' : world) :
  openAll (dirFS_Open base) names w = (w', Returns None) ->
  forall n, In n names ->
  exists c, fs w' !! OS.Join (basedir base) n = Some (File c).
Proof.
  revert w. induction names as [|n names IH]; intros w Hrun m Hin;
    [destruct Hin|].
  cbn [openAll] in Hrun. unfold bind in Hrun.
  destruct (dirFS_Open base n w) as [w1 [[e|]|p]] eqn:Eo;
    try discriminate.
  destruct Hin as [<-|Hin]; [|now apply (IH w1)].
  unfold dirFS_Open in Eo. apply OpenFile_opened in Eo as (c & Hc).
  assert (Hq : quiet (fun _ => True) (openAll (dirFS_Open base) names)).
  { apply quiet_openAll. intros k _. unfold dirFS_Open.
    now apply quiet_OpenFile. }
  specialize (Hq w1). rewrite Hrun in Hq. cbn [fst] in Hq.
  destruct Hq as (Hkeep & _). eauto.
Qed.

(** X14.  Opening the blob store leaves its files on disk.  When
    [sharky.New] on [n] shards succeeds, the files [shard_i] and [free_i] of
    every shard exist under the base directory afterwards: [dirFS.Open]
    opens with [O_CREATE], so a file that was missing has been created. *)
Theorem shard_files_exist_after_open (n : nat) (after : error) (w w' : world) :
  sharky_New base n after w = (w', Returns None) ->
  forall name, In name (shardNames n) ->
  exists c, fs w' !! OS.Join (basedir base) name = Some (File c).
Proof.
  unfold sharky_New, bind. intros Hrun.
  destruct (openAll (dirFS_Open base) (shardNames n) w) as [w1 [[e|]|p]] eqn:Eo;
    try discriminate.
  unfold ret in Hrun. injection Hrun as <- _.
  now apply (openAll_opened _ w).
Qed.

Lemma sharky_New_stdout (n : nat) (after : error) (w : world) :
  stdout (fst (sharky_New base n after w)) = stdout w.
Proof.
  unfold sharky_New, bind.
  pose proof (openAll_stdout (shardNames n) w) as Hs.
  destruct (openAll _ _ w) as [w1 [[e|]|p]]; cbn [fst] in *; exact Hs.
Qed.

End ShardFiles.

Section WholeRun.

Variable env : Env.
Variable files : gmap string node.
Variable w1 : world.
Hypothesis path_exists : files !! path env <> None.
Hypothesis db_opens : NewDB_err env = None.
Hypothesis sharky_exists : files !! OS.Join (path env) "sharky" <> None.
Hypothesis shards_open :
  sharky_New (mkDirFS (OS.Join (path env) "sharky")) 32 (sharky_New_err env)
             (logged (start files) [OpNewDB (path env)])
  = (w1, Returns None).
Hypothesis field_opens : NewStringField_err env = None.

Lemma w1_stdout : stdout w1 = [].
Proof.
  pose proof (sharky_New_stdout (mkDirFS (OS.Join (path env) "sharky")) 32
                (sharky_New_err env) (logged (start files) [OpNewDB (path env)]))
    as H.
  now rewrite shards_open in H.
Qed.

Lemma main_opens (k : world -> world * outcome unit) :
  (opened env (logged (start files) [OpNewDB (path env)])
   = k w1) ->
  main env (start files)
  = (fst (emit OpClose (fst (k w1))), snd (k w1)).
Proof.
  intros Ho. unfold main, bind, OS.notExist. cbn [fs start].
  destruct (files !! path env) as [n|]; [|congruence].
  rewrite emit_logged, db_opens. cbn [is_err]. unfold defer.
  change (mkWorld files [] []) with (start files).
  rewrite Ho. now destruct (k w1).
Qed.

(** X15.  A store written under another schema is not audited.  When the
    directories exist and the engine, the blob store and the schema field
    open, and the schema name is read without error and differs from the
    current one, [main] prints the one line "incorrect schema, needs ..."
    and returns: it opens no index, prints no banner, and the only calls
    after the creation of the field are the read of the field and the
    deferred [Close]. *)
Theorem schema_mismatch_aborts (found : string) :
  schemaName_Get env = (found, None) ->
  found <> DBSchemaCurrent env ->
  main env (start files)
  = (mkWorld (fs w1)
       ["incorrect schema, needs " +:+ DBSchemaCurrent env +:+ nl]
       (trace w1 ++ [OpNewField "schema-name"; OpFieldGet "schema-name";
                     OpClose]),
     Returns tt).
Proof.
  intros Hget Hne.
  rewrite (main_opens (fun w =>
             (mkWorld (fs w)
                (stdout w ++ ["incorrect schema, needs " +:+ DBSchemaCurrent env +:+ nl])
                (trace w ++ [OpNewField "schema-name"; OpFieldGet "schema-name"]),
              Returns tt))).
  - cbn [fst snd emit fs stdout trace]. rewrite w1_stdout.
    now rewrite <- app_assoc.
  - unfold opened, bind at 1, OS.notExist. cbn [fs logged start].
    destruct (files !! OS.Join (path env) "sharky") as [n|]; [|congruence].
    unfold bind at 1.
    change (mkWorld files [] ([] ++ [OpNewDB (path env)]))
      with (logged (start files) [OpNewDB (path env)]).
    rewrite shards_open. cbn [is_err].
    rewrite field_opens, Hget. cbn [is_err].
    apply String.eqb_neq in Hne. rewrite Hne. cbn [negb].
    unfold bind. rewrite !emit_logged, Printf_printed.
    unfold printed, logged. cbn [fs stdout trace].
    now rewrite <- app_assoc.
Qed.

Hypothesis schema_read : schemaName_Get env = (DBSchemaCurrent env, None).
Hypothesis gc_opens : gcSize_New_err env = None.
Hypothesis rsv_opens : reserveSize_New_err env = None.
Hypothesis indexes_open : forall n, snd (NewIndex env n) = None.

Lemma opened_runs (w : world) :
  fs w !! OS.Join (path env) "sharky" <> None ->
  sharky_New (mkDirFS (OS.Join (path env) "sharky")) 32 (sharky_New_err env) w
  = (w1, Returns None) ->
  opened env w = audit env (indexesOf env) (logged w1 startupOps).
Proof.
  intros Hdir Hsharky. unfold opened, bind at 1, OS.notExist.
  destruct (fs w !! OS.Join (path env) "sharky") as [n|]; [|congruence].
  unfold bind at 1. rewrite Hsharky. cbn [is_err].
  rewrite field_opens, gc_opens, rsv_opens, schema_read. cbn [is_err].
  rewrite String.eqb_refl. cbn [negb].
  unfold bind. rewrite !emit_logged.
  rewrite !(withIndex_opens env indexes_open).
  rewrite !logged_app. reflexivity.
Qed.

Variable itemss : list (list Item).
Variable items : list Item.
Hypothesis secondaries_decode :
  Forall2 (fun s its =>
             Forall2 (decodes (funcs (fst s))) (reached (data (fst s))) its)
          (secondaries (indexesOf env)) itemss.
Hypothesis primary_decodes :
  Forall2 (decodes retrievalDataFuncs)
          (reached (data (retrievalDataIndex (indexesOf env)))) items.

Hypothesis blob_answers : Forall (answers env) items.

(** X16.  The whole program on a store that opens.  When the directories
    exist, the engine, the blob store, the fields and the eight indexes open,
    the schema is the current one, the entries decode and neither call on the
    blob store stops the program on a record of the primary index, [main]
    returns normally, and its output is the banner followed by the report of
    the referential findings, the counter finding and the scan findings, in
    this order. *)
Theorem main_reports :
  snd (main env (start files)) = Returns tt
  /\ stdout (fst (main env (start files)))
     = ("Starting check for localstore at " +:+ path env +:+ "..." +:+ nl)
       :: reportLines (auditInconsistencies env (indexesOf env) itemss items)
                      (flat_map (corruptionOf env) items).
Proof.
  rewrite (main_opens (compose (audit env (indexesOf env))
                                (fun w => logged w startupOps))).
  2: { apply opened_runs; [exact sharky_exists | exact shards_open]. }
  unfold compose.
  rewrite (audit_spec env (indexesOf env) itemss items eq_refl
             secondaries_decode primary_decodes blob_answers).
  cbn [fst snd emit fs stdout trace logged]. rewrite w1_stdout.
  repeat split.
Qed.

(** X23.  A call on the blob store that stops the program stops the audit.
    When the store opens as above and, on a record the scan of the primary
    index reaches, [sharky.LocationFromBinary] or the read stops the
    program with [m] (as they do on a location shorter than seven bytes and
    on a shard the store does not have), [main] ends with that panic and the
    banner is all it has printed: no finding is reported, whatever the
    checks before and the scan so far had found. *)
Theorem blob_panic_stops_audit (kvs1 kvs2 : list (slice * slice))
    (kv : slice * slice) (items1 : list Item) (item : Item) (m : string) :
  reached (data (retrievalDataIndex (indexesOf env))) = kvs1 ++ kv :: kvs2 ->
  Forall2 (decodes retrievalDataFuncs) kvs1 items1 ->
  Forall (answers env) items1 ->
  decodes retrievalDataFuncs kv item ->
  crashes env item m ->
  snd (main env (start files)) = Panics m
  /\ stdout (fst (main env (start files)))
     = ["Starting check for localstore at " +:+ path env +:+ "..." +:+ nl].
Proof.
  intros Hr Hd Ha Hkv Hc.
  rewrite (main_opens (compose (audit env (indexesOf env))
                                (fun w => logged w startupOps))).
  2: { apply opened_runs; [exact sharky_exists | exact shards_open]. }
  unfold compose, audit, bind. rewrite Printf_printed.
  rewrite (referentialChecks_spec (indexesOf env) eq_refl itemss)
    by exact secondaries_decode.
  rewrite counterBound_spec.
  rewrite (contentScan_panics env (indexesOf env) kvs1 kvs2 kv items1 item m
             _ _ _ Hr Hd Ha Hkv Hc).
  cbn [fst snd emit fs stdout trace logged printed]. rewrite w1_stdout.
  split; reflexivity.
Qed.

End WholeRun.

Section Findings.

Variable env : Env.
Variable ix : Indexes.

(** X17.  The counter check within range.  When the two counters are not
    negative and their sum is below 2^63, the check adds a finding exactly
    when the sum exceeds the number of entries of the primary index, and the
    finding shows the sum and the count as they are. *)
Theorem counter_bound_in_range (inconsistencies : list string) (w : world)
    (gcCnt rsvCnt : Z) (e1 e2 : error) :
  gcSize_Get env = (gcCnt, e1) ->
  reserveSize_Get env = (rsvCnt, e2) ->
  0 <= gcCnt -> 0 <= rsvCnt -> gcCnt + rsvCnt < 2 ^ 63 ->
  snd (counterBound env ix inconsistencies w)
  = Returns
      (if gcCnt + rsvCnt >? counted (data (retrievalDataIndex ix))
       then inconsistencies
            ++ ["gcSize+reserveSize(" +:+ fmt_d (gcCnt + rsvCnt)
                  +:+ ") > chunkCount("
                  +:+ fmt_d (counted (data (retrievalDataIndex ix))) +:+ ")"]
       else inconsistencies).
Proof.
  intros Hg Hr H0 H1 Hsum. rewrite counterBound_spec, Hg, Hr. cbn [snd fst].
  unfold counterCompare. rewrite uint64_small by lia.
  now rewrite int_small by lia.
Qed.

Variable items : list Item.
Hypothesis primary_decodes :
  Forall2 (decodes (funcs (retrievalDataIndex ix)))
          (reached (data (retrievalDataIndex ix))) items.

Lemma one_finding_per_record (it : Item) :
  answers env it ->
  (length (inconsistencyOf env it) + length (corruptionOf env it))%nat
  = if isSound env it then 0%nat else 1%nat.
Proof.
  intros H. pose proof (proj1 (answers_examine env it) H) as Hm.
  unfold inconsistencyOf, corruptionOf, isCorrupt, isSound.
  destruct (examine env it) as [e|e| | |m]; try reflexivity.
  now destruct (Hm m).
Qed.

Lemma findings_count (l : list Item) :
  Forall (answers env) l ->
  (length (flat_map (inconsistencyOf env) l)
   + length (flat_map (corruptionOf env) l))%nat
  = length (List.filter (fun it => negb (isSound env it)) l).
Proof.
  induction 1 as [|it l Hit _ IH]; [reflexivity|].
  cbn [flat_map List.filter]. rewrite !length_app.
  pose proof (one_finding_per_record it Hit) as H1.
  destruct (isSound env it); cbn [negb length]; lia.
Qed.

(** X18.  On a scan during which neither call on the blob store stops the
    program, the content scan adds exactly one finding for every record that
    the iteration reaches and that is not sound, and none for a sound one:
    the two lists grow by the number of such records together.  A record is
    sound exactly when its location decodes, the read succeeds and the data
    is valid under one of the two schemes. *)
Theorem one_finding_per_unsound_record
    (inconsistencies corruptions : list string) (w : world) :
  Forall (answers env) items ->
  exists inconsistencies' corruptions',
    snd (contentScan env ix inconsistencies corruptions w)
    = Returns (inconsistencies', corruptions')
    /\ (length inconsistencies' + length corruptions')%nat
       = (length inconsistencies + length corruptions
          + length (List.filter (fun it => negb (isSound env it)) items))%nat
    /\ (forall it, isSound env it = true <->
          exists l data,
            LocationFromBinary env (Location it) = Returns (l, None) /\
            sharky_Read env l (make (Z.to_nat (Length l)))
            = Returns (data, None) /\
            (cac_Valid env (NewChunk (Address it) data) = true
             \/ soc_Valid env (NewChunk (Address it) data) = true)).
Proof.
  intros Hanswers. do 2 eexists. split; [|split].
  - rewrite (contentScan_spec env ix items primary_decodes) by assumption.
    reflexivity.
  - rewrite !length_app. pose proof (findings_count items Hanswers). lia.
  - intros it. unfold isSound, examine. split.
    + destruct (LocationFromBinary env (Location it)) as [[l [e|]]|m] eqn:El;
        try discriminate.
      destruct (sharky_Read env l (make (Z.to_nat (Length l))))
        as [[d [e|]]|m] eqn:Er; try discriminate.
      destruct (cac_Valid env _) eqn:Ec; cbn [orb].
      * intros _. exists l, d. auto.
      * destruct (soc_Valid env _) eqn:Es; [|discriminate].
        intros _. exists l, d. auto.
    + intros (l & d & -> & -> & [-> | ->]); [reflexivity|].
      now rewrite orb_true_r.
Qed.

Lemma sound_answers (it : Item) : isSound env it = true -> answers env it.
Proof.
  intros H. apply (proj2 (answers_examine env it)). intros m E.
  unfold isSound in H. now rewrite E in H.
Qed.

Variable itemss : list (list Item).
Hypothesis primary_codec : funcs (retrievalDataIndex ix) = retrievalDataFuncs.
Hypothesis secondaries_decode :
  Forall2 (fun s its =>
             Forall2 (decodes (funcs (fst s))) (reached (data (fst s))) its)
          (secondaries ix) itemss.
Hypothesis iterators_work :
  Forall (fun s => iterFault (data (fst s)) = None) (secondaries ix).
Hypothesis all_referenced :
  Forall (Forall (fun it => unreferenced (retrievalDataIndex ix) it = false))
         itemss.
Hypothesis counters_fit :
  0 <= fst (gcSize_Get env) /\ 0 <= fst (reserveSize_Get env)
  /\ fst (gcSize_Get env) + fst (reserveSize_Get env)
     <= counted (data (retrievalDataIndex ix))
  /\ counted (data (retrievalDataIndex ix)) < 2 ^ 63.
Hypothesis all_sound : Forall (fun it => isSound env it = true) items.

Lemma no_check_messages :
  flat_map (checkMsgs ix) (combine (secondaries ix) itemss) = [].
Proof.
  assert (H : forall (ss : list (ShedIndex * string)) (iss : list (list Item)),
             Forall (fun s => iterFault (data (fst s)) = None) ss ->
             Forall (Forall (fun it =>
                       unreferenced (retrievalDataIndex ix) it = false)) iss ->
             flat_map (checkMsgs ix) (combine ss iss) = []).
  { induction ss as [|[s str] ss IH]; intros [|its iss] Hs Hi;
      try reflexivity.
    inversion Hs as [|? ? Hs1 Hs2]; inversion Hi as [|? ? Hi1 Hi2]; subst.
    cbn [combine flat_map checkMsgs]. rewrite (IH iss) by assumption.
    cbn [fst] in Hs1. unfold iterError. rewrite Hs1. cbn [is_err].
    rewrite filter_none; [reflexivity|].
    intros it Hin. rewrite List.Forall_forall in Hi1. now apply Hi1. }
  now apply H.
Qed.

Lemma no_scan_findings :
  flat_map (inconsistencyOf env) items = []
  /\ flat_map (corruptionOf env) items = [].
Proof.
  assert (H : forall l, Forall (fun it => isSound env it = true) l ->
             flat_map (inconsistencyOf env) l = []
             /\ flat_map (corruptionOf env) l = []).
  { induction 1 as [|it l Hit Hl [IH1 IH2]]; [now split|].
    cbn [flat_map]. rewrite IH1, IH2.
    unfold inconsistencyOf, corruptionOf, isCorrupt, isSound in *.
    destruct (examine env it); try discriminate. now split. }
  now apply H.
Qed.

(** X19.  A clean store is reported clean.  When the secondary indexes
    iterate without error and reference only addresses the primary index
    knows, the counters fit the number of entries, and every record the scan
    reaches in the primary index is sound, the audit returns normally and
    prints the banner, "Check complete" and "No inconsistencies or
    corruptions found", and nothing else. *)
Theorem clean_store_reports_nothing (w : world) :
  snd (audit env ix w) = Returns tt
  /\ stdout (fst (audit env ix w))
     = stdout w
       ++ [ "Starting check for localstore at " +:+ path env +:+ "..." +:+ nl;
            "Check complete";
            "No inconsistencies or corruptions found" +:+ nl ].
Proof.
  assert (Hanswers : Forall (answers env) items).
  { apply (List.Forall_impl (answers env) sound_answers all_sound). }
  rewrite (audit_spec env ix itemss items primary_codec secondaries_decode
             primary_decodes Hanswers).
  cbn [fst snd stdout]. split; [reflexivity|]. f_equal.
  destruct no_scan_findings as [-> ->]. rewrite no_check_messages.
  destruct counters_fit as (Hg & Hr & Hle & Hc).
  unfold counterCompare. rewrite uint64_small, int_small by lia.
  destruct (Z.gtb_spec (fst (gcSize_Get env) + fst (reserveSize_Get env))
              (counted (data (retrievalDataIndex ix)))); [lia|].
  reflexivity.
Qed.

End Findings.

Section PrimaryEntry.

Variable r : Item.
Variables kspare vspare : bytes.
Hypothesis HBatchID : length (BatchID r) = 32%nat.
Hypothesis HIndex : length (Index r) = 8%nat.
Hypothesis HTimestamp : length (Timestamp r) = 8%nat.
Hypothesis HSig : length (Sig r) = 65%nat.
Hypothesis HBinID : 0 <= BinID r < 2 ^ 64.
Hypothesis HStore : - 2 ^ 63 <= StoreTimestamp r < 2 ^ 63.

(** X20.  Entry round trip of the primary index.  The key is the address
    as it is, whatever its length, and the iterator turns the key and the
    value encoded from a record in range back into the address, store
    timestamp, bin id, stamp fields and location of the record. *)
Theorem primary_entry_roundtrip :
  exists v,
    EncodeKey retrievalDataFuncs r = Returns (Address r, None) /\
    EncodeValue retrievalDataFuncs r = Returns (v, None) /\
    itemFromIterator retrievalDataFuncs (Slice (Address r) kspare, Slice v vspare)
    = Returns (entryFields RetrievalData r, None).
Proof.
  eexists. split; [reflexivity|].
  split; [now apply retrievalData_value_layout|].
  unfold itemFromIterator. cbn [fst snd].
  change (DecodeKey retrievalDataFuncs) with retrievalData_DecodeKey.
  change (DecodeValue retrievalDataFuncs) with retrievalData_DecodeValue.
  unfold retrievalData_DecodeKey. cbn [obind elems].
  rewrite retrievalData_value_decodes by assumption. cbn [obind].
  f_equal. f_equal.
  unfold Merge, valueFields, entryFields, zeroItem.
  cbn [Address Location AccessTimestamp StoreTimestamp BinID PinCounter Tag
       BatchID Index Timestamp Sig set_Address].
  now rewrite or_bytes_nil_r.
Qed.

End PrimaryEntry.

Section PushKeyEdge.

Lemma firstn_make (k n : nat) : firstn k (make n) = make (Nat.min k n).
Proof.
  unfold make. revert k. induction n as [|n IH]; intros [|k]; simpl; auto.
  now rewrite IH.
Qed.

(** X21.  The push key holds exactly 32 address bytes.  [EncodeKey] copies
    the address into a buffer of 40 bytes after the timestamp, so a longer
    address is cut and a shorter one is followed by zero bytes: decoding the
    key gives back the store timestamp, and as address the first 32 bytes of
    the address followed by zeros. *)
Theorem push_key_fits_address (r : Item) (sp : bytes) :
  - 2 ^ 63 <= StoreTimestamp r < 2 ^ 63 ->
  exists k e,
    EncodeKey pushFuncs r = Returns (k, None) /\
    DecodeKey pushFuncs (Slice k sp) = Returns (e, None) /\
    StoreTimestamp e = StoreTimestamp r /\
    Address e = firstn 32 (Address r ++ make 32).
Proof.
  intros Hts.
  change (EncodeKey pushFuncs) with push_EncodeKey.
  change (DecodeKey pushFuncs) with push_DecodeKey.
  unfold push_EncodeKey.
  change (make 40) with ([] ++ make 8 ++ make 32).
  rewrite PutUint64_at_middle by (rewrite ?length_make; reflexivity).
  cbn [app].
  set (ts := be_bytes 8 (uint64 (StoreTimestamp r))).
  assert (Lts : length ts = 8%nat) by apply length_be_bytes.
  set (pad := firstn 32 (Address r ++ make 32)).
  assert (Lpad : length pad = 32%nat).
  { subst pad. rewrite length_firstn, length_app, length_make. lia. }
  assert (Ekey : copy_at (ts ++ make 32) 8 (Address r) = ts ++ pad).
  { unfold copy_at. rewrite length_app, Lts, length_make.
    replace (8 + 32 - 8)%nat with 32%nat by lia.
    rewrite firstn_app, Lts. cbn [Nat.sub firstn]. rewrite app_nil_r.
    rewrite firstn_all2 by lia. f_equal.
    rewrite skipn_app, Lts, (skipn_all2 (n := 8 + _)) by lia. cbn [app].
    replace (8 + Nat.min 32 (length (Address r)) - 8)%nat
      with (Nat.min 32 (length (Address r))) by lia.
    rewrite skipn_make. subst pad. rewrite firstn_app.
    destruct (le_lt_dec 32 (length (Address r))) as [Hlong|Hshort].
    - rewrite Nat.min_l by lia.
      replace (32 - length (Address r))%nat with 0%nat by lia.
      replace (32 - 32)%nat with 0%nat by lia. reflexivity.
    - rewrite Nat.min_r by lia.
      rewrite !(firstn_all2 (Address r)) by lia.
      rewrite firstn_make. f_equal. f_equal. lia. }
  rewrite Ekey.
  assert (Ets : int64 (be_value ts) = StoreTimestamp r).
  { subst ts. rewrite be_value_be_bytes. now apply int64_read_back. }
  clearbody ts pad.
  exists (ts ++ pad). eexists. split; [reflexivity|].
  unfold push_DecodeKey, slice_from, slice_to.
  replace (ts ++ pad) with (ts ++ pad ++ []) by now rewrite app_nil_r.
  rewrite (reslice_middle ts pad [])
    by (unfold len; cbn [elems]; rewrite ?length_app; cbn [length]; lia).
  cbn [obind elems].
  change (ts ++ pad ++ []) with ([] ++ ts ++ (pad ++ [])).
  rewrite (reslice_middle [] ts) by (cbn [length]; lia).
  cbn [obind]. rewrite Uint64_exact by assumption. cbn [obind].
  split; [reflexivity|].
  cbn [StoreTimestamp set_StoreTimestamp Address set_Address].
  split; [exact Ets | reflexivity].
Qed.

End PushKeyEdge.

Section FailedStartup.

Lemma sharky_New_returns (base : dirFS) (n : nat) (after : error) (w : world) :
  exists e, snd (sharky_New base n after w) = Returns e.
Proof.
  unfold sharky_New, bind.
  assert (H : forall names w,
             exists e, snd (openAll (dirFS_Open base) names w) = Returns e).
  { induction names as [|m names IH]; intros w0; cbn [openAll];
      [now exists None|].
    unfold bind, dirFS_Open.
    destruct (OpenFile_returns (OS.Join (basedir base) m)
                (Z.lor OS.O_RDWR OS.O_CREATE) 420 w0) as (e & He).
    destruct (OS.OpenFile _ _ _ w0) as [w1 r]. cbn [snd] in He. subst r.
    destruct e as [e|]; [now exists (Some e)|apply IH]. }
  destruct (H (shardNames n) w) as (e & He).
  destruct (openAll _ _ w) as [w1 r]. cbn [snd] in He. subst r.
  destruct e as [e|]; cbn [snd ret]; eauto.
Qed.

Lemma setup_openAll (base : dirFS) (names : list string) :
  traces (fun op => isSetup op = true) (openAll (dirFS_Open base) names).
Proof.
  induction names as [|n names IH]; cbn [openAll].
  - apply traces_ret.
  - apply traces_bind.
    + unfold dirFS_Open. now apply traces_OpenFile.
    + intros [e|]; [apply traces_ret | exact IH].
Qed.

Lemma setup_sharky_New (base : dirFS) (n : nat) (after : error) :
  traces (fun op => isSetup op = true) (sharky_New base n after).
Proof.
  unfold sharky_New. apply traces_bind; [apply setup_openAll|].
  intros [e|]; apply traces_ret.
Qed.

Ltac stopped Hs Ht Hf :=
  do 3 eexists; split; [reflexivity|];
  cbn [stdout trace logged fst]; split; [exact Hs|];
  split;
  [ rewrite Ht, <- ?app_assoc; reflexivity
  | first [ exact Hf
          | apply Forall_app; split; [exact Hf | repeat constructor] ] ].

Ltac opening n Hs Ht Hf :=
  unfold bind at 1; rewrite emit_logged;
  match goal with
  | |- context [NewIndex ?env n] =>
      destruct (NewIndex env n) as [? [?|]];
      cbn [is_err negb andb fst snd] in *; [stopped Hs Ht Hf|]
  end.

Lemma opened_stops (env : Env) (files : gmap string node) (w0 : world) :
  w0 = logged (start files) [OpNewDB (path env)] ->
  match files !! OS.Join (path env) "sharky" with
  | Some _ =>
      match snd (sharky_New (mkDirFS (OS.Join (path env) "sharky")) 32
                   (sharky_New_err env) w0) with
      | Returns None => true
      | _ => false
      end
      && negb (is_err (NewStringField_err env))
      && negb (is_err (snd (schemaName_Get env)))
      && String.eqb (fst (schemaName_Get env)) (DBSchemaCurrent env)
      && negb (is_err (gcSize_New_err env))
      && negb (is_err (reserveSize_New_err env))
      && forallb (fun n => negb (is_err (snd (NewIndex env n)))) indexNames
  | None => false
  end = false ->
  exists line w' ops,
    opened env w0 = Printf line w'
    /\ stdout w' = stdout w0 /\ trace w' = trace w0 ++ ops
    /\ Forall (fun op => isSetup op = true) ops.
Proof.
  intros Hw0 H. unfold opened, bind at 1, OS.notExist.
  replace (fs w0) with files by now subst w0.
  destruct (files !! OS.Join (path env) "sharky") as [d|].
  2: { exists "sharky directory missing", w0, [].
       rewrite app_nil_r. repeat split. constructor. }
  unfold bind at 1.
  pose proof (sharky_New_stdout (mkDirFS (OS.Join (path env) "sharky")) 32
                (sharky_New_err env) w0) as Hs.
  destruct (sharky_New_returns (mkDirFS (OS.Join (path env) "sharky")) 32
              (sharky_New_err env) w0) as (e & He).
  destruct (setup_sharky_New (mkDirFS (OS.Join (path env) "sharky")) 32
              (sharky_New_err env) w0) as (ops1 & Ht & Hf).
  destruct (sharky_New _ _ _ w0) as [w1 r]. cbn [fst snd] in *. subst r.
  destruct e as [e|]; cbn [is_err].
  { stopped Hs Ht Hf. }
  cbn [andb] in H. unfold bind at 1. rewrite emit_logged.
  destruct (NewStringField_err env) as [e|]; cbn [is_err negb andb] in *.
  { stopped Hs Ht Hf. }
  unfold bind at 1. rewrite emit_logged.
  destruct (schemaName_Get env) as [found [e|]]; cbn [is_err negb andb fst snd] in *.
  { stopped Hs Ht Hf. }
  destruct (String.eqb found (DBSchemaCurrent env)); cbn [negb andb] in *.
  2: { stopped Hs Ht Hf. }
  unfold bind at 1. rewrite emit_logged.
  destruct (gcSize_New_err env) as [e|]; cbn [is_err negb andb] in *.
  { stopped Hs Ht Hf. }
  unfold bind at 1. rewrite emit_logged.
  destruct (reserveSize_New_err env) as [e|]; cbn [is_err negb andb] in *.
  { stopped Hs Ht Hf. }
  cbn [forallb indexNames] in H.
  unfold withIndex.
  opening "Address->StoreTimestamp|BinID|BatchID|BatchIndex|Sig|Location" Hs Ht Hf.
  opening "Address->AccessTimestamp" Hs Ht Hf.
  opening "PO|BinID->Hash" Hs Ht Hf.
  opening "StoreTimestamp|Hash->Tags" Hs Ht Hf.
  opening "AccessTimestamp|BinID|Hash->BatchID|BatchIndex" Hs Ht Hf.
  opening "Hash->PinCounter" Hs Ht Hf.
  opening "BatchID|PO|Hash->nil" Hs Ht Hf.
  opening "BatchID|BatchIndex->Hash|Timestamp" Hs Ht Hf.
  discriminate H.
Qed.

(** X22.  A failed start-up check stops the program before any check of the
    store.  When one of the conditions [main] tests before the banner does
    not hold (a directory is missing, the engine, the blob store, a field or
    one of the eight indexes does not open, the schema name cannot be read or
    is not the current one), [main] returns normally, prints exactly one
    line, and makes set-up calls only: it iterates no index, looks nothing
    up, counts nothing and reads no blob. *)
Theorem failed_startup_runs_no_check (env : Env) (files : gmap string node) :
  startupOk env files = false ->
  exists line,
    snd (main env (start files)) = Returns tt /\
    stdout (fst (main env (start files))) = [line] /\
    Forall (fun op => isSetup op = true) (trace (fst (main env (start files)))).
Proof.
  intros H. unfold startupOk in H. unfold main, bind, OS.notExist.
  cbn [fs start].
  destruct (files !! path env) as [n|] eqn:Ep.
  2: { eexists. cbn. repeat split. constructor. }
  rewrite emit_logged. destruct (NewDB_err env) as [e|] eqn:Edb; cbn [is_err].
  { eexists. cbn. repeat split. repeat constructor. }
  destruct (opened_stops env files _ eq_refl)
    as (line & w' & ops & E & Hs & Ht & Hf).
  { destruct (files !! OS.Join (path env) "sharky"); [exact H | reflexivity]. }
  exists line. unfold defer. rewrite E.
  cbn [Printf emit printed logged fst snd stdout trace].
  rewrite Hs, Ht. cbn [logged start stdout trace app].
  repeat split. constructor; [reflexivity|].
  apply Forall_app. split; [exact Hf | now repeat constructor].
Qed.

End FailedStartup.

(* ===================================================================== *)
(** ** Runs of the further properties *)
(* ===================================================================== *)

Section MoreRuns.

Import Demo Samples.

Ltac concrete := first [reflexivity | discriminate | (cbn; lia)].

Lemma secondary_value_roundtrip_witness :
  exists v,
    EncodeValue (funcsOf Gc) fullRecord = Returns (v, None) /\
    DecodeValue (funcsOf Gc) zeroItem (Slice v [x00])
    = Returns (valueFields Gc fullRecord, None).
Proof.
  apply (secondary_value_roundtrip fullRecord zeroItem [x00]); concrete.
Defined.

Lemma primary_value_roundtrip_witness :
  exists v,
    EncodeValue retrievalDataFuncs fullRecord = Returns (v, None) /\
    length v = (headerSize + length (Location fullRecord))%nat /\
    DecodeValue retrievalDataFuncs zeroItem (Slice v [x00])
    = Returns (valueFields RetrievalData fullRecord, None).
Proof.
  apply (primary_value_roundtrip fullRecord zeroItem [x00]); concrete.
Defined.

Lemma secondary_entry_roundtrip_witness :
  exists k v,
    EncodeKey (funcsOf Pull) fullRecord = Returns (k, None) /\
    EncodeValue (funcsOf Pull) fullRecord = Returns (v, None) /\
    itemFromIterator (funcsOf Pull) (Slice k [], Slice v [x00])
    = Returns (entryFields Pull fullRecord, None).
Proof.
  apply (secondary_entry_roundtrip fullRecord [] [x00]); concrete.
Defined.

Lemma long_value_decodes_witness :
  exists e,
    DecodeValue (funcsOf Pin) zeroItem (exact (make 12)) = Returns (e, None)
    /\ (Pin = RetrievalData -> Location e = skipn headerSize (elems (exact (make 12)))).
Proof.
  apply (long_value_decodes zeroItem (exact (make 12)) Pin). cbn. lia.
Defined.

Lemma key_decoding_domain_witness :
  (forall e msg,
     DecodeKey (funcsOf Gc) (exact (make 15)) <> Returns (e, Some msg))
  /\ ((exists e, DecodeKey (funcsOf Gc) (exact (make 15)) = Returns (e, None))
      <-> (forall n, keyLength Gc = Some n -> (n <= len (exact (make 15)))%nat)).
Proof.
  apply (key_decoding_domain (exact (make 15)) eq_refl Gc).
Defined.

Lemma pull_key_order_witness :
  exists k1 k2,
    EncodeKey pullFuncs fullRecord = Returns (k1, None) /\
    EncodeKey pullFuncs nextRecord = Returns (k2, None) /\
    bytes_ltb k1 k2 = true /\ bytes_ltb k2 k1 = false.
Proof.
  apply (pull_key_order fullRecord nextRecord); concrete.
Defined.

Lemma gc_key_order_witness :
  exists k1 k2,
    EncodeKey gcFuncs early = Returns (k1, None) /\
    EncodeKey gcFuncs late = Returns (k2, None) /\
    bytes_ltb k1 k2 = true.
Proof.
  apply (gc_key_order early late); concrete.
Defined.

Lemma gc_negative_time_sorts_last_witness :
  exists k1 k2,
    EncodeKey gcFuncs fullRecord = Returns (k1, None) /\
    EncodeKey gcFuncs late = Returns (k2, None) /\
    bytes_ltb k2 k1 = true.
Proof.
  apply (gc_negative_time_sorts_last fullRecord late); concrete.
Defined.

Lemma engine_closed_once_witness :
  exists ops,
    trace (fst (main truncatedPinEnv (start files)))
    = OpNewDB (path truncatedPinEnv) :: ops ++ [OpClose]
    /\ Forall (fun op => op <> OpClose) ops.
Proof.
  apply (engine_closed_once truncatedPinEnv files); concrete.
Defined.

Lemma undecodable_entry_panics_witness :
  snd (checkIndexes (pinIndex (indexesOf truncatedPinEnv))
         (retrievalDataIndex (indexesOf truncatedPinEnv))
         "pinIdx" "retrievalDataIndex" (start files))
  = Panics "slice bounds out of range"
  /\ snd (main truncatedPinEnv (start files))
     = Panics "slice bounds out of range"
  /\ stdout (fst (main truncatedPinEnv (start files))) = [banner].
Proof.
  split; [|split; vm_compute; reflexivity].
  apply (undecodable_entry_panics
           (pinIndex (indexesOf truncatedPinEnv))
           (retrievalDataIndex (indexesOf truncatedPinEnv))
           "pinIdx" "retrievalDataIndex" eq_refl
           [] [] (exact addrA, exact [x01; x02; x03; x04; x05]) []);
    [reflexivity | constructor | reflexivity].
Defined.

Lemma consistent_index_no_violation_witness :
  snd (checkIndexes (pinIndex (indexesOf consistentEnv))
         (retrievalDataIndex (indexesOf consistentEnv))
         "pinIdx" "retrievalDataIndex" (start files))
  = Returns [].
Proof.
  apply (consistent_index_no_violation
           (pinIndex (indexesOf consistentEnv))
           (retrievalDataIndex (indexesOf consistentEnv))
           "pinIdx" "retrievalDataIndex" eq_refl [pinned addrA]).
  - repeat constructor.
  - reflexivity.
  - reflexivity.
  - intros it [<-|[]]. exists (primaryEntry addrA). split; [now left | reflexivity].
Defined.

Lemma missing_entry_one_violation_witness :
  snd (checkIndexes (pinIndex (indexesOf oneMissingEnv))
         (retrievalDataIndex (indexesOf oneMissingEnv))
         "pinIdx" "retrievalDataIndex" (start files))
  = Returns ["item in pinIdx and not in retrievalDataIndex " +:+ hex addrB].
Proof.
  apply (missing_entry_one_violation
           (pinIndex (indexesOf oneMissingEnv))
           (retrievalDataIndex (indexesOf oneMissingEnv))
           "pinIdx" "retrievalDataIndex" eq_refl [pinned addrA; pinned addrB]
           ltac:(repeat constructor) eq_refl ltac:(reflexivity)
           [pinned addrA] [] (pinned addrB)).
  - reflexivity.
  - intros kv [<-|[]]. discriminate.
  - intros other [<-|[]]. exists (primaryEntry addrA).
    split; [now left | reflexivity].
Defined.

Lemma shard_files_exist_after_open_witness :
  exists c, fs afterOpening !! "/ls/sharky/free_031" = Some (File c).
Proof.
  apply (shard_files_exist_after_open (mkDirFS "/ls/sharky") 32 None
           (logged (start files) [OpNewDB "/ls"]) afterOpening
           ltac:(vm_compute; reflexivity) "free_031").
  vm_compute. tauto.
Defined.

Lemma schema_mismatch_aborts_witness :
  stdout (fst (main wrongSchemaEnv (start files)))
  = ["incorrect schema, needs v1" +:+ nl].
Proof.
  rewrite (schema_mismatch_aborts wrongSchemaEnv files afterOpening
             ltac:(discriminate) eq_refl ltac:(discriminate)
             ltac:(vm_compute; reflexivity) eq_refl "v0" eq_refl
             ltac:(discriminate)).
  reflexivity.
Defined.

Lemma main_reports_witness :
  stdout (fst (main oneMissingEnv (start files)))
  = [banner; "Check complete";
     "Found 1 inconsistencies in indexes" +:+ nl;
     "INCONSISTENCY: item in pinIdx and not in retrievalDataIndex "
       +:+ hex addrB +:+ nl].
Proof.
  destruct (main_reports oneMissingEnv files afterOpening
              ltac:(discriminate) eq_refl ltac:(discriminate)
              ltac:(vm_compute; reflexivity) eq_refl eq_refl eq_refl eq_refl
              ltac:(reflexivity)
              [[]; []; []; []; [pinned addrA; pinned addrB]; []; []]
              [primaryItem addrA]
              ltac:(repeat constructor) ltac:(repeat constructor)
              ltac:(answering))
    as (_ & H).
  rewrite H. vm_compute. reflexivity.
Defined.

Lemma counter_bound_in_range_witness :
  snd (counterBound (countersEnv (6, None) (5, None))
         (indexesOf (countersEnv (6, None) (5, None))) [] (start files))
  = Returns ["gcSize+reserveSize(11) > chunkCount(10)"].
Proof.
  apply (counter_bound_in_range (countersEnv (6, None) (5, None))
           (indexesOf (countersEnv (6, None) (5, None))) [] (start files)
           6 5 None None); concrete.
Defined.

Lemma one_finding_per_unsound_record_witness :
  exists inconsistencies' corruptions',
    snd (contentScan corruptEnv (indexesOf corruptEnv) [] [] (start files))
    = Returns (inconsistencies', corruptions')
    /\ (length inconsistencies' + length corruptions')%nat = 2%nat.
Proof.
  destruct (one_finding_per_unsound_record corruptEnv (indexesOf corruptEnv)
              [primaryItem addrA; primaryItem addrB]
              ltac:(repeat constructor) [] [] (start files)
              ltac:(answering))
    as (i & c & H & Hlen & _).
  exists i, c. split; [exact H | exact Hlen].
Defined.

Lemma clean_store_reports_nothing_witness :
  stdout (fst (audit consistentEnv (indexesOf consistentEnv) (start files)))
  = [banner; "Check complete";
     "No inconsistencies or corruptions found" +:+ nl].
Proof.
  apply (clean_store_reports_nothing consistentEnv (indexesOf consistentEnv)
           [primaryItem addrA] ltac:(repeat constructor)
           [[]; []; []; []; [pinned addrA]; []; []] eq_refl
           ltac:(repeat constructor) ltac:(repeat constructor)
           ltac:(repeat constructor)
           ltac:(cbn; lia) ltac:(repeat constructor) (start files)).
Defined.

Lemma primary_entry_roundtrip_witness :
  exists v,
    EncodeKey retrievalDataFuncs fullRecord = Returns (Address fullRecord, None) /\
    EncodeValue retrievalDataFuncs fullRecord = Returns (v, None) /\
    itemFromIterator retrievalDataFuncs
      (Slice (Address fullRecord) [], Slice v [x00])
    = Returns (entryFields RetrievalData fullRecord, None).
Proof.
  apply (primary_entry_roundtrip fullRecord [] [x00]); concrete.
Defined.

Lemma push_key_fits_address_witness :
  exists k e,
    EncodeKey pushFuncs shortAddress = Returns (k, None) /\
    DecodeKey pushFuncs (Slice k []) = Returns (e, None) /\
    StoreTimestamp e = StoreTimestamp shortAddress /\
    Address e = firstn 32 (Address shortAddress ++ make 32).
Proof.
  apply (push_key_fits_address shortAddress []). cbn. lia.
Defined.

End MoreRuns.

Section FailedStartupRuns.

Import Demo FailingStores.

Lemma failed_startup_runs_no_check_witness :
  exists line,
    snd (main pinFailsEnv (start files)) = Returns tt /\
    stdout (fst (main pinFailsEnv (start files))) = [line] /\
    Forall (fun op => isSetup op = true)
           (trace (fst (main pinFailsEnv (start files)))).
Proof.
  apply (failed_startup_runs_no_check pinFailsEnv files). vm_compute. reflexivity.
Defined.

Lemma blob_panic_stops_audit_witness :
  snd (main shortLocationEnv (start files)) = Panics "index out of range [1]"
  /\ stdout (fst (main shortLocationEnv (start files))) = [banner].
Proof.
  apply (blob_panic_stops_audit shortLocationEnv files Samples.afterOpening
           ltac:(discriminate) eq_refl ltac:(discriminate)
           ltac:(vm_compute; reflexivity) eq_refl eq_refl eq_refl eq_refl
           ltac:(reflexivity)
           [[]; []; []; []; []; []; []] ltac:(repeat constructor)
           [] [] shortLocation [] shortLocationItem "index out of range [1]").
  - reflexivity.
  - constructor.
  - constructor.
  - reflexivity.
  - left. reflexivity.
Defined.

End FailedStartupRuns.
